(** * OpenScreen CLI: effect regions compiled to FFmpeg filter plans

    A shallow embedding of the filter generators ([zoom.ts], [crop.ts],
    [trim.ts], [background.ts], [annotations.ts]) and of the multi-pass
    planner ([pipeline.ts]), followed by the properties established for them.

    Numeric model.  A JavaScript [number] is embedded as an exact rational
    ([Q]): finite and never NaN, with no IEEE-754 rounding.  Numeric identity
    ([===] on numbers) is [Qeq], written [==].  The sources divide only by
    non-zero constants, by the positive entries of the scale table and by
    [1 + (scale - 1) * strength], which is at least 1.  Values produced by
    [Math.round] are integral and are kept in [Z].  Where a statement is
    about NaN, the value is an [option Q] and NaN is [None]. *)

From Stdlib Require Import ZArith QArith Qround Qabs Lqa Lia.
From Stdlib Require Import List String Ascii DecimalString Bool.
From Stdlib Require Import Permutation Sorted.
Import ListNotations.

Local Open Scope Q_scope.

(** ** Numeric primitives of the host language *)

Definition Qltb (a b : Q) : bool := negb (Qle_bool b a).
Definition Qgtb (a b : Q) : bool := Qltb b a.

Definition Math_min (a b : Q) : Q := if Qle_bool a b then a else b.
Definition Math_max (a b : Q) : Q := if Qle_bool a b then b else a.

(** [Math.round]: the nearest integer, a tie going towards +infinity. *)
Definition Math_round (x : Q) : Z := Qfloor (x + (1 # 2)).

Definition isInteger (x : Q) : bool := Qeq_bool x (inject_Z (Qfloor x)).

(** ** types.ts *)

Inductive ZoomDepth : Set := D1 | D2 | D3 | D4 | D5 | D6.

Module ZoomFocus.
Record t : Set := mk { cx : Q; cy : Q }.
End ZoomFocus.

Module ZoomRegion.
Record t : Set := mk {
  id : string;
  startMs : Q;
  endMs : Q;
  depth : ZoomDepth;
  focus : ZoomFocus.t
}.
End ZoomRegion.

Definition ZOOM_DEPTH_SCALES (d : ZoomDepth) : Q :=
  match d with
  | D1 => 125 # 100
  | D2 => 15 # 10
  | D3 => 18 # 10
  | D4 => 22 # 10
  | D5 => 35 # 10
  | D6 => 5
  end.

Module CropRegion.
Record t : Set := mk { x : Q; y : Q; width : Q; height : Q }.
End CropRegion.

Module TrimRegion.
Record t : Set := mk { id : string; startMs : Q; endMs : Q }.
End TrimRegion.

Inductive AnnotationType : Set := text_ann | arrow_ann.

Inductive ArrowDirection : Set :=
  | up | down | left | right | up_right | up_left | down_right | down_left.

Module AnnotationRegion.
Record t : Set := mk {
  id : string;
  startMs : Q;
  endMs : Q;
  type : AnnotationType;
  text : option string;
  x : Q;
  y : Q;
  fontSize : option Q;
  fontColor : option string;
  fontFamily : option string;
  backgroundColor : option string;
  arrowDirection : option ArrowDirection;
  arrowColor : option string;
  arrowSize : option Q
}.
End AnnotationRegion.

Inductive BackgroundType : Set := bg_color | bg_gradient | bg_image | bg_blur.

Module BackgroundConfig.
Record t : Set := mk {
  type : BackgroundType;
  color : option string;
  gradient : option string;
  imagePath : option string;
  blurRadius : option Q;
  padding : option Q;
  borderRadius : option Q
}.
End BackgroundConfig.

Module VideoInfo.
Record t : Set := mk { width : Q; height : Q; durationMs : Q; fps : Q }.
End VideoInfo.

Module ZoomConfig.
Record t : Set := mk {
  regions : list ZoomRegion.t;
  transitionMs : option Q;
  smoothing : option Q
}.
End ZoomConfig.

Module ProcessingConfig.
Record t : Set := mk {
  inputPath : string;
  outputPath : string;
  video : VideoInfo.t;
  zoom : option ZoomConfig.t;
  crop : option CropRegion.t;
  trim : option (list TrimRegion.t);
  background : option BackgroundConfig.t;
  annotations : option (list AnnotationRegion.t);
  outputWidth : option Q;
  outputHeight : option Q;
  outputFps : option Q
}.
End ProcessingConfig.

(** [a ?? b] *)
Definition orDefault {A : Type} (o : option A) (d : A) : A :=
  match o with Some v => v | None => d end.

(** ** zoom.ts: strength model and keyframe sampler *)

Definition TRANSITION_MS : Q := 320.

Definition smoothStep (t : Q) : Q :=
  let c := Math_max 0 (Math_min 1 t) in
  c * c * (3 - 2 * c).

(** The source first tests [Number.isNaN v]; no rational is NaN, so that
    branch has no counterpart here. *)
Definition clamp (v lo hi : Q) : Q := Math_min hi (Math_max lo v).

Definition computeRegionStrength (region : ZoomRegion.t) (timeMs : Q) : Q :=
  let leadInStart := ZoomRegion.startMs region - TRANSITION_MS in
  let leadOutEnd := ZoomRegion.endMs region + TRANSITION_MS in
  if Qltb timeMs leadInStart || Qgtb timeMs leadOutEnd then 0
  else
    let fadeIn := smoothStep ((timeMs - leadInStart) / TRANSITION_MS) in
    let fadeOut := smoothStep ((leadOutEnd - timeMs) / TRANSITION_MS) in
    Math_min fadeIn fadeOut.

(** The loop of [findDominantRegion], threading [(best, bestStrength)]. *)
Definition dominantStep (timeMs : Q) (acc : option ZoomRegion.t * Q)
    (r : ZoomRegion.t) : option ZoomRegion.t * Q :=
  let s := computeRegionStrength r timeMs in
  if Qgtb s (snd acc) then (Some r, s) else acc.

Definition findDominantRegion (regions : list ZoomRegion.t) (timeMs : Q)
    : option ZoomRegion.t * Q :=
  fold_left (dominantStep timeMs) regions (None, 0).

Definition clampFocus (focus : ZoomFocus.t) (depth : ZoomDepth) : ZoomFocus.t :=
  let scale := ZOOM_DEPTH_SCALES depth in
  let margin := 1 / (2 * scale) in
  ZoomFocus.mk (clamp (ZoomFocus.cx focus) margin (1 - margin))
               (clamp (ZoomFocus.cy focus) margin (1 - margin)).

Module ZoomKeyframe.
Record t : Set := mk {
  timeMs : Q;
  cropWidth : Q;
  cropHeight : Q;
  centerX : Q;
  centerY : Q
}.
End ZoomKeyframe.

(** One iteration of the sampling loop: the keyframe pushed for tick [t]. *)
Definition keyframeAt (regions : list ZoomRegion.t) (t : Q) : ZoomKeyframe.t :=
  let '(region, strength) := findDominantRegion regions t in
  match region with
  | Some r =>
      if Qgtb strength 0 then
        let scale := ZOOM_DEPTH_SCALES (ZoomRegion.depth r) in
        let clamped := clampFocus (ZoomRegion.focus r) (ZoomRegion.depth r) in
        let zoomFraction := 1 / (1 + (scale - 1) * strength) in
        ZoomKeyframe.mk t zoomFraction zoomFraction
          ((1 # 2) + (ZoomFocus.cx clamped - (1 # 2)) * strength)
          ((1 # 2) + (ZoomFocus.cy clamped - (1 # 2)) * strength)
      else ZoomKeyframe.mk t 1 1 (1 # 2) (1 # 2)
  | None => ZoomKeyframe.mk t 1 1 (1 # 2) (1 # 2)
  end.

(** [for (let t = 0; t <= durationMs; t += sampleIntervalMs)].  The loop
    need not end (a non-positive interval), so it runs on fuel: [None] means
    the fuel ran out before the loop condition failed. *)
Fixpoint sampleLoop (fuel : nat) (regions : list ZoomRegion.t)
    (durationMs sampleIntervalMs t : Q) (keyframes : list ZoomKeyframe.t)
    : option (list ZoomKeyframe.t) :=
  match fuel with
  | O => None
  | S fuel' =>
      if Qle_bool t durationMs then
        sampleLoop fuel' regions durationMs sampleIntervalMs
          (t + sampleIntervalMs) (keyframes ++ [keyframeAt regions t])
      else Some keyframes
  end.

Definition sampleZoomKeyframes (fuel : nat) (regions : list ZoomRegion.t)
    (durationMs sampleIntervalMs : Q) : option (list ZoomKeyframe.t) :=
  sampleLoop fuel regions durationMs sampleIntervalMs 0 [].

(** The default third argument of [sampleZoomKeyframes]. *)
Definition defaultSampleIntervalMs : Q := 33.

(** ** Strings of the host language *)

Local Open Scope string_scope.

Definition backslash : string := String (ascii_of_nat 92) EmptyString.
Definition newline : ascii := ascii_of_nat 10.

(** [Array.prototype.join] *)
Definition join (sep : string) (parts : list string) : string :=
  String.concat sep parts.

(** [String.prototype.repeat] *)
Fixpoint repeatString (s : string) (count : nat) : string :=
  match count with
  | O => ""
  | S n => s ++ repeatString s n
  end.

(** [s.replace(/c/g, by)] for a one-character pattern. *)
Fixpoint replaceAll (c : ascii) (by_ : string) (s : string) : string :=
  match s with
  | EmptyString => EmptyString
  | String a s' =>
      (if Ascii.eqb a c then by_ else String a EmptyString) ++ replaceAll c by_ s'
  end.

(** [s.startsWith(p)] *)
Definition startsWith (p s : string) : bool := String.prefix p s.

(** [s.slice(1)] *)
Definition slice1 (s : string) : string :=
  match s with
  | EmptyString => EmptyString
  | String _ s' => s'
  end.

(** Truthiness of a string: only the empty string is falsy. *)
Definition truthy (s : string) : bool := negb (String.eqb s "").

(** [s.lastIndexOf(c)], [-1] when [c] does not occur. *)
Fixpoint lastIndexOfFrom (c : ascii) (s : string) (i : Z) (found : Z) : Z :=
  match s with
  | EmptyString => found
  | String a s' =>
      lastIndexOfFrom c s' (i + 1)%Z (if Ascii.eqb a c then i else found)
  end.

Definition lastIndexOf (c : ascii) (s : string) : Z :=
  lastIndexOfFrom c s 0%Z (-1)%Z.

(** [s.substring(start, end)]: both indices are clamped into [0, length]
    and swapped when out of order. *)
Definition js_substring (s : string) (start stop : Z) : string :=
  let len := Z.of_nat (String.length s) in
  let a := Z.min len (Z.max 0 start) in
  let b := Z.min len (Z.max 0 stop) in
  let lo := Z.min a b in
  let hi := Z.max a b in
  String.substring (Z.to_nat lo) (Z.to_nat (hi - lo)) s.

(** [s.substring(start)] *)
Definition js_substringFrom (s : string) (start : Z) : string :=
  js_substring s start (Z.of_nat (String.length s)).

Definition decimal (n : Z) : string := NilZero.string_of_int (Z.to_int n).

(** [Array.prototype.sort] with the comparator [(a, b) => key a - key b]:
    a stable sort, ascending in [key]. *)
Fixpoint insertBy {A : Type} (key : A -> Q) (a : A) (l : list A) : list A :=
  match l with
  | [] => [a]
  | b :: l' =>
      if Qle_bool (key a) (key b) then a :: l else b :: insertBy key a l'
  end.

Definition sortBy {A : Type} (key : A -> Q) (l : list A) : list A :=
  fold_right (insertBy key) [] l.

(** [ZoomPresets] of [zoom.ts]. *)
Module ZoomPresets.
Definition center : ZoomFocus.t := ZoomFocus.mk (1 # 2) (1 # 2).
Definition searchBar : ZoomFocus.t := ZoomFocus.mk (1 # 2) (6 # 100).
Definition tabBar : ZoomFocus.t := ZoomFocus.mk (3 # 10) (2 # 100).
Definition searchResults : ZoomFocus.t := ZoomFocus.mk (1 # 2) (35 # 100).
Definition definitionCard : ZoomFocus.t := ZoomFocus.mk (75 # 100) (35 # 100).
Definition imageGrid : ZoomFocus.t := ZoomFocus.mk (1 # 2) (1 # 2).
Definition element (x y : Q) : ZoomFocus.t :=
  ZoomFocus.mk (clamp x 0 1) (clamp y 0 1).
End ZoomPresets.

(** [CropPresets] of [crop.ts]. *)
Module CropPresets.
Definition noBrowserChrome : CropRegion.t := CropRegion.mk 0 (5 # 100) 1 (95 # 100).
Definition contentOnly : CropRegion.t := CropRegion.mk 0 (5 # 100) 1 (9 # 10).
Definition centerCrop4x3 : CropRegion.t := CropRegion.mk (125 # 1000) 0 (75 # 100) 1.
Definition full : CropRegion.t := CropRegion.mk 0 0 1 1.
End CropPresets.

(** The result of [buildCropExpressions] ([zoom.ts]). *)
Module CropExprs.
Record t : Set := mk { w : string; h : string; x : string; y : string }.
End CropExprs.

(** [interface Segment] of [trim.ts]. *)
Module Segment.
Record t : Set := mk { startSec : Q; endSec : Q }.
End Segment.

(** [interface PipelineStep] of [pipeline.ts]. *)
Module PipelineStep.
Record t : Set := mk { description : string; args : list string }.
End PipelineStep.

(** The result of [getArrowCoords] ([annotations.ts]). *)
Module ArrowCoords.
Record t : Set := mk { shaftX1 : Z; shaftY1 : Z; shaftX2 : Z; shaftY2 : Z }.
End ArrowCoords.

Section Generators.

(** [Number.prototype.toString] of the host for the values whose digits
    depend on the binary representation of the number: the non-integral ones
    (shortest round-trip digits) and magnitudes from 1e21 up (exponent
    notation).  Integers below 1e21 are printed by [numberToString] itself. *)
Variable hostToString : Q -> string.

(** The conversion a template literal applies to a number. *)
Definition numberToString (x : Q) : string :=
  if isInteger x && Qltb (Qabs x) (inject_Z (10 ^ 21))
  then decimal (Qfloor x)
  else hostToString x.

Definition intToString (n : Z) : string := numberToString (inject_Z n).

(** [x.toFixed(3)]: the integer [n] nearest to [|x| * 1000] (the larger one
    on a tie), zero-padded to four digits at least, a point before the last
    three. *)
Definition toFixed3 (x : Q) : string :=
  let s := if Qltb x 0 then "-" else "" in
  let ax := Qabs x in
  if Qle_bool (inject_Z (10 ^ 21)) ax then s ++ numberToString ax
  else
    let m := decimal (Math_round (ax * 1000)) in
    let k := String.length m in
    let m := if (k <=? 3)%nat then repeatString "0" (4 - k) ++ m else m in
    let k := String.length m in
    s ++ String.substring 0 (k - 3) m ++ "." ++ String.substring (k - 3) 3 m.

(** ** crop.ts *)

(** [w % 2 === 0 ? w : w - 1]; [%] truncates towards zero. *)
Definition evenDown (w : Z) : Z :=
  if (Z.rem w 2 =? 0)%Z then w else (w - 1)%Z.

Definition generateCropFilter (crop : CropRegion.t)
    (inputWidth inputHeight : Q) : string :=
  let x := Math_round (CropRegion.x crop * inputWidth) in
  let y := Math_round (CropRegion.y crop * inputHeight) in
  let w := Math_round (CropRegion.width crop * inputWidth) in
  let h := Math_round (CropRegion.height crop * inputHeight) in
  let evenW := evenDown w in
  let evenH := evenDown h in
  "crop=" ++ intToString evenW ++ ":" ++ intToString evenH ++ ":"
    ++ intToString x ++ ":" ++ intToString y.

Definition generateCropAndScaleFilter (crop : CropRegion.t)
    (inputWidth inputHeight outputWidth outputHeight : Q) : string :=
  let cropFilter := generateCropFilter crop inputWidth inputHeight in
  cropFilter ++ ",scale=" ++ numberToString outputWidth ++ ":"
    ++ numberToString outputHeight ++ ":flags=lanczos".

(** ** zoom.ts: filter strings *)

Definition generateStaticZoomFilter (focus : ZoomFocus.t) (depth : ZoomDepth)
    (inputWidth inputHeight : Q) : string :=
  let scale := ZOOM_DEPTH_SCALES depth in
  let clamped := clampFocus focus depth in
  let cropW := Math_round (inputWidth / scale) in
  let cropH := Math_round (inputHeight / scale) in
  let cropX :=
    Math_round (ZoomFocus.cx clamped * inputWidth - inject_Z cropW / 2) in
  let cropY :=
    Math_round (ZoomFocus.cy clamped * inputHeight - inject_Z cropH / 2) in
  "crop=" ++ intToString cropW ++ ":" ++ intToString cropH ++ ":"
    ++ intToString cropX ++ ":" ++ intToString cropY
    ++ ",scale=" ++ numberToString inputWidth ++ ":"
    ++ numberToString inputHeight ++ ":flags=lanczos".

Section RegionExpressions.
Variable region : ZoomRegion.t.

Definition startSec : Q := (ZoomRegion.startMs region - TRANSITION_MS) / 1000.
Definition endSec : Q := (ZoomRegion.endMs region + TRANSITION_MS) / 1000.
Definition activeStart : Q := ZoomRegion.startMs region / 1000.
Definition activeEnd : Q := ZoomRegion.endMs region / 1000.
Definition transDur : Q := TRANSITION_MS / 1000.

Definition leadInExpr (full zoomed : Q) : string :=
  let range :=
    "between(t," ++ toFixed3 startSec ++ "," ++ toFixed3 activeStart ++ ")" in
  let progress := "(t-" ++ toFixed3 startSec ++ ")/" ++ toFixed3 transDur in
  let ss := "(3*pow(" ++ progress ++ ",2)-2*pow(" ++ progress ++ ",3))" in
  "if(" ++ range ++ ", " ++ numberToString full ++ "+("
    ++ numberToString zoomed ++ "-" ++ numberToString full ++ ")*" ++ ss ++ ", ".

Definition activeExpr (zoomed : Q) : string :=
  let range :=
    "between(t," ++ toFixed3 activeStart ++ "," ++ toFixed3 activeEnd ++ ")" in
  "if(" ++ range ++ ", " ++ numberToString zoomed ++ ", ".

Definition leadOutExpr (full zoomed : Q) : string :=
  let range :=
    "between(t," ++ toFixed3 activeEnd ++ "," ++ toFixed3 endSec ++ ")" in
  let progress := "(" ++ toFixed3 endSec ++ "-t)/" ++ toFixed3 transDur in
  let ss := "(3*pow(" ++ progress ++ ",2)-2*pow(" ++ progress ++ ",3))" in
  "if(" ++ range ++ ", " ++ numberToString full ++ "+("
    ++ numberToString zoomed ++ "-" ++ numberToString full ++ ")*" ++ ss ++ ", ".

Definition regionExpr (full zoomed : Q) : string :=
  leadInExpr full zoomed ++ activeExpr zoomed ++ leadOutExpr full zoomed.

End RegionExpressions.

(** The body of the loop over the sorted regions: the four strings pushed
    onto [wExprs], [hExprs], [xExprs] and [yExprs].  The source also computes
    [centerX] and [centerY] there and never reads them. *)
Definition regionExprs (w h : Q) (region : ZoomRegion.t)
    : string * string * string * string :=
  let scale := ZOOM_DEPTH_SCALES (ZoomRegion.depth region) in
  let focus := clampFocus (ZoomRegion.focus region) (ZoomRegion.depth region) in
  let cropW := Math_round (w / scale) in
  let cropH := Math_round (h / scale) in
  let cropX := Math_round (ZoomFocus.cx focus * w - inject_Z cropW / 2) in
  let cropY := Math_round (ZoomFocus.cy focus * h - inject_Z cropH / 2) in
  (regionExpr region w (inject_Z cropW),
   regionExpr region h (inject_Z cropH),
   regionExpr region 0 (inject_Z cropX),
   regionExpr region 0 (inject_Z cropY)).

Definition buildCropExpressions (regions : list ZoomRegion.t) (w h : Q)
    : CropExprs.t :=
  match regions with
  | [] => CropExprs.mk (numberToString w) (numberToString h) "0" "0"
  | _ =>
      let sorted := sortBy ZoomRegion.startMs regions in
      let exprs := map (regionExprs w h) sorted in
      let wExprs := map (fun e => fst (fst (fst e))) exprs in
      let hExprs := map (fun e => snd (fst (fst e))) exprs in
      let xExprs := map (fun e => snd (fst e)) exprs in
      let yExprs := map snd exprs in
      let numExprs := (List.length sorted * 3)%nat in
      let combine (exprs : list string) (defaultVal : Q) :=
        join "" exprs ++ numberToString defaultVal
          ++ repeatString ")" numExprs in
      CropExprs.mk (combine wExprs w) (combine hExprs h)
                   (combine xExprs 0) (combine yExprs 0)
  end.

(** The [fps] argument of the source is never read. *)
Definition generateZoomFilter (regions : list ZoomRegion.t)
    (inputWidth inputHeight fps : Q) : string :=
  match regions with
  | [] =>
      "scale=" ++ numberToString inputWidth ++ ":" ++ numberToString inputHeight
  | _ =>
      let parts := buildCropExpressions regions inputWidth inputHeight in
      "crop=w=" ++ CropExprs.w parts ++ ":h=" ++ CropExprs.h parts
        ++ ":x=" ++ CropExprs.x parts ++ ":y=" ++ CropExprs.y parts
        ++ ",scale=" ++ numberToString inputWidth ++ ":"
        ++ numberToString inputHeight ++ ":flags=lanczos"
  end.

(** ** annotations.ts *)

Definition escapeDrawtext (text : string) : string :=
  let s := replaceAll (ascii_of_nat 92)
             (backslash ++ backslash ++ backslash ++ backslash) text in
  let s := replaceAll "'"%char ("'" ++ backslash ++ "''") s in
  let s := replaceAll ":"%char (backslash ++ ":") s in
  let s := replaceAll "%"%char "%%" s in
  replaceAll newline (backslash ++ "n") s.

Definition toFFmpegColor (hex : string) : string :=
  if String.eqb hex "transparent" then "0x00000000"
  else if startsWith "#" hex then "0x" ++ slice1 hex
  else hex.

Definition textAnnotationFilter (annotation : AnnotationRegion.t)
    (canvasWidth canvasHeight : Q) : string :=
  let x := Math_round ((AnnotationRegion.x annotation / 100) * canvasWidth) in
  let y := Math_round ((AnnotationRegion.y annotation / 100) * canvasHeight) in
  let fontSize := orDefault (AnnotationRegion.fontSize annotation) 32%Q in
  let fontColor :=
    toFFmpegColor (orDefault (AnnotationRegion.fontColor annotation) "#ffffff") in
  let fontFamily :=
    orDefault (AnnotationRegion.fontFamily annotation) "sans-serif" in
  let text := escapeDrawtext (orDefault (AnnotationRegion.text annotation) "") in
  let startSec := AnnotationRegion.startMs annotation / 1000 in
  let endSec := AnnotationRegion.endMs annotation / 1000 in
  let parts :=
    [ "drawtext=text='" ++ text ++ "'";
      "x=" ++ intToString x;
      "y=" ++ intToString y;
      "fontsize=" ++ numberToString fontSize;
      "fontcolor=" ++ fontColor;
      "fontfile=''";
      "font='" ++ fontFamily ++ "'";
      "enable='between(t," ++ toFixed3 startSec ++ "," ++ toFixed3 endSec
        ++ ")'" ] in
  let parts :=
    match AnnotationRegion.backgroundColor annotation with
    | Some bg =>
        if truthy bg && negb (String.eqb bg "transparent") then
          List.app parts [ "box=1"; "boxcolor=" ++ toFFmpegColor bg; "boxborderw=8" ]
        else parts
    | None => parts
    end in
  join ":" parts.

Definition getArrowCoords (direction : ArrowDirection) (cx cy : Z) (size : Q)
    : ArrowCoords.t :=
  let half := Math_round (size / 2) in
  (match direction with
   | right => ArrowCoords.mk (cx - half) cy (cx + half) cy
   | left => ArrowCoords.mk (cx + half) cy (cx - half) cy
   | up => ArrowCoords.mk cx (cy + half) cx (cy - half)
   | down => ArrowCoords.mk cx (cy - half) cx (cy + half)
   | up_right => ArrowCoords.mk (cx - half) (cy + half) (cx + half) (cy - half)
   | up_left => ArrowCoords.mk (cx + half) (cy + half) (cx - half) (cy - half)
   | down_right => ArrowCoords.mk (cx - half) (cy - half) (cx + half) (cy + half)
   | down_left => ArrowCoords.mk (cx + half) (cy - half) (cx - half) (cy + half)
   end)%Z.

(** [a || b] on numbers: [b] when [a] is zero. *)
Definition orIfZero (a b : Z) : Z := if (a =? 0)%Z then b else a.

Definition arrowAnnotationFilter (annotation : AnnotationRegion.t)
    (canvasWidth canvasHeight : Q) : string :=
  let cx := Math_round ((AnnotationRegion.x annotation / 100) * canvasWidth) in
  let cy := Math_round ((AnnotationRegion.y annotation / 100) * canvasHeight) in
  let size := orDefault (AnnotationRegion.arrowSize annotation) 60%Q in
  let color :=
    toFFmpegColor (orDefault (AnnotationRegion.arrowColor annotation) "#34B27B") in
  let direction := orDefault (AnnotationRegion.arrowDirection annotation) right in
  let startSec := AnnotationRegion.startMs annotation / 1000 in
  let endSec := AnnotationRegion.endMs annotation / 1000 in
  let enable :=
    "enable='between(t," ++ toFixed3 startSec ++ "," ++ toFixed3 endSec ++ ")'" in
  let c := getArrowCoords direction cx cy size in
  let thickness := Z.max 3 (Math_round (size / 15)) in
  let shaftW :=
    orIfZero (Z.abs (ArrowCoords.shaftX2 c - ArrowCoords.shaftX1 c)) thickness in
  let shaftH :=
    orIfZero (Z.abs (ArrowCoords.shaftY2 c - ArrowCoords.shaftY1 c)) thickness in
  let shaftX := Z.min (ArrowCoords.shaftX1 c) (ArrowCoords.shaftX2 c) in
  let shaftY := Z.min (ArrowCoords.shaftY1 c) (ArrowCoords.shaftY2 c) in
  "drawbox=x=" ++ intToString shaftX ++ ":y=" ++ intToString shaftY
    ++ ":w=" ++ intToString shaftW ++ ":h=" ++ intToString shaftH
    ++ ":color=" ++ color ++ ":t=fill:" ++ enable.

(** The filters one annotation pushes: none for a text annotation whose
    text is absent or empty. *)
Definition annotationFilters (canvasWidth canvasHeight : Q)
    (ann : AnnotationRegion.t) : list string :=
  match AnnotationRegion.type ann with
  | text_ann =>
      match AnnotationRegion.text ann with
      | Some t =>
          if truthy t then [textAnnotationFilter ann canvasWidth canvasHeight]
          else []
      | None => []
      end
  | arrow_ann => [arrowAnnotationFilter ann canvasWidth canvasHeight]
  end.

Definition generateAnnotationFilters (annotations : list AnnotationRegion.t)
    (canvasWidth canvasHeight : Q) : string :=
  match annotations with
  | [] => ""
  | _ => join "," (flat_map (annotationFilters canvasWidth canvasHeight) annotations)
  end.

(** ** background.ts *)

Definition roundedCornerMask (r : Q) : string :=
  "[vid]format=yuva420p,"
    ++ "geq=lum='lum(X,Y)':cb='cb(X,Y)':cr='cr(X,Y)':"
    ++ "a='if(gt(pow(min(X,W-X)-" ++ numberToString r
    ++ ",2)+pow(min(Y,H-Y)-" ++ numberToString r
    ++ ",2),pow(" ++ numberToString r ++ ",2))*"
    ++ "lt(min(X,W-X)," ++ numberToString r ++ ")*lt(min(Y,H-Y),"
    ++ numberToString r ++ "),0,255)'[rounded]".

(** The tail shared by the three compositors: the optional alpha mask and
    the overlay at the padding offset. *)
Definition overlayFilters (padPx : Z) (borderRadius : Q) : list string :=
  if Qgtb borderRadius 0 then
    [ roundedCornerMask borderRadius;
      "[bg][rounded]overlay=" ++ intToString padPx ++ ":" ++ intToString padPx
        ++ ":format=auto" ]
  else
    [ "[bg][vid]overlay=" ++ intToString padPx ++ ":" ++ intToString padPx
        ++ ":format=auto" ].

Definition paddingPx (padding videoWidth videoHeight : Q) : Z :=
  Math_round ((padding / 100) * Math_min videoWidth videoHeight).

Definition colorBackgroundFilter (color : string)
    (videoWidth videoHeight padding borderRadius : Q) : string :=
  let padPx := paddingPx padding videoWidth videoHeight in
  let canvasW := videoWidth in
  let canvasH := videoHeight in
  let innerW := canvasW - inject_Z padPx * 2 in
  let innerH := canvasH - inject_Z padPx * 2 in
  let ffColor := if startsWith "#" color then "0x" ++ slice1 color else color in
  let filters :=
    [ "[0:v]scale=" ++ numberToString innerW ++ ":" ++ numberToString innerH
        ++ ":flags=lanczos[vid]";
      "color=c=" ++ ffColor ++ ":s=" ++ numberToString canvasW ++ "x"
        ++ numberToString canvasH ++ ":d=1[bg]" ] in
  join "; " (List.app filters (overlayFilters padPx borderRadius)).

Definition blurBackgroundFilter
    (blurRadius videoWidth videoHeight padding borderRadius : Q) : string :=
  let padPx := paddingPx padding videoWidth videoHeight in
  let innerW := videoWidth - inject_Z padPx * 2 in
  let innerH := videoHeight - inject_Z padPx * 2 in
  let filters :=
    [ "[0:v]scale=" ++ numberToString videoWidth ++ ":"
        ++ numberToString videoHeight ++ ":flags=lanczos,boxblur="
        ++ numberToString blurRadius ++ ":" ++ numberToString blurRadius
        ++ "[bg]";
      "[0:v]scale=" ++ numberToString innerW ++ ":" ++ numberToString innerH
        ++ ":flags=lanczos[vid]" ] in
  join "; " (List.app filters (overlayFilters padPx borderRadius)).

Definition imageBackgroundFilter
    (videoWidth videoHeight padding borderRadius : Q) : string :=
  let padPx := paddingPx padding videoWidth videoHeight in
  let innerW := videoWidth - inject_Z padPx * 2 in
  let innerH := videoHeight - inject_Z padPx * 2 in
  let filters :=
    [ "[1:v]scale=" ++ numberToString videoWidth ++ ":"
        ++ numberToString videoHeight
        ++ ":flags=lanczos:force_original_aspect_ratio=increase,crop="
        ++ numberToString videoWidth ++ ":" ++ numberToString videoHeight
        ++ "[bg]";
      "[0:v]scale=" ++ numberToString innerW ++ ":" ++ numberToString innerH
        ++ ":flags=lanczos[vid]" ] in
  join "; " (List.app filters (overlayFilters padPx borderRadius)).

Definition generateBackgroundFilter (config : BackgroundConfig.t)
    (videoWidth videoHeight : Q) : string :=
  let padding := orDefault (BackgroundConfig.padding config) 0%Q in
  let borderRadius := orDefault (BackgroundConfig.borderRadius config) 0%Q in
  if Qeq_bool padding 0 && Qeq_bool borderRadius 0 then
    "scale=" ++ numberToString videoWidth ++ ":" ++ numberToString videoHeight
  else
    match BackgroundConfig.type config with
    | bg_color =>
        colorBackgroundFilter (orDefault (BackgroundConfig.color config) "#000000")
          videoWidth videoHeight padding borderRadius
    | bg_blur =>
        blurBackgroundFilter (orDefault (BackgroundConfig.blurRadius config) 20%Q)
          videoWidth videoHeight padding borderRadius
    | bg_image =>
        imageBackgroundFilter videoWidth videoHeight padding borderRadius
    | bg_gradient =>
        colorBackgroundFilter "#1a1a2e" videoWidth videoHeight padding borderRadius
    end.

(** ** trim.ts *)

(** The body of the loop over the sorted cut regions, threading
    [(cursor, segments)]. *)
Definition keptStep (st : Q * list Segment.t) (trim : TrimRegion.t)
    : Q * list Segment.t :=
  let trimStart := TrimRegion.startMs trim / 1000 in
  let trimEnd := TrimRegion.endMs trim / 1000 in
  (trimEnd,
   if Qltb (fst st) trimStart
   then List.app (snd st) [Segment.mk (fst st) trimStart]
   else snd st).

Definition computeKeptSegments (trimRegions : list TrimRegion.t)
    (totalDurationMs : Q) : list Segment.t :=
  match trimRegions with
  | [] => [Segment.mk 0 (totalDurationMs / 1000)]
  | _ =>
      let sorted := sortBy TrimRegion.startMs trimRegions in
      let st := fold_left keptStep sorted (0, []) in
      let totalSec := totalDurationMs / 1000 in
      if Qltb (fst st) totalSec
      then List.app (snd st) [Segment.mk (fst st) totalSec]
      else snd st
  end.

Definition computeEffectiveDuration (trimRegions : list TrimRegion.t)
    (totalDurationMs : Q) : Q :=
  let trimmedMs :=
    fold_left
      (fun sum r => sum + (TrimRegion.endMs r - TrimRegion.startMs r))
      trimRegions 0 in
  totalDurationMs - trimmedMs.

Definition trimExpr (seg : Segment.t) : string :=
  "trim=start=" ++ toFixed3 (Segment.startSec seg) ++ ":end="
    ++ toFixed3 (Segment.endSec seg).

(** The indexed loop of [generateTrimFilter], from index [i] on: the
    entries pushed onto [filters], [vLabels] and [aLabels]. *)
Fixpoint trimLoop (hasAudio : bool) (i : Z) (segments : list Segment.t)
    : list string * list string * list string :=
  match segments with
  | [] => ([], [], [])
  | seg :: rest =>
      let vLabel := "[v" ++ intToString i ++ "]" in
      let aLabel := "[a" ++ intToString i ++ "]" in
      let '(filters, vLabels, aLabels) := trimLoop hasAudio (i + 1)%Z rest in
      let vFilter := "[0:v]" ++ trimExpr seg ++ ",setpts=PTS-STARTPTS" ++ vLabel in
      let aFilter :=
        "[0:a]a" ++ trimExpr seg ++ ",asetpts=PTS-STARTPTS" ++ aLabel in
      if hasAudio
      then (vFilter :: aFilter :: filters, vLabel :: vLabels, aLabel :: aLabels)
      else (vFilter :: filters, vLabel :: vLabels, aLabels)
  end.

Definition concatFilters (hasAudio : bool) (segments : list Segment.t)
    : string :=
  let '(filters, vLabels, aLabels) := trimLoop hasAudio 0%Z segments in
  let n := intToString (Z.of_nat (List.length segments)) in
  let last :=
    if hasAudio
    then join "" vLabels ++ join "" aLabels ++ "concat=n=" ++ n
           ++ ":v=1:a=1[outv][outa]"
    else join "" vLabels ++ "concat=n=" ++ n ++ ":v=1:a=0[outv]" in
  join "; " (List.app filters [last]).

Definition simpleTrimFilters (hasAudio : bool) (seg : Segment.t) : string :=
  let range :=
    "trim=start=" ++ numberToString (Segment.startSec seg) ++ ":end="
      ++ numberToString (Segment.endSec seg) in
  let filters := [ "[0:v]" ++ range ++ ",setpts=PTS-STARTPTS[outv]" ] in
  let filters :=
    if hasAudio
    then List.app filters [ "[0:a]a" ++ range ++ ",asetpts=PTS-STARTPTS[outa]" ]
    else filters in
  join "; " filters.

(** [hasAudio] defaults to [true] in the source. *)
Definition generateTrimFilter (trimRegions : list TrimRegion.t)
    (totalDurationMs : Q) (hasAudio : bool) : string :=
  let segments := computeKeptSegments trimRegions totalDurationMs in
  match segments with
  | [] => ""
  | [seg] =>
      if Qeq_bool (Segment.startSec seg) 0
      then simpleTrimFilters hasAudio seg
      else concatFilters hasAudio segments
  | _ => concatFilters hasAudio segments
  end.

Definition encodeArgs : list string :=
  [ "-c:v"; "libx264"; "-preset"; "fast"; "-crf"; "18" ].

Definition buildTrimCommand (inputPath outputPath : string)
    (trimRegions : list TrimRegion.t) (totalDurationMs : Q) (hasAudio : bool)
    : list string :=
  match trimRegions with
  | [] => [ "ffmpeg"; "-y"; "-i"; inputPath; "-c"; "copy"; outputPath ]
  | _ =>
      let segments := computeKeptSegments trimRegions totalDurationMs in
      match segments with
      | [seg] =>
          List.app
            [ "ffmpeg"; "-y";
              "-ss"; toFixed3 (Segment.startSec seg);
              "-to"; toFixed3 (Segment.endSec seg);
              "-i"; inputPath ]
            (List.app encodeArgs
               (List.app (if hasAudio then [ "-c:a"; "aac" ] else [ "-an" ])
                         [ outputPath ]))
      | _ =>
          let filter := generateTrimFilter trimRegions totalDurationMs hasAudio in
          let args :=
            [ "ffmpeg"; "-y"; "-i"; inputPath; "-filter_complex"; filter;
              "-map"; "[outv]" ] in
          let args := if hasAudio then List.app args [ "-map"; "[outa]" ] else args in
          let args := List.app args encodeArgs in
          let args := if hasAudio then List.app args [ "-c:a"; "aac" ] else args in
          List.app args [ outputPath ]
      end
  end.

(** ** pipeline.ts *)

Definition intermediateOutput (finalPath : string) (stepIndex : Z) : string :=
  let ext := js_substringFrom finalPath (lastIndexOf "."%char finalPath) in
  let base := js_substring finalPath 0 (lastIndexOf "."%char finalPath) in
  base ++ "_step" ++ intToString stepIndex ++ ext.

Definition nonEmpty {A : Type} (l : list A) : bool :=
  match l with [] => false | _ => true end.

Definition needsTrim (config : ProcessingConfig.t) : bool :=
  match ProcessingConfig.trim config with
  | Some regions => nonEmpty regions
  | None => false
  end.

Definition needsZoom (config : ProcessingConfig.t) : bool :=
  match ProcessingConfig.zoom config with
  | Some z => nonEmpty (ZoomConfig.regions z)
  | None => false
  end.

Definition needsCrop (config : ProcessingConfig.t) : bool :=
  match ProcessingConfig.crop config with
  | Some c =>
      negb (Qeq_bool (CropRegion.x c) 0) || negb (Qeq_bool (CropRegion.y c) 0)
      || negb (Qeq_bool (CropRegion.width c) 1)
      || negb (Qeq_bool (CropRegion.height c) 1)
  | None => false
  end.

Definition needsBackground (config : ProcessingConfig.t) : bool :=
  match ProcessingConfig.background config with
  | Some b => Qgtb (orDefault (BackgroundConfig.padding b) 0%Q) 0
  | None => false
  end.

Definition needsAnnotations (config : ProcessingConfig.t) : bool :=
  match ProcessingConfig.annotations config with
  | Some anns => nonEmpty anns
  | None => false
  end.

(** The object literals pushed onto [steps] in step 1 and at the end. *)
Definition seekTrimStep (currentInput : string) (seg : Segment.t)
    (outputPath : string) : PipelineStep.t :=
  PipelineStep.mk "Trim video"
    (List.app
       [ "ffmpeg"; "-y";
         "-ss"; toFixed3 (Segment.startSec seg);
         "-to"; toFixed3 (Segment.endSec seg);
         "-i"; currentInput ]
       (List.app encodeArgs [ "-c:a"; "aac"; outputPath ])).

Definition concatTrimStep (currentInput filter trimOutput : string)
    : PipelineStep.t :=
  PipelineStep.mk "Trim video (remove cut sections)"
    (List.app
       [ "ffmpeg"; "-y"; "-i"; currentInput;
         "-filter_complex"; filter;
         "-map"; "[outv]"; "-map"; "[outa]" ]
       (List.app encodeArgs [ "-c:a"; "aac"; trimOutput ])).

Definition copyStep (currentInput outputPath : string) : PipelineStep.t :=
  PipelineStep.mk "Copy (no effects)"
    [ "ffmpeg"; "-y"; "-i"; currentInput; "-c"; "copy"; outputPath ].

(** The planner state after step 1: either the function has returned, or
    [steps], [currentInput] and [stepIndex] go on to steps 2 and 3. *)
Inductive TrimOutcome : Set :=
  | Returned (steps : list PipelineStep.t)
  | Continue (steps : list PipelineStep.t) (currentInput : string)
             (stepIndex : Z).

Definition isOnlyStep (config : ProcessingConfig.t) : bool :=
  negb (needsZoom config) && negb (needsCrop config)
  && negb (needsBackground config) && negb (needsAnnotations config).

Definition trimPass (config : ProcessingConfig.t) : TrimOutcome :=
  let video := ProcessingConfig.video config in
  let currentInput := ProcessingConfig.inputPath config in
  let stepIndex := 0%Z in
  if needsTrim config then
    let trim := orDefault (ProcessingConfig.trim config) [] in
    let segments := computeKeptSegments trim (VideoInfo.durationMs video) in
    let multi := (1 <? List.length segments)%nat in
    let trimOutput :=
      if multi then intermediateOutput (ProcessingConfig.outputPath config) stepIndex
      else ProcessingConfig.outputPath config in
    let stepIndex := if multi then (stepIndex + 1)%Z else stepIndex in
    match segments with
    | [seg] =>
        if isOnlyStep config then
          Returned
            [ seekTrimStep currentInput seg (ProcessingConfig.outputPath config) ]
        else Continue [] currentInput stepIndex
    | _ =>
        if multi then
          let filter := generateTrimFilter trim (VideoInfo.durationMs video) true in
          Continue [ concatTrimStep currentInput filter trimOutput ]
            trimOutput stepIndex
        else Continue [] currentInput stepIndex
    end
  else Continue [] currentInput stepIndex.

(** Step 2: the parts of the single [-vf] chain, in the order crop, zoom,
    annotations. *)
Definition vfPartsOf (config : ProcessingConfig.t) : list string :=
  let video := ProcessingConfig.video config in
  let cropPart :=
    match ProcessingConfig.crop config with
    | Some c =>
        if needsCrop config
        then [ generateCropFilter c (VideoInfo.width video) (VideoInfo.height video) ]
        else []
    | None => []
    end in
  let zoomPart :=
    match ProcessingConfig.zoom config with
    | Some z =>
        if needsZoom config
        then [ generateZoomFilter (ZoomConfig.regions z) (VideoInfo.width video)
                 (VideoInfo.height video) (VideoInfo.fps video) ]
        else []
    | None => []
    end in
  let annPart :=
    match ProcessingConfig.annotations config with
    | Some anns =>
        if needsAnnotations config then
          let annFilter :=
            generateAnnotationFilters anns
              (orDefault (ProcessingConfig.outputWidth config) (VideoInfo.width video))
              (orDefault (ProcessingConfig.outputHeight config) (VideoInfo.height video)) in
          if truthy annFilter then [ annFilter ] else []
        else []
    | None => []
    end in
  List.app cropPart (List.app zoomPart annPart).

Definition vfStep (description currentInput : string) (vfParts : list string)
    (output : string) : PipelineStep.t :=
  PipelineStep.mk description
    (List.app [ "ffmpeg"; "-y"; "-i"; currentInput; "-vf"; join "," vfParts ]
       (List.app encodeArgs [ "-c:a"; "copy"; output ])).

(** The two last branches of step 3: no background pass. *)
Definition withoutBackground (config : ProcessingConfig.t)
    (steps : list PipelineStep.t) (currentInput : string)
    (vfParts : list string) : list PipelineStep.t :=
  let outputPath := ProcessingConfig.outputPath config in
  if nonEmpty vfParts then
    List.app steps
      [ vfStep "Apply video effects (zoom/crop/annotations)" currentInput
          vfParts outputPath ]
  else if (List.length steps =? 0)%nat then
    List.app steps [ copyStep currentInput outputPath ]
  else steps.

(** The first branch of step 3: the background pass, after a flush of the
    [-vf] chain to an intermediate file when there is one. *)
Definition withBackground (config : ProcessingConfig.t)
    (bg : BackgroundConfig.t) (steps : list PipelineStep.t)
    (currentInput : string) (stepIndex : Z) (vfParts : list string)
    : list PipelineStep.t :=
  let video := ProcessingConfig.video config in
  let outputPath := ProcessingConfig.outputPath config in
  let bgFilter :=
    generateBackgroundFilter bg
      (orDefault (ProcessingConfig.outputWidth config) (VideoInfo.width video))
      (orDefault (ProcessingConfig.outputHeight config) (VideoInfo.height video)) in
  let vfOutput := intermediateOutput outputPath stepIndex in
  let steps :=
    if nonEmpty vfParts
    then List.app steps
           [ vfStep "Apply zoom/crop/annotations" currentInput vfParts vfOutput ]
    else steps in
  let currentInput := if nonEmpty vfParts then vfOutput else currentInput in
  let bgArgs := [ "ffmpeg"; "-y"; "-i"; currentInput ] in
  let bgArgs :=
    match BackgroundConfig.type bg, BackgroundConfig.imagePath bg with
    | bg_image, Some imagePath =>
        if truthy imagePath then List.app bgArgs [ "-i"; imagePath ] else bgArgs
    | _, _ => bgArgs
    end in
  let bgArgs :=
    List.app bgArgs
      (List.app [ "-filter_complex"; bgFilter ]
         (List.app encodeArgs [ "-c:a"; "copy"; outputPath ])) in
  List.app steps [ PipelineStep.mk "Apply background/wallpaper" bgArgs ].

(** Steps 2 and 3, from the state step 1 left. *)
Definition effectsPass (config : ProcessingConfig.t)
    (steps : list PipelineStep.t) (currentInput : string) (stepIndex : Z)
    : list PipelineStep.t :=
  let vfParts := vfPartsOf config in
  match ProcessingConfig.background config with
  | Some bg =>
      if needsBackground config
      then withBackground config bg steps currentInput stepIndex vfParts
      else withoutBackground config steps currentInput vfParts
  | None => withoutBackground config steps currentInput vfParts
  end.

Definition buildPipeline (config : ProcessingConfig.t) : list PipelineStep.t :=
  match trimPass config with
  | Returned steps => steps
  | Continue steps currentInput stepIndex =>
      effectsPass config steps currentInput stepIndex
  end.

(** [pipelineToShellCommands] of [pipeline.ts].  A string is a sequence of
    code units below 256; of the characters [\s] matches, those are the
    code units 9 to 13, 32 and 160. *)
Definition doubleQuote : ascii := ascii_of_nat 34.

Definition isWhitespace (c : ascii) : bool :=
  existsb (Ascii.eqb c)
    [ ascii_of_nat 9; ascii_of_nat 10; ascii_of_nat 11; ascii_of_nat 12;
      ascii_of_nat 13; " "%char; ascii_of_nat 160 ].

(** The character class of the test that decides on quoting: whitespace,
    semicolon, bar, ampersand, single quote, double quote and backslash. *)
Definition needsQuoting (c : ascii) : bool :=
  isWhitespace c
  || existsb (Ascii.eqb c)
       [ ";"%char; "|"%char; "&"%char; "'"%char; doubleQuote;
         ascii_of_nat 92 ].

(** [regexp.test(s)] for a one-character class. *)
Fixpoint testClass (class : ascii -> bool) (s : string) : bool :=
  match s with
  | EmptyString => false
  | String c s' => class c || testClass class s'
  end.

Definition quoteArg (arg : string) : string :=
  if testClass needsQuoting arg
  then "'" ++ replaceAll "'"%char ("'" ++ backslash ++ "''") arg ++ "'"
  else arg.

Definition pipelineToShellCommands (steps : list PipelineStep.t)
    : list string :=
  map (fun step => join " " (map quoteArg (PipelineStep.args step))) steps.

(** ** The standalone command builders *)

(** [buildCropCommand] of [crop.ts]; [scaleToOriginal] defaults to [false]. *)
Definition buildCropCommand (inputPath outputPath : string)
    (crop : CropRegion.t) (inputWidth inputHeight : Q)
    (scaleToOriginal : bool) : list string :=
  let filter :=
    if scaleToOriginal
    then generateCropAndScaleFilter crop inputWidth inputHeight
           inputWidth inputHeight
    else generateCropFilter crop inputWidth inputHeight in
  List.app [ "ffmpeg"; "-y"; "-i"; inputPath; "-vf"; filter ]
    (List.app encodeArgs [ "-c:a"; "copy"; outputPath ]).

(** [buildBackgroundCommand] of [background.ts]. *)
Definition buildBackgroundCommand (inputPath outputPath : string)
    (config : BackgroundConfig.t) (videoWidth videoHeight : Q) : list string :=
  let filter := generateBackgroundFilter config videoWidth videoHeight in
  let args := [ "ffmpeg"; "-y" ] in
  let args := List.app args [ "-i"; inputPath ] in
  let args :=
    match BackgroundConfig.type config, BackgroundConfig.imagePath config with
    | bg_image, Some imagePath =>
        if truthy imagePath then List.app args [ "-i"; imagePath ] else args
    | _, _ => args
    end in
  let args := List.app args [ "-filter_complex"; filter ] in
  let args := List.app args encodeArgs in
  let args := List.app args [ "-c:a"; "copy" ] in
  List.app args [ outputPath ].

(** [buildAnnotationCommand] of [annotations.ts]. *)
Definition buildAnnotationCommand (inputPath outputPath : string)
    (annotations : list AnnotationRegion.t) (canvasWidth canvasHeight : Q)
    : list string :=
  let filter := generateAnnotationFilters annotations canvasWidth canvasHeight in
  if truthy filter then
    List.app [ "ffmpeg"; "-y"; "-i"; inputPath; "-vf"; filter ]
      (List.app encodeArgs [ "-c:a"; "copy"; outputPath ])
  else [ "ffmpeg"; "-y"; "-i"; inputPath; "-c"; "copy"; outputPath ].

(** ** Statements about keyframes *)

(** How a keyframe would blend the crop side between 1 and [1 / scale]:
    linearly in the side, or linearly in the magnification. *)
Definition linearSide (scale s : Q) : Q := 1 + (1 / scale - 1) * s.
Definition reciprocalSide (scale s : Q) : Q := 1 / (1 + (scale - 1) * s).

(** A keyframe blends from the full frame to the crop box of the region
    dominant at its tick by the strength found there, the crop side
    following [side]; without a dominant region it is the full frame. *)
Definition blendWith (side : Q -> Q -> Q) (regions : list ZoomRegion.t)
    (kf : ZoomKeyframe.t) : Prop :=
  let found := findDominantRegion regions (ZoomKeyframe.timeMs kf) in
  let s := snd found in
  match fst found with
  | Some r =>
      let scale := ZOOM_DEPTH_SCALES (ZoomRegion.depth r) in
      let c := clampFocus (ZoomRegion.focus r) (ZoomRegion.depth r) in
      ZoomKeyframe.cropWidth kf == side scale s
      /\ ZoomKeyframe.cropHeight kf == side scale s
      /\ ZoomKeyframe.centerX kf == (1 # 2) + (ZoomFocus.cx c - (1 # 2)) * s
      /\ ZoomKeyframe.centerY kf == (1 # 2) + (ZoomFocus.cy c - (1 # 2)) * s
  | None =>
      s == 0
      /\ ZoomKeyframe.cropWidth kf == 1 /\ ZoomKeyframe.cropHeight kf == 1
      /\ ZoomKeyframe.centerX kf == 1 # 2 /\ ZoomKeyframe.centerY kf == 1 # 2
  end.

(** Fuel that lets the sampling loop run to its end when the interval is
    positive: one more than the number of ticks. *)
Definition sampleFuel (durationMs sampleIntervalMs : Q) : nat :=
  S (Z.to_nat (Z.max 0 (Qfloor (durationMs / sampleIntervalMs)) + 1)).

(** A region half-way through its lead-in at 160 ms. *)
Definition leadInRegion : ZoomRegion.t :=
  ZoomRegion.mk "z1" 320 1000 D2 (ZoomFocus.mk (1 # 2) (1 # 2)).

(** What the loop of [findDominantRegion] maintains: no region and strength
    0, or a region of the list with its own, positive, strength. *)
Definition dominantInv (regions : list ZoomRegion.t) (t : Q)
    (acc : option ZoomRegion.t * Q) : Prop :=
  match fst acc with
  | Some r => In r regions /\ snd acc = computeRegionStrength r t /\ 0 < snd acc
  | None => snd acc = 0
  end.

(** Ascending order of keys. *)
Definition keyLe {A : Type} (key : A -> Q) (a b : A) : Prop := key a <= key b.

(** ** Statements about the trim planner *)

(** The cursor walk as the specification words it, in seconds: for each cut
    emit [[cursor, cutStart)] when the cursor precedes the cut's start, then
    move the cursor to the cut's end; after the last cut emit the trailing
    segment when the cursor precedes the total. *)
Fixpoint cursorWalk (cursor : Q) (cuts : list TrimRegion.t) (totalSec : Q)
    : list Segment.t :=
  match cuts with
  | [] => if Qltb cursor totalSec then [Segment.mk cursor totalSec] else []
  | cut :: rest =>
      let cutStart := TrimRegion.startMs cut / 1000 in
      List.app
        (if Qltb cursor cutStart then [Segment.mk cursor cutStart] else [])
        (cursorWalk (TrimRegion.endMs cut / 1000) rest totalSec)
  end.

(** Two segments with numerically equal ends. *)
Definition segEq (a b : Segment.t) : Prop :=
  Segment.startSec a == Segment.startSec b
  /\ Segment.endSec a == Segment.endSec b.

(** The regions whose start is numerically [k]. *)
Definition startsAt (k : Q) (r : TrimRegion.t) : bool :=
  Qeq_bool (TrimRegion.startMs r) k.

(** The length of a cut and the sum of the lengths of a list of cuts, each
    counted once per occurrence. *)
Definition cutLength (r : TrimRegion.t) : Q :=
  TrimRegion.endMs r - TrimRegion.startMs r.

Fixpoint totalCut (rs : list TrimRegion.t) : Q :=
  match rs with
  | [] => 0
  | r :: rest => cutLength r + totalCut rest
  end.

(** ** Statements about plans *)

(** The argument that follows the first occurrence of [flag]. *)
Fixpoint argAfter (flag : string) (args : list string) : option string :=
  match args with
  | [] => None
  | a :: rest => if String.eqb a flag then hd_error rest else argAfter flag rest
  end.

(** The file a step reads (its first [-i]) and the file it writes (its last
    argument). *)
Definition stepInput (s : PipelineStep.t) : option string :=
  argAfter "-i" (PipelineStep.args s).

Definition stepOutput (s : PipelineStep.t) : string :=
  last (PipelineStep.args s) "".

(** Every step of the list reads [path]. *)
Definition allRead (path : string) (steps : list PipelineStep.t) : Prop :=
  Forall (fun s => stepInput s = Some path) steps.

(** The first step reads [previous] and each later step reads what the step
    before it wrote. *)
Fixpoint chained (previous : string) (steps : list PipelineStep.t) : Prop :=
  match steps with
  | [] => True
  | s :: rest => stepInput s = Some previous /\ chained (stepOutput s) rest
  end.


(** The effects of a configuration being disabled, field by field. *)
Definition noTrim (config : ProcessingConfig.t) : Prop :=
  match ProcessingConfig.trim config with
  | Some regions => regions = []
  | None => True
  end.

Definition noZoom (config : ProcessingConfig.t) : Prop :=
  match ProcessingConfig.zoom config with
  | Some z => ZoomConfig.regions z = []
  | None => True
  end.

Definition identityCrop (config : ProcessingConfig.t) : Prop :=
  match ProcessingConfig.crop config with
  | Some c =>
      CropRegion.x c == 0 /\ CropRegion.y c == 0
      /\ CropRegion.width c == 1 /\ CropRegion.height c == 1
  | None => True
  end.

Definition noPaddedBackground (config : ProcessingConfig.t) : Prop :=
  match ProcessingConfig.background config with
  | Some b => ~ 0 < orDefault (BackgroundConfig.padding b) 0%Q
  | None => True
  end.

Definition noAnnotations (config : ProcessingConfig.t) : Prop :=
  match ProcessingConfig.annotations config with
  | Some anns => anns = []
  | None => True
  end.

Definition noOtherEffect (config : ProcessingConfig.t) : Prop :=
  noZoom config /\ identityCrop config /\ noPaddedBackground config
  /\ noAnnotations config.

(** The same configuration without its [trim] field. *)
Definition dropTrim (config : ProcessingConfig.t) : ProcessingConfig.t :=
  ProcessingConfig.mk
    (ProcessingConfig.inputPath config) (ProcessingConfig.outputPath config)
    (ProcessingConfig.video config) (ProcessingConfig.zoom config)
    (ProcessingConfig.crop config) None
    (ProcessingConfig.background config) (ProcessingConfig.annotations config)
    (ProcessingConfig.outputWidth config) (ProcessingConfig.outputHeight config)
    (ProcessingConfig.outputFps config).

(** Every instant of the clip lies in some cut region. *)
Definition covers (rs : list TrimRegion.t) (durationMs : Q) : Prop :=
  forall t : Q, 0 <= t < durationMs ->
    exists r, In r rs
      /\ TrimRegion.startMs r <= t < TrimRegion.endMs r.

(** The cuts, in the order given, leave no gap after [cursorMs]: each starts
    no later than the cursor, which then moves to its end, and the last
    cursor reaches the duration. *)
Fixpoint cutsChain (cursorMs : Q) (cuts : list TrimRegion.t) (durationMs : Q)
    : Prop :=
  match cuts with
  | [] => durationMs <= cursorMs
  | r :: rest =>
      TrimRegion.startMs r <= cursorMs
      /\ cutsChain (TrimRegion.endMs r) rest durationMs
  end.

(** ** Example inputs *)

Definition clip60s : VideoInfo.t := VideoInfo.mk 1920 1080 60000 30.
Definition clip20s : VideoInfo.t := VideoInfo.mk 1920 1080 20000 30.

Definition browserChromeCrop : CropRegion.t :=
  CropRegion.mk 0 (5 # 100) 1 (95 # 100).

Definition paddedBlur : BackgroundConfig.t :=
  BackgroundConfig.mk bg_blur None None None (Some 20) (Some 10) (Some 12).


Definition cut5to10 : TrimRegion.t := TrimRegion.mk "t1" 5000 10000.
Definition cut20to30 : TrimRegion.t := TrimRegion.mk "t2" 20000 30000.

(** A cut over the whole clip and a second one nested inside it. *)
Definition nestedCuts : list TrimRegion.t :=
  [ TrimRegion.mk "t1" 0 30000; TrimRegion.mk "t2" 10000 15000 ].

Definition plainConfig (video : VideoInfo.t) : ProcessingConfig.t :=
  ProcessingConfig.mk "input.mp4" "output.mp4" video
    None None None None None None None None.

Definition withTrim (trim : list TrimRegion.t) (c : ProcessingConfig.t)
    : ProcessingConfig.t :=
  ProcessingConfig.mk
    (ProcessingConfig.inputPath c) (ProcessingConfig.outputPath c)
    (ProcessingConfig.video c) (ProcessingConfig.zoom c)
    (ProcessingConfig.crop c) (Some trim)
    (ProcessingConfig.background c) (ProcessingConfig.annotations c)
    (ProcessingConfig.outputWidth c) (ProcessingConfig.outputHeight c)
    (ProcessingConfig.outputFps c).

(** Two cuts, a crop and a padded background: three passes. *)
Definition threePassConfig : ProcessingConfig.t :=
  ProcessingConfig.mk "input.mp4" "output.mp4" clip60s
    None (Some browserChromeCrop) (Some [cut5to10; cut20to30])
    (Some paddedBlur) None None None None.

(** The README's animated-zoom region: the search bar, 1 s to 3 s. *)
Definition searchBarRegion : ZoomRegion.t :=
  ZoomRegion.mk "z1" 1000 3000 D3 (ZoomFocus.mk (1 # 2) (6 # 100)).

(** A cut of the first five seconds: one segment is kept. *)
Definition cutHead : TrimRegion.t := TrimRegion.mk "t0" 0 5000.

(** A cut over the whole of [clip20s]. *)
Definition cutAll : TrimRegion.t := TrimRegion.mk "t1" 0 20000.

(** The host conversion used to evaluate the examples.  They print only
    integers below 1e21 and three-decimal times, for which the host is never
    consulted; it answers with the empty string. *)
Definition integerHost : Q -> string := fun _ => "".

(** ** Further statements *)

(** The time of the [n]-th tick, as the loop computes it: by repeated
    addition of the interval. *)
Fixpoint tickAt (sampleIntervalMs : Q) (n : nat) : Q :=
  match n with
  | O => 0
  | S k => tickAt sampleIntervalMs k + sampleIntervalMs
  end.

(** The instant [t] (in milliseconds) lies in a cut region, and in a kept
    segment (whose ends are in seconds). *)
Definition inCut (t : Q) (r : TrimRegion.t) : Prop :=
  TrimRegion.startMs r <= t < TrimRegion.endMs r.

Definition inSegment (t : Q) (seg : Segment.t) : Prop :=
  Segment.startSec seg <= t / 1000 < Segment.endSec seg.

(** One kept segment ends no later than the next begins. *)
Definition segBefore (a b : Segment.t) : Prop :=
  Segment.endSec a <= Segment.startSec b.

(** The total length, in seconds, of a list of segments. *)
Fixpoint totalKept (segs : list Segment.t) : Q :=
  match segs with
  | [] => 0
  | seg :: rest => (Segment.endSec seg - Segment.startSec seg) + totalKept rest
  end.

(** The cuts, in the order given, are well formed, follow one another
    without overlap from [cursorMs] on, and end within the duration. *)
Fixpoint cutsSeparated (cursorMs : Q) (cuts : list TrimRegion.t)
    (durationMs : Q) : Prop :=
  match cuts with
  | [] => cursorMs <= durationMs
  | r :: rest =>
      cursorMs <= TrimRegion.startMs r
      /\ TrimRegion.startMs r <= TrimRegion.endMs r
      /\ cutsSeparated (TrimRegion.endMs r) rest durationMs
  end.

(** More than one segment is kept by the trim regions of a configuration:
    the case in which step 1 writes an intermediate file. *)
Definition multiKept (config : ProcessingConfig.t) : bool :=
  needsTrim config
  && (1 <? List.length
             (computeKeptSegments
                (orDefault (ProcessingConfig.trim config) [])
                (VideoInfo.durationMs (ProcessingConfig.video config))))%nat.

(** The last step of a plan. *)
Definition lastStep (plan : list PipelineStep.t) : PipelineStep.t :=
  last plan (PipelineStep.mk "" []).

(** The characters of a string. *)
Definition hasChar (c : ascii) (s : string) : Prop :=
  In c (list_ascii_of_string s).

(** An annotation that draws nothing: a text annotation without text. *)
Definition drawsNothing (ann : AnnotationRegion.t) : Prop :=
  AnnotationRegion.type ann = text_ann
  /\ (AnnotationRegion.text ann = None \/ AnnotationRegion.text ann = Some "").

(** ** A reader of shell command lines *)

(** The characters a POSIX shell acts on when they stand unquoted, beyond
    the quote, the backslash and the space that separate and quote words. *)
Definition shellActive (c : ascii) : bool :=
  existsb (Ascii.eqb c)
    [ ascii_of_nat 9; ascii_of_nat 10; doubleQuote; "|"%char; "&"%char;
      ";"%char; "<"%char; ">"%char; "("%char; ")"%char; "$"%char; "`"%char;
      "*"%char; "?"%char; "["%char; "]"%char; "#"%char; "~"%char;
      "{"%char; "}"%char; "!"%char ].

Inductive ShellMode : Set := Bare | InQuotes | Escaped.

Definition pushChar (word : option string) (c : ascii) : option string :=
  Some (orDefault word "" ++ String c EmptyString).

(** The words a shell reads from a line made of plain characters, single
    quotes, backslash escapes and separating spaces; [None] when the line
    holds an unquoted active character or ends inside a quote or an escape.
    [word] is the word being read, if any. *)
Fixpoint shellWordsFrom (line : string) (mode : ShellMode)
    (word : option string) : option (list string) :=
  match line with
  | EmptyString =>
      match mode with
      | Bare => Some (match word with Some w => [w] | None => [] end)
      | _ => None
      end
  | String c rest =>
      match mode with
      | InQuotes =>
          if Ascii.eqb c "'"%char then shellWordsFrom rest Bare word
          else shellWordsFrom rest InQuotes (pushChar word c)
      | Escaped =>
          if Ascii.eqb c (ascii_of_nat 10) then None
          else shellWordsFrom rest Bare (pushChar word c)
      | Bare =>
          if Ascii.eqb c "'"%char
          then shellWordsFrom rest InQuotes (Some (orDefault word ""))
          else if Ascii.eqb c (ascii_of_nat 92)
          then shellWordsFrom rest Escaped (Some (orDefault word ""))
          else if Ascii.eqb c " "%char then
            match word with
            | Some w => option_map (cons w) (shellWordsFrom rest Bare None)
            | None => shellWordsFrom rest Bare None
            end
          else if shellActive c then None
          else shellWordsFrom rest Bare (pushChar word c)
      end
  end.

Definition shellWords (line : string) : option (list string) :=
  shellWordsFrom line Bare None.

(** An argument the quoting handles: not empty, and either quoted by the
    source or free of the characters a shell acts on. *)
Definition shellSafe (arg : string) : Prop :=
  arg <> ""
  /\ (testClass needsQuoting arg = true \/ testClass shellActive arg = false).

(** No two entries of the list have numerically equal keys. *)
Definition distinctKeys {A : Type} (key : A -> Q) (l : list A) : Prop :=
  ForallOrdPairs (fun a b => ~ key a == key b) l.

(** The same configuration with other values in the fields
    [zoom.transitionMs], [zoom.smoothing], [video.fps] and [outputFps]. *)
Definition withTuning (transitionMs smoothing : option Q) (fps : Q)
    (outputFps : option Q) (c : ProcessingConfig.t) : ProcessingConfig.t :=
  ProcessingConfig.mk
    (ProcessingConfig.inputPath c) (ProcessingConfig.outputPath c)
    (VideoInfo.mk
       (VideoInfo.width (ProcessingConfig.video c))
       (VideoInfo.height (ProcessingConfig.video c))
       (VideoInfo.durationMs (ProcessingConfig.video c)) fps)
    (match ProcessingConfig.zoom c with
     | Some z => Some (ZoomConfig.mk (ZoomConfig.regions z) transitionMs smoothing)
     | None => None
     end)
    (ProcessingConfig.crop c) (ProcessingConfig.trim c)
    (ProcessingConfig.background c) (ProcessingConfig.annotations c)
    (ProcessingConfig.outputWidth c) (ProcessingConfig.outputHeight c)
    outputFps.

(** Further example inputs: configurations with a single effect. *)
Definition backgroundOnlyConfig : ProcessingConfig.t :=
  ProcessingConfig.mk "input.mp4" "output.mp4" clip60s
    None None None (Some paddedBlur) None None None None.

Definition cropOnlyConfig : ProcessingConfig.t :=
  ProcessingConfig.mk "input.mp4" "output.mp4" clip60s
    None (Some browserChromeCrop) None None None None None None.

Definition helloText : AnnotationRegion.t :=
  AnnotationRegion.mk "a1" 0 3000 text_ann (Some "Hello") 50 10 (Some 48)
    (Some "#ffffff") None None None None None.

Definition emptyText : AnnotationRegion.t :=
  AnnotationRegion.mk "a2" 0 3000 text_ann (Some "") 50 10 None None None
    None None None None.

Definition annotationsOnlyConfig : ProcessingConfig.t :=
  ProcessingConfig.mk "input.mp4" "output.mp4" clip60s
    None None None None (Some [helloText]) None None None.

(** ** Statements about the background pass *)









(** [clamp] of [zoom.ts] on a value that may be NaN, written [None]: for
    it the source returns the middle of the bounds, [(min + max) / 2], and
    any other value it clamps as [clamp] does.  The bounds are numbers at
    every call in the source. *)
Definition clampNumber (v : option Q) (lo hi : Q) : Q :=
  match v with
  | None => (lo + hi) / 2
  | Some x => clamp x lo hi
  end.

(** A time in milliseconds that is a whole number of seconds. *)
Definition wholeSeconds (ms : Q) : Prop :=
  exists n : Z, ms == inject_Z (1000 * n).

(** * Properties *)

(** ** Comparison and rounding primitives *)

Lemma Qltb_lt (a b : Q) : Qltb a b = true <-> a < b.
Proof.
  unfold Qltb. rewrite negb_true_iff.
  destruct (Qle_bool b a) eqn:E.
  - apply Qle_bool_iff in E. split; [discriminate | intro H].
    exfalso. apply (Qlt_irrefl a). apply Qlt_le_trans with b; assumption.
  - split; [intros _ | reflexivity].
    apply Qnot_le_lt. intro H. apply Qle_bool_iff in H. congruence.
Qed.

Lemma Qltb_ge (a b : Q) : Qltb a b = false <-> b <= a.
Proof.
  unfold Qltb. rewrite negb_false_iff. apply Qle_bool_iff.
Qed.

Lemma Qle_bool_gt (a b : Q) : Qle_bool a b = false <-> b < a.
Proof.
  rewrite <- Qltb_lt. unfold Qltb. now rewrite negb_true_iff.
Qed.

Lemma Math_min_l (a b : Q) : a <= b -> Math_min a b = a.
Proof.
  intro H. unfold Math_min. apply Qle_bool_iff in H. now rewrite H.
Qed.

Lemma Math_min_r (a b : Q) : b < a -> Math_min a b = b.
Proof.
  intro H. unfold Math_min. apply Qle_bool_gt in H. now rewrite H.
Qed.

Lemma Math_max_r (a b : Q) : a <= b -> Math_max a b = b.
Proof.
  intro H. unfold Math_max. apply Qle_bool_iff in H. now rewrite H.
Qed.

(** Division by the transition length, as a product lra can read. *)
Lemma div_transition (x : Q) : x / TRANSITION_MS == x * (1 # 320).
Proof. unfold TRANSITION_MS, Qdiv. reflexivity. Qed.

(** ** zoom.ts: the strength envelope *)

Lemma smoothStep_saturated (x : Q) : 1 <= x -> smoothStep x = 1.
Proof.
  intro H. unfold smoothStep.
  rewrite (Math_min_l 1 x H), (Math_max_r 0 1) by lra. reflexivity.
Qed.

(** C1.  The strength of a zoom region is 0 at every time outside
    [[startMs - 320, endMs + 320]] and is exactly 1, the very value and not
    one near it, at every time inside [[startMs, endMs]]; neither part needs
    [startMs < endMs]. *)
Theorem computeRegionStrength_envelope (r : ZoomRegion.t) (t : Q) :
  (t < ZoomRegion.startMs r - 320 \/ ZoomRegion.endMs r + 320 < t ->
     computeRegionStrength r t = 0)
  /\ (ZoomRegion.startMs r <= t <= ZoomRegion.endMs r ->
       computeRegionStrength r t = 1).
Proof.
  unfold computeRegionStrength. split.
  - intros [H | H].
    + assert (E : Qltb t (ZoomRegion.startMs r - TRANSITION_MS) = true)
        by (apply Qltb_lt; exact H).
      rewrite E. reflexivity.
    + assert (E : Qgtb t (ZoomRegion.endMs r + TRANSITION_MS) = true)
        by (apply Qltb_lt; exact H).
      rewrite E, orb_true_r. reflexivity.
  - intros [Hs He].
    assert (E1 : Qltb t (ZoomRegion.startMs r - TRANSITION_MS) = false)
      by (apply Qltb_ge; unfold TRANSITION_MS; lra).
    assert (E2 : Qgtb t (ZoomRegion.endMs r + TRANSITION_MS) = false)
      by (apply Qltb_ge; unfold TRANSITION_MS; lra).
    rewrite E1, E2. cbn [orb].
    rewrite !smoothStep_saturated;
      [reflexivity | |]; rewrite div_transition; unfold TRANSITION_MS; lra.
Qed.

(** ** zoom.ts: the dominant region and the keyframes *)

Lemma dominantStep_inv (regions : list ZoomRegion.t) (t : Q)
    (acc : option ZoomRegion.t * Q) (r : ZoomRegion.t) :
  In r regions -> 0 <= snd acc ->
  dominantInv regions t acc ->
  dominantInv regions t (dominantStep t acc r) /\ 0 <= snd (dominantStep t acc r).
Proof.
  intros Hin Hpos Hinv. unfold dominantStep.
  destruct (Qgtb (computeRegionStrength r t) (snd acc)) eqn:E.
  - apply Qltb_lt in E. unfold dominantInv. cbn [fst snd].
    repeat split; try assumption; try reflexivity; lra.
  - split; assumption.
Qed.

Lemma fold_dominant_inv (regions : list ZoomRegion.t) (t : Q) :
  forall (l : list ZoomRegion.t) (acc : option ZoomRegion.t * Q),
    incl l regions -> 0 <= snd acc -> dominantInv regions t acc ->
    dominantInv regions t (fold_left (dominantStep t) l acc).
Proof.
  induction l as [| r l IH]; intros acc Hincl Hpos Hinv; cbn [fold_left].
  - exact Hinv.
  - destruct (dominantStep_inv regions t acc r) as [Hinv' Hpos'];
      [apply Hincl; left; reflexivity | assumption | assumption |].
    apply IH; [| assumption | assumption].
    intros a Ha. apply Hincl. right. exact Ha.
Qed.

Lemma findDominantRegion_inv (regions : list ZoomRegion.t) (t : Q) :
  dominantInv regions t (findDominantRegion regions t).
Proof.
  unfold findDominantRegion. apply fold_dominant_inv.
  - apply incl_refl.
  - cbn. lra.
  - reflexivity.
Qed.

Lemma keyframeAt_timeMs (regions : list ZoomRegion.t) (t : Q) :
  ZoomKeyframe.timeMs (keyframeAt regions t) = t.
Proof.
  unfold keyframeAt. destruct (findDominantRegion regions t) as [[r |] s].
  - destruct (Qgtb s 0); reflexivity.
  - reflexivity.
Qed.

Lemma keyframeAt_blend (regions : list ZoomRegion.t) (t : Q) :
  blendWith reciprocalSide regions (keyframeAt regions t).
Proof.
  unfold blendWith. rewrite keyframeAt_timeMs.
  pose proof (findDominantRegion_inv regions t) as Hinv.
  unfold keyframeAt, dominantInv in *.
  destruct (findDominantRegion regions t) as [[r |] s]; cbn [fst snd] in *.
  - destruct Hinv as (_ & _ & Hpos).
    apply Qltb_lt in Hpos. unfold Qgtb. rewrite Hpos.
    cbn [ZoomKeyframe.cropWidth ZoomKeyframe.cropHeight ZoomKeyframe.centerX
         ZoomKeyframe.centerY].
    unfold reciprocalSide. repeat split; reflexivity.
  - subst s. cbn. repeat split; reflexivity.
Qed.

Section SampleLoop.
Variables (regions : list ZoomRegion.t) (durationMs sampleIntervalMs : Q).

Lemma sampleLoop_Forall (P : ZoomKeyframe.t -> Prop) :
  (forall t, P (keyframeAt regions t)) ->
  forall fuel t acc kfs,
    Forall P acc ->
    sampleLoop fuel regions durationMs sampleIntervalMs t acc = Some kfs ->
    Forall P kfs.
Proof.
  intros HP. induction fuel as [| fuel IH]; intros t acc kfs Hacc H; cbn in H.
  - discriminate.
  - destruct (Qle_bool t durationMs).
    + apply IH in H; [exact H |].
      apply Forall_app. split; [exact Hacc | constructor; [apply HP | constructor]].
    + injection H as <-. exact Hacc.
Qed.

Lemma sampleLoop_more_fuel :
  forall fuel t acc kfs,
    sampleLoop fuel regions durationMs sampleIntervalMs t acc = Some kfs ->
    forall fuel', (fuel <= fuel')%nat ->
      sampleLoop fuel' regions durationMs sampleIntervalMs t acc = Some kfs.
Proof.
  induction fuel as [| fuel IH]; intros t acc kfs H fuel' Hle; cbn in H.
  - discriminate.
  - destruct fuel' as [| fuel']; [lia |]. cbn.
    destruct (Qle_bool t durationMs).
    + apply IH with (fuel' := fuel') in H; [exact H | lia].
    + exact H.
Qed.

Lemma sampleLoop_deterministic (f1 f2 : nat) (t : Q)
    (acc k1 k2 : list ZoomKeyframe.t) :
  sampleLoop f1 regions durationMs sampleIntervalMs t acc = Some k1 ->
  sampleLoop f2 regions durationMs sampleIntervalMs t acc = Some k2 ->
  k1 = k2.
Proof.
  intros H1 H2.
  apply sampleLoop_more_fuel with (fuel' := Nat.max f1 f2) in H1; [| lia].
  apply sampleLoop_more_fuel with (fuel' := Nat.max f1 f2) in H2; [| lia].
  congruence.
Qed.

Hypothesis interval_pos : 0 < sampleIntervalMs.

Lemma sampleLoop_terminates :
  forall (n : nat) (t : Q) (acc : list ZoomKeyframe.t),
    durationMs - t < inject_Z (Z.of_nat n) * sampleIntervalMs ->
    exists kfs,
      sampleLoop (S n) regions durationMs sampleIntervalMs t acc = Some kfs.
Proof.
  induction n as [| n IH]; intros t acc Hlt.
  - cbn. destruct (Qle_bool t durationMs) eqn:E.
    + apply Qle_bool_iff in E.
      change (inject_Z (Z.of_nat 0)) with 0 in Hlt. lra.
    + eexists. reflexivity.
  - cbn [sampleLoop]. destruct (Qle_bool t durationMs) eqn:E.
    + apply IH. rewrite Nat2Z.inj_succ in Hlt. unfold Z.succ in Hlt.
      rewrite inject_Z_plus in Hlt. change (inject_Z 1) with 1 in Hlt. lra.
    + eexists. reflexivity.
Qed.

Lemma sampleFuel_enough :
  durationMs - 0
  < inject_Z (Z.of_nat (Nat.pred (sampleFuel durationMs sampleIntervalMs)))
    * sampleIntervalMs.
Proof.
  unfold sampleFuel. cbn [Nat.pred].
  set (q := durationMs / sampleIntervalMs).
  rewrite Z2Nat.id by lia.
  assert (Hq : q < inject_Z (Z.max 0 (Qfloor q) + 1)).
  { apply Qlt_le_trans with (inject_Z (Qfloor q + 1)); [apply Qlt_floor |].
    rewrite <- Zle_Qle. lia. }
  assert (Hd : durationMs == q * sampleIntervalMs).
  { unfold q. rewrite Qmult_comm, Qmult_div_r; [reflexivity | lra]. }
  rewrite Hd. unfold Qminus. rewrite Qplus_0_r.
  apply Qmult_lt_compat_r; assumption.
Qed.

End SampleLoop.

(** ** Printing integers *)

Lemma isInteger_inject_Z (n : Z) : isInteger (inject_Z n) = true.
Proof.
  unfold isInteger. rewrite Qfloor_Z. apply Qeq_bool_iff. reflexivity.
Qed.

(** A rounded value below 1e21 is printed as its decimal numeral; only
    from 1e21 up is the host asked. *)
Lemma intToString_decimal (n : Z) :
  intToString n
  = if (Z.abs n <? 10 ^ 21)%Z then decimal n else hostToString (inject_Z n).
Proof.
  unfold intToString, numberToString.
  rewrite isInteger_inject_Z, Qfloor_Z. cbn [andb].
  change (Qabs (inject_Z n)) with (inject_Z (Z.abs n)).
  destruct (Z.abs n <? 10 ^ 21)%Z eqn:E.
  - apply Z.ltb_lt in E.
    assert (Hlt : Qltb (inject_Z (Z.abs n)) (inject_Z (10 ^ 21)) = true)
      by (apply Qltb_lt; rewrite <- Zlt_Qlt; exact E).
    rewrite Hlt. reflexivity.
  - apply Z.ltb_ge in E.
    assert (Hge : Qltb (inject_Z (Z.abs n)) (inject_Z (10 ^ 21)) = false)
      by (apply Qltb_ge; rewrite <- Zle_Qle; exact E).
    rewrite Hge. reflexivity.
Qed.

(** ** crop.ts: even dimensions *)

Lemma evenDown_even (w : Z) : Z.even (evenDown w) = true.
Proof.
  unfold evenDown. pose proof (Z.quot_rem' w 2) as Hq.
  destruct (Z.rem w 2 =? 0)%Z eqn:E.
  - apply Z.eqb_eq in E. apply Z.even_spec. exists (Z.quot w 2). lia.
  - apply Z.eqb_neq in E. pose proof (Z.rem_bound_abs w 2) as Hb.
    apply Z.even_spec.
    destruct (Z.eq_dec (Z.rem w 2) 1) as [E1 | E1].
    + exists (Z.quot w 2). lia.
    + exists (Z.quot w 2 - 1)%Z. lia.
Qed.

Lemma evenDown_near (w : Z) : (w - 1 <= evenDown w <= w)%Z.
Proof. unfold evenDown. destruct (Z.rem w 2 =? 0)%Z; lia. Qed.

(** C5.  Whatever the crop rectangle and the input width and height
    (integral or not), the filter is [crop=W:H:X:Y] with [W] and [H] even
    integers, each the rounded pixel size or one below it, printed as decimal
    numerals while below 1e21; the browser-chrome preset on 1920x1080 gives
    [crop=1920:1026:0:54]. *)
Theorem generateCropFilter_even_dimensions :
  (forall (crop : CropRegion.t) (inputWidth inputHeight : Q),
     exists W H X Y : Z,
       generateCropFilter crop inputWidth inputHeight
       = "crop=" ++ intToString W ++ ":" ++ intToString H ++ ":"
           ++ intToString X ++ ":" ++ intToString Y
       /\ Z.even W = true /\ Z.even H = true
       /\ (Math_round (CropRegion.width crop * inputWidth) - 1 <= W
           <= Math_round (CropRegion.width crop * inputWidth))%Z
       /\ (Math_round (CropRegion.height crop * inputHeight) - 1 <= H
           <= Math_round (CropRegion.height crop * inputHeight))%Z
       /\ intToString W
          = (if (Z.abs W <? 10 ^ 21)%Z then decimal W
             else hostToString (inject_Z W))
       /\ intToString H
          = (if (Z.abs H <? 10 ^ 21)%Z then decimal H
             else hostToString (inject_Z H)))
  /\ generateCropFilter (CropRegion.mk 0 (5 # 100) 1 (95 # 100)) 1920 1080
     = "crop=1920:1026:0:54".
Proof.
  split.
  - intros crop inputWidth inputHeight.
    exists (evenDown (Math_round (CropRegion.width crop * inputWidth))),
           (evenDown (Math_round (CropRegion.height crop * inputHeight))),
           (Math_round (CropRegion.x crop * inputWidth)),
           (Math_round (CropRegion.y crop * inputHeight)).
    split; [reflexivity |].
    split; [apply evenDown_even |]. split; [apply evenDown_even |].
    split; [apply evenDown_near |]. split; [apply evenDown_near |].
    split; apply intToString_decimal.
  - vm_compute. reflexivity.
Qed.

(** ** zoom.ts: the static zoom of the search-bar preset *)

(** C6.  For the focus (0.5, 0.06) at depth 3 on 1920x1080 the focus margin
    is [1 / (2 * 1.8)], [cy] is raised to it, and the pixel conversion of the
    clamped focus gives [crop=1067:600:427:0]. *)
Theorem generateStaticZoomFilter_search_bar :
  let focus := ZoomFocus.mk (1 # 2) (6 # 100) in
  ZoomFocus.cx (clampFocus focus D3) == 1 # 2
  /\ ZoomFocus.cy (clampFocus focus D3) == 1 / (2 * (18 # 10))
  /\ Math_round (1920 / ZOOM_DEPTH_SCALES D3) = 1067%Z
  /\ Math_round (1080 / ZOOM_DEPTH_SCALES D3) = 600%Z
  /\ Math_round (ZoomFocus.cx (clampFocus focus D3) * 1920 - 1067 / 2) = 427%Z
  /\ Math_round (ZoomFocus.cy (clampFocus focus D3) * 1080 - 600 / 2) = 0%Z
  /\ generateStaticZoomFilter focus D3 1920 1080
     = "crop=1067:600:427:0,scale=1920:1080:flags=lanczos".
Proof.
  cbv zeta. repeat split; vm_compute; reflexivity.
Qed.

(** ** The stable sort *)

Section Sorting.
Context {A : Type} (key : A -> Q).

(** Insertion puts the element after the entries of strictly smaller key
    and before everything else. *)
Lemma insertBy_split (a : A) (l : list A) :
  exists l1 l2,
    l = (l1 ++ l2)%list /\ insertBy key a l = (l1 ++ a :: l2)%list
    /\ Forall (fun b => key b < key a) l1.
Proof.
  induction l as [| b l IH]; cbn [insertBy].
  - exists [], []. repeat split. constructor.
  - destruct (Qle_bool (key a) (key b)) eqn:E.
    + exists [], (b :: l). repeat split. constructor.
    + destruct IH as (l1 & l2 & Hl & Hins & Hall).
      exists (b :: l1), l2. rewrite Hl at 1. rewrite Hins.
      repeat split. constructor; [apply Qle_bool_gt; exact E | exact Hall].
Qed.

Lemma insertBy_perm (a : A) (l : list A) : Permutation (insertBy key a l) (a :: l).
Proof.
  destruct (insertBy_split a l) as (l1 & l2 & Hl & Hins & _).
  rewrite Hins, Hl. symmetry. apply Permutation_middle.
Qed.

Lemma insertBy_sorted (a : A) (l : list A) :
  StronglySorted (keyLe key) l -> StronglySorted (keyLe key) (insertBy key a l).
Proof.
  intro Hs. induction Hs as [| b l Hs IH Hall]; cbn [insertBy].
  - constructor; constructor.
  - destruct (Qle_bool (key a) (key b)) eqn:E.
    + apply Qle_bool_iff in E. constructor.
      * constructor; assumption.
      * constructor; [exact E |].
        apply Forall_impl with (P := keyLe key b); [| exact Hall].
        intros c Hc. unfold keyLe in *. lra.
    + apply Qle_bool_gt in E. constructor; [exact IH |].
      apply Forall_forall. intros c Hc.
      apply (Permutation_in _ (insertBy_perm a l)) in Hc.
      destruct Hc as [<- | Hc].
      * unfold keyLe. lra.
      * rewrite Forall_forall in Hall. apply Hall. exact Hc.
Qed.

Lemma sortBy_perm (l : list A) : Permutation (sortBy key l) l.
Proof.
  induction l as [| a l IH]; cbn.
  - constructor.
  - fold (sortBy key l). rewrite insertBy_perm. constructor. exact IH.
Qed.

Lemma sortBy_sorted (l : list A) : StronglySorted (keyLe key) (sortBy key l).
Proof.
  induction l as [| a l IH]; cbn.
  - constructor.
  - apply insertBy_sorted. exact IH.
Qed.

(** Stability: entries of numerically equal key keep their order. *)
Lemma sortBy_stable (k : Q) (l : list A) :
  filter (fun a => Qeq_bool (key a) k) (sortBy key l)
  = filter (fun a => Qeq_bool (key a) k) l.
Proof.
  induction l as [| a l IH]; [reflexivity |].
  cbn [sortBy fold_right]. fold (sortBy key l).
  destruct (insertBy_split a (sortBy key l)) as (l1 & l2 & Hl & Hins & Hall).
  rewrite Hins. rewrite Hl in IH. rewrite filter_app in *. cbn [filter].
  destruct (Qeq_bool (key a) k) eqn:E; [| exact IH].
  apply Qeq_bool_iff in E.
  assert (Hnone : filter (fun a => Qeq_bool (key a) k) l1 = []).
  { clear - Hall E. induction Hall as [| b l1 Hb _ IH]; [reflexivity |].
    cbn [filter]. destruct (Qeq_bool (key b) k) eqn:Eb; [| exact IH].
    apply Qeq_bool_iff in Eb. lra. }
  rewrite Hnone in *. cbn [app] in *. f_equal. exact IH.
Qed.

Lemma sortBy_nil_inv (l : list A) : sortBy key l = [] -> l = [].
Proof.
  intro H. pose proof (sortBy_perm l) as Hp. rewrite H in Hp.
  apply Permutation_nil. exact Hp.
Qed.

End Sorting.

(** ** trim.ts: kept segments *)

(** The accumulating loop produces what the walk emits. *)
Lemma keptLoop_walk (totalSec : Q) :
  forall (sorted : list TrimRegion.t) (cursor : Q) (acc : list Segment.t),
    (let st := fold_left keptStep sorted (cursor, acc) in
     if Qltb (fst st) totalSec
     then List.app (snd st) [Segment.mk (fst st) totalSec]
     else snd st)
    = List.app acc (cursorWalk cursor sorted totalSec).
Proof.
  induction sorted as [| cut rest IH]; intros cursor acc; cbn zeta.
  - cbn. destruct (Qltb cursor totalSec); [reflexivity |].
    symmetry. apply app_nil_r.
  - cbn [fold_left cursorWalk]. cbn zeta in IH. unfold keptStep at 2 4 6.
    cbn [fst snd]. rewrite IH.
    destruct (Qltb cursor (TrimRegion.startMs cut / 1000)).
    + rewrite <- app_assoc. reflexivity.
    + reflexivity.
Qed.

Lemma computeKeptSegments_walk (rs : list TrimRegion.t) (d : Q) :
  rs <> [] ->
  computeKeptSegments rs d
  = cursorWalk 0 (sortBy TrimRegion.startMs rs) (d / 1000).
Proof.
  intro Hne. unfold computeKeptSegments.
  destruct rs as [| r rs]; [congruence |].
  exact (keptLoop_walk (d / 1000) (sortBy TrimRegion.startMs (r :: rs)) 0 []).
Qed.

(** C3.  Without cut regions the result is the single segment
    [[0, durationMs / 1000]]; with cut regions (and also without, for a
    positive duration) it is the cursor walk from 0 over the regions sorted by
    [startMs], the sort being a stable reordering into ascending starts; the
    cut 5000..10000 of a 60000 ms clip leaves [{0,5}, {10,60}]. *)
Theorem computeKeptSegments_cursor_walk :
  (forall d : Q, computeKeptSegments [] d = [Segment.mk 0 (d / 1000)])
  /\ (forall (rs : list TrimRegion.t) (d : Q),
        rs <> [] \/ 0 < d ->
        let sorted := sortBy TrimRegion.startMs rs in
        Permutation sorted rs
        /\ StronglySorted
             (fun a b => TrimRegion.startMs a <= TrimRegion.startMs b) sorted
        /\ (forall k, filter (startsAt k) sorted = filter (startsAt k) rs)
        /\ computeKeptSegments rs d = cursorWalk 0 sorted (d / 1000))
  /\ Forall2 segEq
       (computeKeptSegments [TrimRegion.mk "t1" 5000 10000] 60000)
       [Segment.mk 0 5; Segment.mk 10 60].
Proof.
  split; [reflexivity | split].
  - intros rs d H sorted. subst sorted.
    split; [apply sortBy_perm |]. split; [apply sortBy_sorted |].
    split; [intro k; apply (sortBy_stable TrimRegion.startMs) |].
    destruct rs as [| r rs].
    + destruct H as [H | H]; [congruence |].
      cbn. assert (E : Qltb 0 (d / 1000) = true).
      { apply Qltb_lt. unfold Qdiv. change (/ 1000) with (1 # 1000). lra. }
      rewrite E. reflexivity.
    + apply computeKeptSegments_walk. discriminate.
  - repeat constructor.
Qed.

(** ** trim.ts: effective duration *)

Lemma fold_cutLength (rs : list TrimRegion.t) :
  forall a : Q,
    fold_left
      (fun sum r => sum + (TrimRegion.endMs r - TrimRegion.startMs r)) rs a
    == a + totalCut rs.
Proof.
  induction rs as [| r rs IH]; intro a; cbn [fold_left totalCut].
  - lra.
  - rewrite IH. unfold cutLength. lra.
Qed.

Lemma totalCut_insert (l1 l2 : list TrimRegion.t) (r : TrimRegion.t) :
  totalCut (l1 ++ r :: l2) == totalCut (l1 ++ l2) + cutLength r.
Proof.
  induction l1 as [| a l1 IH]; cbn [app totalCut].
  - lra.
  - rewrite IH. lra.
Qed.

Lemma computeEffectiveDuration_total (rs : list TrimRegion.t) (d : Q) :
  computeEffectiveDuration rs d == d - totalCut rs.
Proof.
  unfold computeEffectiveDuration. rewrite fold_cutLength. lra.
Qed.

(** C7.  The effective duration is the total duration less the sum of the
    lengths of all cut regions, each occurrence counted, so a region given
    twice is subtracted twice; adding a region anywhere in the list lowers
    the result by exactly that region's length, overlapping or not, hence
    never raises it when [startMs <= endMs]. *)
Theorem computeEffectiveDuration_additive :
  (forall (rs : list TrimRegion.t) (d : Q),
     computeEffectiveDuration rs d == d - totalCut rs)
  /\ (forall (l1 l2 : list TrimRegion.t) (r : TrimRegion.t) (d : Q),
        computeEffectiveDuration (l1 ++ r :: l2) d
        == computeEffectiveDuration (l1 ++ l2) d - cutLength r)
  /\ (forall (l1 l2 : list TrimRegion.t) (r : TrimRegion.t) (d : Q),
        TrimRegion.startMs r <= TrimRegion.endMs r ->
        computeEffectiveDuration (l1 ++ r :: l2) d
        <= computeEffectiveDuration (l1 ++ l2) d)
  /\ (forall (r : TrimRegion.t) (d : Q),
        computeEffectiveDuration [r; r] d == d - 2 * cutLength r)
  /\ computeEffectiveDuration [TrimRegion.mk "t1" 5000 10000] 60000 == 55000.
Proof.
  split; [exact computeEffectiveDuration_total |].
  split; [| split; [| split]].
  - intros l1 l2 r d. rewrite !computeEffectiveDuration_total, totalCut_insert. lra.
  - intros l1 l2 r d H. rewrite !computeEffectiveDuration_total, totalCut_insert.
    unfold cutLength. lra.
  - intros r d. rewrite computeEffectiveDuration_total. cbn [totalCut]. lra.
  - reflexivity.
Qed.

(** ** pipeline.ts: the needs flags *)

Lemma needsTrim_false (config : ProcessingConfig.t) :
  noTrim config -> needsTrim config = false.
Proof.
  unfold noTrim, needsTrim.
  destruct (ProcessingConfig.trim config) as [rs |]; [| reflexivity].
  intros ->. reflexivity.
Qed.

Lemma needsZoom_false (config : ProcessingConfig.t) :
  noZoom config -> needsZoom config = false.
Proof.
  unfold noZoom, needsZoom.
  destruct (ProcessingConfig.zoom config) as [z |]; [| reflexivity].
  intros ->. reflexivity.
Qed.

Lemma needsCrop_false (config : ProcessingConfig.t) :
  identityCrop config -> needsCrop config = false.
Proof.
  unfold identityCrop, needsCrop.
  destruct (ProcessingConfig.crop config) as [c |]; [| reflexivity].
  intros (Hx & Hy & Hw & Hh).
  apply Qeq_bool_iff in Hx, Hy, Hw, Hh. rewrite Hx, Hy, Hw, Hh. reflexivity.
Qed.

Lemma needsBackground_spec (config : ProcessingConfig.t) :
  needsBackground config = true
  <-> exists b, ProcessingConfig.background config = Some b
        /\ 0 < orDefault (BackgroundConfig.padding b) 0%Q.
Proof.
  unfold needsBackground.
  destruct (ProcessingConfig.background config) as [b |].
  - unfold Qgtb. rewrite Qltb_lt. split.
    + intro H. exists b. split; [reflexivity | exact H].
    + intros (b' & Hb & H). injection Hb as <-. exact H.
  - split; [discriminate | intros (b & Hb & _); discriminate].
Qed.

Lemma needsBackground_false (config : ProcessingConfig.t) :
  noPaddedBackground config -> needsBackground config = false.
Proof.
  intro H. destruct (needsBackground config) eqn:E; [| reflexivity].
  apply needsBackground_spec in E. destruct E as (b & Hb & Hpos).
  unfold noPaddedBackground in H. rewrite Hb in H. contradiction.
Qed.

Lemma needsAnnotations_false (config : ProcessingConfig.t) :
  noAnnotations config -> needsAnnotations config = false.
Proof.
  unfold noAnnotations, needsAnnotations.
  destruct (ProcessingConfig.annotations config) as [anns |]; [| reflexivity].
  intros ->. reflexivity.
Qed.

Lemma isOnlyStep_true (config : ProcessingConfig.t) :
  noOtherEffect config -> isOnlyStep config = true.
Proof.
  intros (Hz & Hc & Hb & Ha). unfold isOnlyStep.
  rewrite (needsZoom_false _ Hz), (needsCrop_false _ Hc),
    (needsBackground_false _ Hb), (needsAnnotations_false _ Ha).
  reflexivity.
Qed.

Lemma vfPartsOf_nil (config : ProcessingConfig.t) :
  noOtherEffect config -> vfPartsOf config = [].
Proof.
  intros (Hz & Hc & _ & Ha). unfold vfPartsOf.
  rewrite (needsZoom_false _ Hz), (needsCrop_false _ Hc),
    (needsAnnotations_false _ Ha).
  destruct (ProcessingConfig.crop config), (ProcessingConfig.zoom config),
    (ProcessingConfig.annotations config); reflexivity.
Qed.

(** With nothing but (possibly) a trim configured, steps 2 and 3 add the
    copy step to an empty plan and nothing to a plan that has a step. *)
Lemma effectsPass_no_effect (config : ProcessingConfig.t)
    (steps : list PipelineStep.t) (currentInput : string) (stepIndex : Z) :
  noOtherEffect config ->
  effectsPass config steps currentInput stepIndex
  = match steps with
    | [] => [ copyStep currentInput (ProcessingConfig.outputPath config) ]
    | _ => steps
    end.
Proof.
  intro H. unfold effectsPass. rewrite (vfPartsOf_nil _ H).
  destruct H as (_ & _ & Hb & _). rewrite (needsBackground_false _ Hb).
  assert (E : withoutBackground config steps currentInput []
              = match steps with
                | [] => [ copyStep currentInput (ProcessingConfig.outputPath config) ]
                | _ => steps
                end).
  { unfold withoutBackground. destruct steps; reflexivity. }
  destruct (ProcessingConfig.background config); exact E.
Qed.

(** A configuration with every flag off is planned as the copy step. *)
Lemma buildPipeline_copy_only (config : ProcessingConfig.t) :
  noTrim config -> noOtherEffect config ->
  buildPipeline config
  = [ copyStep (ProcessingConfig.inputPath config)
        (ProcessingConfig.outputPath config) ].
Proof.
  intros Ht Ho. unfold buildPipeline, trimPass.
  rewrite (needsTrim_false _ Ht).
  rewrite (effectsPass_no_effect _ _ _ _ Ho). reflexivity.
Qed.

(** C8.  With no trim regions, no zoom regions, a crop absent or numerically
    the identity rectangle, a background absent or without positive padding,
    and no annotations, the plan is the single stream copy from the input
    path to the output path. *)
Theorem buildPipeline_all_disabled (config : ProcessingConfig.t) :
  noTrim config -> noOtherEffect config ->
  buildPipeline config
  = [ PipelineStep.mk "Copy (no effects)"
        [ "ffmpeg"; "-y"; "-i"; ProcessingConfig.inputPath config;
          "-c"; "copy"; ProcessingConfig.outputPath config ] ].
Proof. exact (buildPipeline_copy_only config). Qed.

(** ** pipeline.ts: the trim pass *)

Lemma needsTrim_some (config : ProcessingConfig.t) (rs : list TrimRegion.t) :
  ProcessingConfig.trim config = Some rs -> needsTrim config = nonEmpty rs.
Proof. unfold needsTrim. intros ->. reflexivity. Qed.

(** What steps 2 and 3 append to a plan holding the trim step: steps that
    read, each, the file written just before. *)
Lemma effectsPass_chained (config : ProcessingConfig.t)
    (step : PipelineStep.t) (currentInput : string) (stepIndex : Z) :
  exists rest,
    effectsPass config [step] currentInput stepIndex = step :: rest
    /\ chained currentInput rest.
Proof.
  unfold effectsPass, withBackground, withoutBackground.
  destruct (ProcessingConfig.background config) as [bg |].
  - destruct (needsBackground config).
    + destruct (nonEmpty (vfPartsOf config));
        destruct (BackgroundConfig.type bg);
        destruct (BackgroundConfig.imagePath bg) as [path |];
        try destruct (truthy path);
        eexists; (split; [reflexivity | cbn; auto]).
    + destruct (nonEmpty (vfPartsOf config));
        eexists; (split; [reflexivity | cbn; auto]).
  - destruct (nonEmpty (vfPartsOf config));
      eexists; (split; [reflexivity | cbn; auto]).
Qed.

(** C4, as amended.  For a configuration with trim regions: when exactly
    one segment is kept and no other effect is enabled, the plan is the
    single seek step ([-ss]/[-to]) writing the output path; when more than
    one segment is kept, the plan starts with the concat trim
    ([-filter_complex]) writing the first intermediate path, the step after
    it (if any) reads that path, and every later step reads the file written
    by the step before it. *)
Theorem buildPipeline_trim_plan (config : ProcessingConfig.t)
    (rs : list TrimRegion.t) :
  ProcessingConfig.trim config = Some rs ->
  rs <> [] ->
  let d := VideoInfo.durationMs (ProcessingConfig.video config) in
  let input := ProcessingConfig.inputPath config in
  let output := ProcessingConfig.outputPath config in
  (forall seg, computeKeptSegments rs d = [seg] -> noOtherEffect config ->
     buildPipeline config
     = [ PipelineStep.mk "Trim video"
           [ "ffmpeg"; "-y";
             "-ss"; toFixed3 (Segment.startSec seg);
             "-to"; toFixed3 (Segment.endSec seg);
             "-i"; input;
             "-c:v"; "libx264"; "-preset"; "fast"; "-crf"; "18";
             "-c:a"; "aac"; output ] ])
  /\ ((1 < List.length (computeKeptSegments rs d))%nat ->
      exists rest,
        buildPipeline config
        = PipelineStep.mk "Trim video (remove cut sections)"
            [ "ffmpeg"; "-y"; "-i"; input;
              "-filter_complex"; generateTrimFilter rs d true;
              "-map"; "[outv]"; "-map"; "[outa]";
              "-c:v"; "libx264"; "-preset"; "fast"; "-crf"; "18";
              "-c:a"; "aac"; intermediateOutput output 0 ]
          :: rest
        /\ chained (intermediateOutput output 0) rest).
Proof.
  intros Htrim Hne d input output.
  assert (Hneeds : needsTrim config = true).
  { rewrite (needsTrim_some _ _ Htrim). destruct rs; [congruence | reflexivity]. }
  split.
  - intros seg Hseg Ho. unfold buildPipeline, trimPass.
    rewrite Hneeds, Htrim. cbn [orDefault]. fold d. rewrite Hseg.
    rewrite (isOnlyStep_true _ Ho). reflexivity.
  - intro Hlen. unfold buildPipeline, trimPass.
    rewrite Hneeds, Htrim. cbn [orDefault]. fold d.
    destruct (computeKeptSegments rs d) as [| s1 [| s2 segs]] eqn:E;
      cbn [List.length] in Hlen; try lia.
    cbn [List.length Nat.ltb Nat.leb].
    destruct (effectsPass_chained config
                (concatTrimStep (ProcessingConfig.inputPath config)
                   (generateTrimFilter rs d true)
                   (intermediateOutput (ProcessingConfig.outputPath config) 0))
                (intermediateOutput (ProcessingConfig.outputPath config) 0)
                (0 + 1)%Z) as (rest & Hrest & Hchain).
    exists rest. split; [exact Hrest | exact Hchain].
Qed.

(** ** trim.ts and pipeline.ts: nothing kept *)

Lemma div1000 (x : Q) : x / 1000 == x * (1 # 1000).
Proof. reflexivity. Qed.

(** The walk emits nothing exactly when the cuts leave no gap. *)
Lemma cursorWalk_nil_iff (d : Q) :
  forall (cuts : list TrimRegion.t) (cursor c : Q),
    cursor == c / 1000 ->
    (cursorWalk cursor cuts (d / 1000) = [] <-> cutsChain c cuts d).
Proof.
  induction cuts as [| r rest IH]; intros cursor c Hc;
    cbn [cursorWalk cutsChain]; rewrite div1000 in Hc.
  - destruct (Qltb cursor (d / 1000)) eqn:E.
    + apply Qltb_lt in E. rewrite div1000 in E.
      split; [discriminate | intro H; lra].
    + apply Qltb_ge in E. rewrite div1000 in E.
      split; [intros _; lra | reflexivity].
  - specialize (IH (TrimRegion.endMs r / 1000) (TrimRegion.endMs r)
                  (Qeq_refl _)).
    destruct (Qltb cursor (TrimRegion.startMs r / 1000)) eqn:E.
    + apply Qltb_lt in E. rewrite div1000 in E.
      split; [discriminate | intros [H _]; lra].
    + apply Qltb_ge in E. rewrite div1000 in E. cbn [List.app].
      rewrite IH. split; [intro H; split; [lra | exact H] | intros [_ H]; exact H].
Qed.

Lemma computeKeptSegments_nil_iff (rs : list TrimRegion.t) (d : Q) :
  rs <> [] ->
  (computeKeptSegments rs d = []
   <-> cutsChain 0 (sortBy TrimRegion.startMs rs) d).
Proof.
  intro Hne. rewrite (computeKeptSegments_walk rs d Hne).
  apply cursorWalk_nil_iff. reflexivity.
Qed.

(** Cuts that leave no gap after the cursor contain every instant from the
    cursor to the duration. *)
Lemma cutsChain_covers (d : Q) :
  forall (cuts : list TrimRegion.t) (c : Q),
    cutsChain c cuts d ->
    forall t : Q, c <= t < d ->
      exists r, In r cuts
        /\ TrimRegion.startMs r <= t < TrimRegion.endMs r.
Proof.
  induction cuts as [| r rest IH]; intros c Hchain t Ht; cbn [cutsChain] in Hchain.
  - lra.
  - destruct Hchain as [Hs Hrest].
    destruct (Qlt_le_dec t (TrimRegion.endMs r)) as [Hin | Hout].
    + exists r. split; [left; reflexivity | lra].
    + destruct (IH _ Hrest t) as (r' & Hr' & Hb); [lra |].
      exists r'. split; [right; exact Hr' | exact Hb].
Qed.

Lemma generateTrimFilter_nil (rs : list TrimRegion.t) (d : Q) (hasAudio : bool) :
  computeKeptSegments rs d = [] -> generateTrimFilter rs d hasAudio = "".
Proof. intro H. unfold generateTrimFilter. rewrite H. reflexivity. Qed.

Lemma effectsPass_dropTrim (config : ProcessingConfig.t)
    (steps : list PipelineStep.t) (currentInput : string) (stepIndex : Z) :
  effectsPass (dropTrim config) steps currentInput stepIndex
  = effectsPass config steps currentInput stepIndex.
Proof. destruct config. reflexivity. Qed.

(** When nothing is kept the trim pass leaves the planner state untouched,
    so the plan is that of the configuration without its trim regions. *)
Lemma buildPipeline_nothing_kept (config : ProcessingConfig.t)
    (rs : list TrimRegion.t) :
  ProcessingConfig.trim config = Some rs ->
  computeKeptSegments rs
    (VideoInfo.durationMs (ProcessingConfig.video config)) = [] ->
  buildPipeline config = buildPipeline (dropTrim config).
Proof.
  intros Htrim Hsegs. unfold buildPipeline, trimPass.
  rewrite Htrim. cbn [orDefault]. rewrite Hsegs.
  replace (needsTrim (dropTrim config)) with false by reflexivity.
  rewrite effectsPass_dropTrim.
  destruct (needsTrim config); reflexivity.
Qed.

(** C9, as amended.  Cut regions leave nothing kept exactly when, taken in
    start order, each starts no later than the end of the one before it (the
    first no later than 0) and the last ends at or after the duration; such
    cuts cover the clip, and a single region with [startMs <= 0] and
    [endMs >= durationMs] is one instance.  Then [computeKeptSegments]
    returns the empty list, [generateTrimFilter] the empty string, the plan
    is the plan of the same configuration without trim regions, and with
    every other effect disabled it is the single stream copy of the
    untrimmed input. *)
Theorem buildPipeline_trim_covering :
  (forall (rs : list TrimRegion.t) (d : Q),
     rs <> [] ->
     (computeKeptSegments rs d = []
      <-> cutsChain 0 (sortBy TrimRegion.startMs rs) d))
  /\ (forall (rs : list TrimRegion.t) (d : Q),
        cutsChain 0 (sortBy TrimRegion.startMs rs) d -> covers rs d)
  /\ (forall (r : TrimRegion.t) (d : Q),
        TrimRegion.startMs r <= 0 -> d <= TrimRegion.endMs r ->
        computeKeptSegments [r] d = [])
  /\ (forall (rs : list TrimRegion.t) (d : Q) (hasAudio : bool),
        computeKeptSegments rs d = [] -> generateTrimFilter rs d hasAudio = "")
  /\ (forall (config : ProcessingConfig.t) (rs : list TrimRegion.t),
        ProcessingConfig.trim config = Some rs ->
        computeKeptSegments rs
          (VideoInfo.durationMs (ProcessingConfig.video config)) = [] ->
        buildPipeline config = buildPipeline (dropTrim config)
        /\ (noOtherEffect config ->
            buildPipeline config
            = [ PipelineStep.mk "Copy (no effects)"
                  [ "ffmpeg"; "-y"; "-i"; ProcessingConfig.inputPath config;
                    "-c"; "copy"; ProcessingConfig.outputPath config ] ])).
Proof.
  split; [exact computeKeptSegments_nil_iff |].
  split; [| split; [| split]].
  - intros rs d Hchain t Ht.
    destruct (cutsChain_covers d _ 0 Hchain t Ht) as (r & Hr & Hb).
    exists r. split; [| exact Hb].
    apply (Permutation_in _ (sortBy_perm TrimRegion.startMs rs)). exact Hr.
  - intros r d Hs He. apply computeKeptSegments_nil_iff; [discriminate |].
    cbn. split; assumption.
  - exact generateTrimFilter_nil.
  - intros config rs Htrim Hsegs.
    split; [exact (buildPipeline_nothing_kept config rs Htrim Hsegs) |].
    intro Ho. rewrite (buildPipeline_nothing_kept config rs Htrim Hsegs).
    assert (Ho' : noOtherEffect (dropTrim config)) by (destruct config; exact Ho).
    exact (buildPipeline_copy_only (dropTrim config) I Ho').
Qed.

(** ** pipeline.ts: the background pass *)














(** * Further properties *)

(** ** zoom.ts: clamping and easing *)

Lemma Math_min_le_l (a b : Q) : Math_min a b <= a.
Proof.
  unfold Math_min. destruct (Qle_bool a b) eqn:E; [lra |].
  apply Qle_bool_gt in E. lra.
Qed.

Lemma Math_min_le_r (a b : Q) : Math_min a b <= b.
Proof.
  unfold Math_min. destruct (Qle_bool a b) eqn:E; [| lra].
  apply Qle_bool_iff in E. exact E.
Qed.

Lemma Math_min_glb (a b c : Q) : c <= a -> c <= b -> c <= Math_min a b.
Proof. unfold Math_min. destruct (Qle_bool a b); auto. Qed.

Lemma Math_max_ge_l (a b : Q) : a <= Math_max a b.
Proof.
  unfold Math_max. destruct (Qle_bool a b) eqn:E; [| lra].
  apply Qle_bool_iff in E. exact E.
Qed.

Lemma Math_max_ge_r (a b : Q) : b <= Math_max a b.
Proof.
  unfold Math_max. destruct (Qle_bool a b) eqn:E; [lra |].
  apply Qle_bool_gt in E. lra.
Qed.

Lemma Math_max_lub (a b c : Q) : a <= c -> b <= c -> Math_max a b <= c.
Proof. unfold Math_max. destruct (Qle_bool a b); auto. Qed.

Lemma clamp_le_hi (v lo hi : Q) : clamp v lo hi <= hi.
Proof. unfold clamp. apply Math_min_le_l. Qed.

Lemma clamp_ge_lo (v lo hi : Q) : lo <= hi -> lo <= clamp v lo hi.
Proof.
  intro H. unfold clamp. apply Math_min_glb; [exact H | apply Math_max_ge_l].
Qed.

Lemma clamp_inside (v lo hi : Q) : lo <= v <= hi -> clamp v lo hi == v.
Proof.
  intros [Hl Hh]. unfold clamp.
  assert (E1 : Math_max lo v == v).
  { apply Qle_antisym; [apply Math_max_lub; lra | apply Math_max_ge_r]. }
  apply Qle_antisym.
  - rewrite <- E1 at 2. apply Math_min_le_r.
  - apply Math_min_glb; [exact Hh | rewrite E1; lra].
Qed.

(** X1.  With the bounds in order [clamp] returns a value between them,
    also for NaN, for which it returns their middle.  A number is never
    clamped above the upper bound, a number already between the bounds is
    returned unchanged, and with the bounds out of order every number is
    sent to the upper bound. *)
Theorem clamp_bounds (v : option Q) (lo hi : Q) :
  (lo <= hi -> lo <= clampNumber v lo hi <= hi)
  /\ (forall x : Q, v = Some x ->
        clampNumber v lo hi <= hi
        /\ (lo <= x <= hi -> clampNumber v lo hi == x)
        /\ (hi < lo -> clampNumber v lo hi == hi))
  /\ (v = None -> clampNumber v lo hi == (lo + hi) / 2).
Proof.
  split; [| split].
  - intro H. destruct v as [x |]; cbn [clampNumber].
    + split; [apply clamp_ge_lo; exact H | apply clamp_le_hi].
    + unfold Qdiv. change (/ 2) with (1 # 2). lra.
  - intros x ->. cbn [clampNumber].
    split; [apply clamp_le_hi |]. split; [apply clamp_inside |].
    intro H. unfold clamp. apply Qle_antisym; [apply Math_min_le_l |].
    apply Math_min_glb; [lra |]. pose proof (Math_max_ge_l lo x). lra.
  - intros ->. reflexivity.
Qed.

(** The clamped argument of [smoothStep]. *)
Lemma unit_clamp_range (t : Q) : 0 <= Math_max 0 (Math_min 1 t) <= 1.
Proof.
  split; [apply Math_max_ge_l |].
  apply Math_max_lub; [lra | apply Math_min_le_l].
Qed.

Lemma unit_clamp_mono (a b : Q) :
  a <= b -> Math_max 0 (Math_min 1 a) <= Math_max 0 (Math_min 1 b).
Proof.
  intro H. apply Math_max_lub; [apply Math_max_ge_l |].
  apply Qle_trans with (Math_min 1 b); [| apply Math_max_ge_r].
  apply Math_min_glb; [apply Math_min_le_l |].
  pose proof (Math_min_le_r 1 a). lra.
Qed.

Lemma unit_clamp_inside (t : Q) : 0 <= t <= 1 -> Math_max 0 (Math_min 1 t) == t.
Proof.
  intros [H0 H1].
  assert (E : Math_min 1 t == t).
  { apply Qle_antisym; [apply Math_min_le_r | apply Math_min_glb; lra]. }
  apply Qle_antisym.
  - apply Math_max_lub; [exact H0 | rewrite E; lra].
  - rewrite <- E at 1. apply Math_max_ge_r.
Qed.

Lemma cubic_range (c : Q) : 0 <= c <= 1 -> 0 <= c * c * (3 - 2 * c) <= 1.
Proof.
  intros [H0 H1]. split.
  - apply Qmult_le_0_compat; [apply Qmult_le_0_compat; assumption | lra].
  - assert (H : 0 <= (1 - c) * (1 - c) * (1 + 2 * c)).
    { apply Qmult_le_0_compat; [apply Qmult_le_0_compat; lra | lra]. }
    lra.
Qed.

Lemma cubic_mono (a b : Q) :
  0 <= a -> a <= b -> b <= 1 ->
  a * a * (3 - 2 * a) <= b * b * (3 - 2 * b).
Proof.
  intros Ha Hab Hb.
  assert (H1 : 0 <= a * (1 - a)) by (apply Qmult_le_0_compat; lra).
  assert (H2 : 0 <= b * (1 - b)) by (apply Qmult_le_0_compat; lra).
  assert (H3 : 0 <= a * (1 - b)) by (apply Qmult_le_0_compat; lra).
  assert (H4 : 0 <= (b - a) * (3 * (a + b) - 2 * (a * a + a * b + b * b))).
  { apply Qmult_le_0_compat; lra. }
  lra.
Qed.

Lemma cubic_pos (c : Q) : 0 < c -> c <= 1 -> 0 < c * c * (3 - 2 * c).
Proof.
  intros H0 H1.
  apply Qmult_lt_0_compat; [apply Qmult_lt_0_compat; assumption | lra].
Qed.

Lemma smoothStep_range (t : Q) : 0 <= smoothStep t <= 1.
Proof. unfold smoothStep. apply cubic_range, unit_clamp_range. Qed.

Lemma smoothStep_mono (a b : Q) : a <= b -> smoothStep a <= smoothStep b.
Proof.
  intro H. unfold smoothStep.
  pose proof (unit_clamp_range a) as [Ha _].
  pose proof (unit_clamp_range b) as [_ Hb].
  apply cubic_mono; [exact Ha | apply unit_clamp_mono; exact H | exact Hb].
Qed.

Lemma smoothStep_inside (t : Q) :
  0 <= t <= 1 -> smoothStep t == t * t * (3 - 2 * t).
Proof.
  intro H. unfold smoothStep. rewrite (unit_clamp_inside t H). reflexivity.
Qed.

Lemma smoothStep_pos (t : Q) : 0 < t -> 0 < smoothStep t.
Proof.
  intro H. unfold smoothStep.
  pose proof (unit_clamp_range t) as [_ H1].
  apply cubic_pos; [| exact H1].
  apply Qlt_le_trans with (Math_min 1 t); [| apply Math_max_ge_r].
  destruct (Qlt_le_dec t 1) as [Hlt | Hge].
  - rewrite (Math_min_r 1 t Hlt). exact H.
  - rewrite (Math_min_l 1 t Hge). lra.
Qed.

Lemma smoothStep_zero (t : Q) : t <= 0 -> smoothStep t == 0.
Proof.
  intro H. apply Qle_antisym; [| apply smoothStep_range].
  apply Qle_trans with (smoothStep 0); [apply smoothStep_mono; exact H |].
  vm_compute. discriminate.
Qed.

(** X2.  [smoothStep] maps every number into the unit interval: it is 0
    at and below 0, 1 at and above 1, and the cubic [t * t * (3 - 2 * t)]
    in between. *)
Theorem smoothStep_unit (t : Q) :
  0 <= smoothStep t <= 1
  /\ (t <= 0 -> smoothStep t == 0)
  /\ (1 <= t -> smoothStep t == 1)
  /\ (0 <= t <= 1 -> smoothStep t == t * t * (3 - 2 * t)).
Proof.
  split; [apply smoothStep_range |]. split; [apply smoothStep_zero |].
  split; [| apply smoothStep_inside].
  intro H. rewrite (smoothStep_saturated t H). reflexivity.
Qed.

(** ** zoom.ts: the shape of the strength *)

(** X3.  The strength of a region always lies in the unit interval, and it
    is positive exactly at the times strictly inside
    [(startMs - 320, endMs + 320)]. *)
Theorem computeRegionStrength_range (r : ZoomRegion.t) (t : Q) :
  0 <= computeRegionStrength r t <= 1
  /\ (0 < computeRegionStrength r t
      <-> ZoomRegion.startMs r - 320 < t < ZoomRegion.endMs r + 320).
Proof.
  unfold computeRegionStrength.
  destruct (Qltb t (ZoomRegion.startMs r - TRANSITION_MS)) eqn:E1; cbn [orb].
  { apply Qltb_lt in E1. unfold TRANSITION_MS in E1.
    split; [lra | split; [intro H; lra | intros [H _]; lra]]. }
  destruct (Qgtb t (ZoomRegion.endMs r + TRANSITION_MS)) eqn:E2.
  { apply Qltb_lt in E2. unfold TRANSITION_MS in E2.
    split; [lra | split; [intro H; lra | intros [_ H]; lra]]. }
  apply Qltb_ge in E1, E2. unfold TRANSITION_MS in E1, E2.
  set (p := (t - (ZoomRegion.startMs r - TRANSITION_MS)) / TRANSITION_MS).
  set (q := (ZoomRegion.endMs r + TRANSITION_MS - t) / TRANSITION_MS).
  assert (Hp : p == (t - (ZoomRegion.startMs r - 320)) * (1 # 320))
    by (unfold p; rewrite div_transition; reflexivity).
  assert (Hq : q == (ZoomRegion.endMs r + 320 - t) * (1 # 320))
    by (unfold q; rewrite div_transition; reflexivity).
  pose proof (smoothStep_range p) as [Hp0 Hp1].
  pose proof (smoothStep_range q) as [Hq0 Hq1].
  split.
  - split; [apply Math_min_glb; assumption |].
    apply Qle_trans with (smoothStep p); [apply Math_min_le_l | exact Hp1].
  - split.
    + intro Hpos.
      pose proof (Math_min_le_l (smoothStep p) (smoothStep q)) as Hl.
      pose proof (Math_min_le_r (smoothStep p) (smoothStep q)) as Hr.
      split.
      * destruct (Qlt_le_dec 0 p) as [H | H]; [lra |].
        pose proof (smoothStep_zero p H) as Ez. lra.
      * destruct (Qlt_le_dec 0 q) as [H | H]; [lra |].
        pose proof (smoothStep_zero q H) as Ez. lra.
    + intros [Hs He].
      assert (Hpp : 0 < smoothStep p) by (apply smoothStep_pos; lra).
      assert (Hqp : 0 < smoothStep q) by (apply smoothStep_pos; lra).
      unfold Math_min. destruct (Qle_bool (smoothStep p) (smoothStep q)); assumption.
Qed.

(** X4.  During the lead-in of a region, up to its start and not after its
    end, the strength is the cubic ease [p * p * (3 - 2 * p)] of the progress
    [p = (t - (startMs - 320)) / 320]; during the lead-out, from its end on
    and not before its start, it is the same cubic of
    [q = (endMs + 320 - t) / 320]. *)
Theorem computeRegionStrength_ease (r : ZoomRegion.t) (t : Q) :
  (ZoomRegion.startMs r - 320 <= t <= ZoomRegion.startMs r ->
   t <= ZoomRegion.endMs r ->
   let p := (t - (ZoomRegion.startMs r - 320)) / 320 in
   computeRegionStrength r t == p * p * (3 - 2 * p))
  /\ (ZoomRegion.endMs r <= t <= ZoomRegion.endMs r + 320 ->
      ZoomRegion.startMs r <= t ->
      let q := (ZoomRegion.endMs r + 320 - t) / 320 in
      computeRegionStrength r t == q * q * (3 - 2 * q)).
Proof.
  unfold computeRegionStrength.
  change TRANSITION_MS with 320.
  split.
  - intros [H1 H2] H3. cbv zeta.
    set (p := (t - (ZoomRegion.startMs r - 320)) / 320).
    assert (E1 : Qltb t (ZoomRegion.startMs r - 320) = false)
      by (apply Qltb_ge; lra).
    assert (E2 : Qgtb t (ZoomRegion.endMs r + 320) = false)
      by (apply Qltb_ge; lra).
    rewrite E1, E2. cbn [orb].
    assert (Hp : p == (t - (ZoomRegion.startMs r - 320)) * (1 # 320))
      by reflexivity.
    rewrite (smoothStep_saturated ((ZoomRegion.endMs r + 320 - t) / 320)).
    + rewrite <- (smoothStep_inside p) by lra.
      rewrite Math_min_l by apply smoothStep_range. reflexivity.
    + change ((ZoomRegion.endMs r + 320 - t) / 320)
        with ((ZoomRegion.endMs r + 320 - t) * (1 # 320)). lra.
  - intros [H1 H2] H3. cbv zeta.
    set (q := (ZoomRegion.endMs r + 320 - t) / 320).
    assert (E1 : Qltb t (ZoomRegion.startMs r - 320) = false)
      by (apply Qltb_ge; lra).
    assert (E2 : Qgtb t (ZoomRegion.endMs r + 320) = false)
      by (apply Qltb_ge; lra).
    rewrite E1, E2. cbn [orb].
    assert (Hq : q == (ZoomRegion.endMs r + 320 - t) * (1 # 320))
      by reflexivity.
    rewrite (smoothStep_saturated ((t - (ZoomRegion.startMs r - 320)) / 320)).
    + rewrite <- (smoothStep_inside q) by lra.
      apply Qle_antisym.
      * apply Math_min_le_r.
      * apply Math_min_glb; [apply smoothStep_range | lra].
    + change ((t - (ZoomRegion.startMs r - 320)) / 320)
        with ((t - (ZoomRegion.startMs r - 320)) * (1 # 320)). lra.
Qed.

(** ** zoom.ts: the focus margin *)

Lemma scale_above_1 (d : ZoomDepth) : 1 < ZOOM_DEPTH_SCALES d.
Proof. destruct d; reflexivity. Qed.

(** The margin is half the inverse of the scale. *)
Lemma margin_half_inverse (scale : Q) :
  1 / (2 * scale) == / scale * (1 # 2).
Proof.
  unfold Qdiv. rewrite Qinv_mult_distr.
  change (/ 2) with (1 # 2). ring.
Qed.

Lemma inverse_scale_range (d : ZoomDepth) :
  0 < / ZOOM_DEPTH_SCALES d /\ / ZOOM_DEPTH_SCALES d < 1.
Proof. destruct d; split; reflexivity. Qed.

Lemma clampFocus_margins (focus : ZoomFocus.t) (depth : ZoomDepth) :
  let m := 1 / (2 * ZOOM_DEPTH_SCALES depth) in
  (m <= ZoomFocus.cx (clampFocus focus depth) <= 1 - m)
  /\ (m <= ZoomFocus.cy (clampFocus focus depth) <= 1 - m).
Proof.
  intro m. unfold clampFocus. cbn [ZoomFocus.cx ZoomFocus.cy]. fold m.
  assert (Hm : m <= 1 - m).
  { unfold m. rewrite margin_half_inverse.
    pose proof (inverse_scale_range depth) as [_ H]. lra. }
  repeat split;
    first [apply clamp_ge_lo; exact Hm | apply clamp_le_hi].
Qed.

(** X5.  Whatever the focus, at every depth the clamped focus keeps the
    zoom window of width [1 / scale] inside the frame on both axes, and
    clamping a clamped focus again changes nothing. *)
Theorem clampFocus_window (focus : ZoomFocus.t) (depth : ZoomDepth) :
  let half := 1 / (2 * ZOOM_DEPTH_SCALES depth) in
  let c := clampFocus focus depth in
  0 <= ZoomFocus.cx c - half /\ ZoomFocus.cx c + half <= 1
  /\ 0 <= ZoomFocus.cy c - half /\ ZoomFocus.cy c + half <= 1
  /\ ZoomFocus.cx (clampFocus c depth) == ZoomFocus.cx c
  /\ ZoomFocus.cy (clampFocus c depth) == ZoomFocus.cy c.
Proof.
  intros half c.
  destruct (clampFocus_margins focus depth) as [[Hx1 Hx2] [Hy1 Hy2]].
  fold half in Hx1, Hx2, Hy1, Hy2. fold c in Hx1, Hx2, Hy1, Hy2.
  repeat split; try lra.
  - unfold clampFocus at 1. cbn [ZoomFocus.cx]. fold half.
    apply clamp_inside. split; assumption.
  - unfold clampFocus at 1. cbn [ZoomFocus.cy]. fold half.
    apply clamp_inside. split; assumption.
Qed.

(** ** zoom.ts: the dominant region *)

(** What the loop of [findDominantRegion] has established after a prefix
    [seen] of the regions. *)
Lemma fold_dominant_maximum (t : Q) (seen : list ZoomRegion.t) :
  let found := fold_left (dominantStep t) seen (None, 0) in
  (forall r, In r seen -> computeRegionStrength r t <= snd found)
  /\ match fst found with
     | Some b =>
         exists before after,
           seen = (before ++ b :: after)%list
           /\ snd found = computeRegionStrength b t
           /\ 0 < snd found
           /\ forall r, In r before -> computeRegionStrength r t < snd found
     | None => snd found = 0
     end.
Proof.
  induction seen as [| x seen IH] using rev_ind; cbn zeta.
  - cbn. split; [intros r [] | reflexivity].
  - rewrite fold_left_app. cbn [fold_left]. cbn zeta in IH.
    set (acc := fold_left (dominantStep t) seen (None, 0)) in *.
    destruct IH as [Hmax Hbest].
    assert (Hnonneg : 0 <= snd acc).
    { destruct (fst acc);
        [destruct Hbest as (_ & _ & _ & _ & H & _); lra | rewrite Hbest; lra]. }
    unfold dominantStep.
    destruct (Qgtb (computeRegionStrength x t) (snd acc)) eqn:E.
    + apply Qltb_lt in E. cbn [fst snd]. split.
      * intros r Hr. apply in_app_or in Hr. destruct Hr as [Hr | [<- | []]].
        -- specialize (Hmax r Hr). lra.
        -- lra.
      * exists seen, []. repeat split; [lra |].
        intros r Hr. specialize (Hmax r Hr). lra.
    + apply Qltb_ge in E. split.
      * intros r Hr. apply in_app_or in Hr. destruct Hr as [Hr | [<- | []]].
        -- apply Hmax. exact Hr.
        -- exact E.
      * destruct (fst acc) as [b |]; [| exact Hbest].
        destruct Hbest as (before & after & Hseen & Hs & Hpos & Hbefore).
        exists before, (after ++ [x])%list. rewrite Hseen.
        rewrite <- app_assoc. repeat split; assumption.
Qed.

(** X6.  [findDominantRegion] returns the greatest strength found in the
    list; the region returned is the first one that attains it, its strength
    is positive, and no region is returned (strength 0) exactly when no
    region of the list has positive strength. *)
Theorem findDominantRegion_first_maximum (regions : list ZoomRegion.t) (t : Q) :
  let found := findDominantRegion regions t in
  (forall r, In r regions -> computeRegionStrength r t <= snd found)
  /\ match fst found with
     | Some b =>
         exists before after,
           regions = (before ++ b :: after)%list
           /\ snd found = computeRegionStrength b t
           /\ 0 < snd found
           /\ forall r, In r before -> computeRegionStrength r t < snd found
     | None => snd found = 0
     end.
Proof. exact (fold_dominant_maximum t regions). Qed.

(** ** zoom.ts: the sampling loop *)

(** X7.  With a sample interval that is zero or negative and a duration
    that is not negative the sampling loop never ends: no amount of fuel
    yields a result. *)
Theorem sampleZoomKeyframes_never_returns (fuel : nat)
    (regions : list ZoomRegion.t) (durationMs sampleIntervalMs : Q) :
  sampleIntervalMs <= 0 -> 0 <= durationMs ->
  sampleZoomKeyframes fuel regions durationMs sampleIntervalMs = None.
Proof.
  intros Hiv Hd. unfold sampleZoomKeyframes.
  assert (H : forall f t acc, t <= durationMs ->
            sampleLoop f regions durationMs sampleIntervalMs t acc = None).
  { induction f as [| f IH]; intros t acc Ht; cbn [sampleLoop]; [reflexivity |].
    apply Qle_bool_iff in Ht as Hb. rewrite Hb. apply IH. lra. }
  apply H. exact Hd.
Qed.

Lemma tickAt_product (iv : Q) (n : nat) :
  tickAt iv n == inject_Z (Z.of_nat n) * iv.
Proof.
  induction n as [| n IH]; cbn [tickAt].
  - change (inject_Z (Z.of_nat 0)) with 0. ring.
  - rewrite IH, Nat2Z.inj_succ. unfold Z.succ. rewrite inject_Z_plus.
    change (inject_Z 1) with 1. ring.
Qed.

Lemma sampleLoop_ticks (regions : list ZoomRegion.t) (d iv : Q) :
  forall (fuel n : nat) (acc kfs : list ZoomKeyframe.t),
    sampleLoop fuel regions d iv (tickAt iv n) acc = Some kfs ->
    exists m,
      kfs = (acc ++ map (fun k => keyframeAt regions (tickAt iv k)) (seq n m))%list
      /\ (forall k, (n <= k < n + m)%nat -> tickAt iv k <= d)
      /\ d < tickAt iv (n + m).
Proof.
  induction fuel as [| fuel IH]; intros n acc kfs H; cbn [sampleLoop] in H.
  - discriminate.
  - destruct (Qle_bool (tickAt iv n) d) eqn:E.
    + change (tickAt iv n + iv) with (tickAt iv (S n)) in H.
      apply IH in H. destruct H as (m & Hk & Hle & Hgt).
      exists (S m). split; [| split].
      * rewrite Hk, <- app_assoc. reflexivity.
      * intros k Hk'. destruct (Nat.eq_dec k n) as [-> | Hne].
        -- apply Qle_bool_iff. exact E.
        -- apply Hle. lia.
      * replace (n + S m)%nat with (S n + m)%nat by lia. exact Hgt.
    + injection H as <-. exists 0%nat. split; [| split].
      * cbn. symmetry. apply app_nil_r.
      * intros k Hk'. lia.
      * rewrite Nat.add_0_r. apply Qle_bool_gt. exact E.
Qed.

(** The number of multiples of a positive [iv] from 0 up to [d]. *)
Lemma tick_count (d iv : Q) (m : nat) :
  0 < iv ->
  (forall k, (k < m)%nat -> tickAt iv k <= d) ->
  d < tickAt iv m ->
  m = Z.to_nat (Qfloor (d / iv) + 1).
Proof.
  intros Hiv Hle Hgt.
  set (q := d / iv).
  assert (Hd : d == q * iv).
  { unfold q. rewrite Qmult_comm, Qmult_div_r; [reflexivity | lra]. }
  pose proof (Qfloor_le q) as Hfl. pose proof (Qlt_floor q) as Hfu.
  rewrite tickAt_product in Hgt.
  assert (Hqm : q < inject_Z (Z.of_nat m)).
  { apply Qmult_lt_r with iv; [exact Hiv |]. rewrite <- Hd. exact Hgt. }
  assert (Hupper : (Qfloor q < Z.of_nat m)%Z).
  { rewrite Zlt_Qlt. lra. }
  destruct m as [| m].
  - change (Z.of_nat 0) with 0%Z in Hupper. lia.
  - assert (Hlast : tickAt iv m <= d) by (apply Hle; lia).
    rewrite tickAt_product in Hlast.
    assert (Hmq : inject_Z (Z.of_nat m) <= q).
    { apply Qmult_le_r with iv; [exact Hiv |]. rewrite <- Hd. exact Hlast. }
    assert (Hlower : (Z.of_nat m < Qfloor q + 1)%Z).
    { rewrite Zlt_Qlt. lra. }
    lia.
Qed.

Lemma tickAt_mono (iv : Q) (n m : nat) :
  0 < iv -> (n <= m)%nat -> tickAt iv n <= tickAt iv m.
Proof.
  intros Hiv Hnm. induction Hnm as [| m _ IH]; [lra |].
  cbn [tickAt]. lra.
Qed.

(** X8.  With a positive interval the sampler returns one keyframe for
    each tick of its loop, in order: the [k]-th keyframe exists exactly when
    the [k]-th tick (0, then the interval added [k] times) is at most the
    duration, it carries the time of that tick and it is the keyframe
    computed there.  When the duration and the interval are whole numbers of
    milliseconds there are [durationMs / interval + 1] keyframes, rounded
    down, and the [k]-th tick is [k * interval]. *)
Theorem sampleZoomKeyframes_ticks (regions : list ZoomRegion.t)
    (durationMs sampleIntervalMs : Q) :
  0 < sampleIntervalMs ->
  exists kfs,
    sampleZoomKeyframes (sampleFuel durationMs sampleIntervalMs) regions
      durationMs sampleIntervalMs = Some kfs
    /\ (forall k : nat,
          nth_error kfs k
          = if Qle_bool (tickAt sampleIntervalMs k) durationMs
            then Some (keyframeAt regions (tickAt sampleIntervalMs k))
            else None)
    /\ (forall (k : nat) (kf : ZoomKeyframe.t),
          nth_error kfs k = Some kf ->
          ZoomKeyframe.timeMs kf = tickAt sampleIntervalMs k)
    /\ (forall dz iz : Z,
          durationMs == inject_Z dz -> sampleIntervalMs == inject_Z iz ->
          List.length kfs = Z.to_nat (dz / iz + 1)
          /\ forall k : nat,
               tickAt sampleIntervalMs k == inject_Z (Z.of_nat k * iz)).
Proof.
  intro Hiv. unfold sampleZoomKeyframes.
  destruct (sampleLoop_terminates regions durationMs sampleIntervalMs
              (Nat.pred (sampleFuel durationMs sampleIntervalMs)) 0 [])
    as [kfs Hk].
  { apply sampleFuel_enough. exact Hiv. }
  change (S (Nat.pred (sampleFuel durationMs sampleIntervalMs)))
    with (sampleFuel durationMs sampleIntervalMs) in Hk.
  exists kfs. split; [exact Hk |].
  change 0 with (tickAt sampleIntervalMs 0) in Hk at 1.
  apply sampleLoop_ticks in Hk. destruct Hk as (m & Hkfs & Hle & Hgt).
  cbn [app Nat.add] in Hkfs, Hle, Hgt. subst kfs.
  assert (Hnth : forall k : nat,
            nth_error
              (map (fun k => keyframeAt regions (tickAt sampleIntervalMs k))
                 (seq 0 m)) k
            = if Qle_bool (tickAt sampleIntervalMs k) durationMs
              then Some (keyframeAt regions (tickAt sampleIntervalMs k))
              else None).
  { intro k. rewrite nth_error_map.
    destruct (Nat.lt_ge_cases k m) as [Hlt | Hge].
    - assert (Ej : nth_error (seq 0 m) k = Some k).
      { rewrite (nth_error_nth' _ 0%nat) by (rewrite length_seq; exact Hlt).
        rewrite seq_nth by exact Hlt. reflexivity. }
      rewrite Ej. cbn [option_map].
      assert (E : Qle_bool (tickAt sampleIntervalMs k) durationMs = true).
      { apply Qle_bool_iff. apply Hle. lia. }
      rewrite E. reflexivity.
    - assert (Ej : nth_error (seq 0 m) k = None).
      { apply nth_error_None. rewrite length_seq. exact Hge. }
      rewrite Ej. cbn [option_map].
      assert (E : Qle_bool (tickAt sampleIntervalMs k) durationMs = false).
      { destruct (Qle_bool _ durationMs) eqn:E; [| reflexivity].
        apply Qle_bool_iff in E.
        pose proof (tickAt_mono sampleIntervalMs m k Hiv Hge). lra. }
      rewrite E. reflexivity. }
  split; [exact Hnth | split].
  - intros k kf H. rewrite Hnth in H.
    destruct (Qle_bool _ durationMs); [| discriminate].
    injection H as <-. apply keyframeAt_timeMs.
  - intros dz iz Hd Hi. split.
    + rewrite length_map, length_seq.
      rewrite (tick_count durationMs sampleIntervalMs m Hiv);
        [| intros k Hk; apply Hle; lia | exact Hgt].
      assert (Eq : durationMs / sampleIntervalMs == inject_Z dz / inject_Z iz)
        by (rewrite Hd, Hi; reflexivity).
      rewrite (Qfloor_comp _ _ Eq), <- Zdiv_Qdiv. reflexivity.
    + intro k. rewrite tickAt_product, Hi, inject_Z_mult. reflexivity.
Qed.

(** ** zoom.ts: crop windows stay inside the frame *)

Lemma computeRegionStrength_le_1 (r : ZoomRegion.t) (t : Q) :
  computeRegionStrength r t <= 1.
Proof.
  unfold computeRegionStrength.
  destruct (Qltb t _ || Qgtb t _); [lra |].
  eapply Qle_trans; [apply Math_min_le_l | apply smoothStep_range].
Qed.

Lemma scale_at_most_5 (d : ZoomDepth) : ZOOM_DEPTH_SCALES d <= 5.
Proof. destruct d; discriminate. Qed.

(** X9.  Every keyframe carries the time it was asked for and a usable
    crop: the side is the same on both axes, at most 1 and never below 1/5,
    the side of the deepest zoom, and the centre lies in the unit square. *)
Theorem keyframeAt_ranges (regions : list ZoomRegion.t) (t : Q) :
  let kf := keyframeAt regions t in
  let w := ZoomKeyframe.cropWidth kf in
  ZoomKeyframe.timeMs kf = t
  /\ (1 # 5) <= w /\ w <= 1 /\ ZoomKeyframe.cropHeight kf = w
  /\ 0 <= ZoomKeyframe.centerX kf <= 1
  /\ 0 <= ZoomKeyframe.centerY kf <= 1.
Proof.
  cbv zeta. split; [apply keyframeAt_timeMs |]. unfold keyframeAt.
  pose proof (findDominantRegion_inv regions t) as Hinv.
  unfold dominantInv in Hinv.
  destruct (findDominantRegion regions t) as [[r |] s]; cbn [fst snd] in Hinv;
    [| cbn; repeat split; try reflexivity; discriminate].
  destruct Hinv as (_ & Hs & Hpos).
  assert (Hs1 : s <= 1) by (rewrite Hs; apply computeRegionStrength_le_1).
  apply Qltb_lt in Hpos as Hb. unfold Qgtb. rewrite Hb.
  cbn [ZoomKeyframe.cropWidth ZoomKeyframe.cropHeight ZoomKeyframe.centerX
       ZoomKeyframe.centerY].
  set (scale := ZOOM_DEPTH_SCALES (ZoomRegion.depth r)).
  set (k := scale - 1).
  set (z := 1 / (1 + k * s)).
  pose proof (scale_above_1 (ZoomRegion.depth r)) as Hscale. fold scale in Hscale.
  pose proof (scale_at_most_5 (ZoomRegion.depth r)) as Hscale5.
  fold scale in Hscale5.
  assert (Hk : 0 <= k) by (unfold k; lra).
  assert (Hk4 : k <= 4) by (unfold k; lra).
  assert (Hks : 0 <= k * s) by (apply Qmult_le_0_compat; lra).
  assert (Hks4 : k * s <= 4).
  { assert (H : 0 <= k * (1 - s)) by (apply Qmult_le_0_compat; lra).
    assert (E : k * (1 - s) == k - k * s) by ring. lra. }
  assert (Hz : z * (1 + k * s) == 1).
  { unfold z. rewrite Qmult_comm. apply Qmult_div_r. lra. }
  assert (Hzpos : 0 < z).
  { unfold z, Qdiv. rewrite Qmult_1_l. apply Qinv_lt_0_compat. lra. }
  assert (Hzle : z <= 1).
  { assert (H : 0 <= z * (k * s)) by (apply Qmult_le_0_compat; lra).
    assert (E : z * (1 + k * s) == z + z * (k * s)) by ring.
    lra. }
  assert (Hzge : (1 # 5) <= z).
  { assert (H : 0 <= z * (4 - k * s)) by (apply Qmult_le_0_compat; lra).
    assert (E : z * (4 - k * s) == 5 * z - z * (1 + k * s)) by ring.
    lra. }
  destruct (clampFocus_margins (ZoomRegion.focus r) (ZoomRegion.depth r))
    as [[Hx1 Hx2] [Hy1 Hy2]].
  fold scale in Hx1, Hx2, Hy1, Hy2.
  set (c := clampFocus (ZoomRegion.focus r) (ZoomRegion.depth r)) in *.
  assert (Hm : 0 < 1 / (2 * scale)).
  { rewrite margin_half_inverse.
    pose proof (inverse_scale_range (ZoomRegion.depth r)) as [H _].
    fold scale in H. lra. }
  assert (Lx : 0 <= ZoomFocus.cx c * s) by (apply Qmult_le_0_compat; lra).
  assert (Ux : 0 <= (1 - ZoomFocus.cx c) * s) by (apply Qmult_le_0_compat; lra).
  assert (Ly : 0 <= ZoomFocus.cy c * s) by (apply Qmult_le_0_compat; lra).
  assert (Uy : 0 <= (1 - ZoomFocus.cy c) * s) by (apply Qmult_le_0_compat; lra).
  assert (Ex : (ZoomFocus.cx c - (1 # 2)) * s
               == ZoomFocus.cx c * s - (1 # 2) * s) by ring.
  assert (Ex' : (1 - ZoomFocus.cx c) * s == s - ZoomFocus.cx c * s) by ring.
  assert (Ey : (ZoomFocus.cy c - (1 # 2)) * s
               == ZoomFocus.cy c * s - (1 # 2) * s) by ring.
  assert (Ey' : (1 - ZoomFocus.cy c) * s == s - ZoomFocus.cy c * s) by ring.
  repeat split; try assumption; try reflexivity; lra.
Qed.

(** Rounding moves a value by at most one half. *)
Lemma Math_round_upper (x : Q) : inject_Z (Math_round x) <= x + (1 # 2).
Proof. unfold Math_round. apply Qfloor_le. Qed.

Lemma Math_round_lower (x : Q) : x - (1 # 2) < inject_Z (Math_round x).
Proof.
  unfold Math_round. pose proof (Qlt_floor (x + (1 # 2))) as H.
  rewrite inject_Z_plus in H. change (inject_Z 1) with 1 in H. lra.
Qed.

(** The pixel rectangle computed from a clamped focus [c], for a frame side
    of [W] pixels and the inverse scale [i]. *)
Lemma crop_pixels_inside (W : Z) (i m c : Q) :
  (0 <= W)%Z -> 0 < i -> m == i * (1 # 2) -> m <= c <= 1 - m ->
  let cw := Math_round (inject_Z W * i) in
  let cx := Math_round (c * inject_Z W - inject_Z cw * (1 # 2)) in
  (0 <= cw /\ 0 <= cx /\ cx + cw <= W)%Z.
Proof.
  intros HW Hi Hm [Hc1 Hc2]. cbv zeta.
  assert (HWq : 0 <= inject_Z W) by (rewrite Zle_Qle in HW; exact HW).
  set (A := inject_Z W * i).
  set (cw := Math_round A).
  set (cx := Math_round (c * inject_Z W - inject_Z cw * (1 # 2))).
  assert (HA : 0 <= A) by (apply Qmult_le_0_compat; lra).
  pose proof (Math_round_upper A) as Hcu. pose proof (Math_round_lower A) as Hcl.
  fold cw in Hcu, Hcl.
  pose proof (Math_round_upper (c * inject_Z W - inject_Z cw * (1 # 2))) as Hxu.
  pose proof (Math_round_lower (c * inject_Z W - inject_Z cw * (1 # 2))) as Hxl.
  fold cx in Hxu, Hxl.
  assert (HmW : m * inject_Z W == A * (1 # 2)) by (rewrite Hm; unfold A; ring).
  assert (H1 : 0 <= (c - m) * inject_Z W) by (apply Qmult_le_0_compat; lra).
  assert (H2 : 0 <= (1 - m - c) * inject_Z W) by (apply Qmult_le_0_compat; lra).
  assert (E1 : (c - m) * inject_Z W == c * inject_Z W - m * inject_Z W) by ring.
  assert (E2 : (1 - m - c) * inject_Z W
               == inject_Z W - m * inject_Z W - c * inject_Z W) by ring.
  assert (Gcw : -1 < inject_Z cw) by lra.
  assert (Gcx : -1 < inject_Z cx) by lra.
  assert (Gsum : inject_Z (cx + cw) < inject_Z (W + 1)).
  { rewrite !inject_Z_plus. change (inject_Z 1) with 1. lra. }
  change (-1) with (inject_Z (-1)) in Gcw, Gcx.
  rewrite <- Zlt_Qlt in Gcw, Gcx, Gsum. lia.
Qed.

(** X10.  On a frame of integral, non-negative width and height the static
    zoom filter is [crop=w:h:x:y,scale=...] for integers with
    [0 <= x], [x + w <= width], [0 <= y] and [y + h <= height]: the crop
    rectangle never leaves the frame, whatever the focus and the depth. *)
Theorem generateStaticZoomFilter_inside (focus : ZoomFocus.t)
    (depth : ZoomDepth) (width height : Z) :
  (0 <= width)%Z -> (0 <= height)%Z ->
  exists w h x y : Z,
    generateStaticZoomFilter focus depth (inject_Z width) (inject_Z height)
    = "crop=" ++ intToString w ++ ":" ++ intToString h ++ ":"
        ++ intToString x ++ ":" ++ intToString y
        ++ ",scale=" ++ intToString width ++ ":" ++ intToString height
        ++ ":flags=lanczos"
    /\ (0 <= w /\ 0 <= x /\ x + w <= width)%Z
    /\ (0 <= h /\ 0 <= y /\ y + h <= height)%Z.
Proof.
  intros HW HH. unfold generateStaticZoomFilter.
  do 4 eexists. split; [reflexivity |].
  destruct (clampFocus_margins focus depth) as [Hx Hy].
  pose proof (inverse_scale_range depth) as [Hi _].
  pose proof (margin_half_inverse (ZOOM_DEPTH_SCALES depth)) as Hm.
  split.
  - exact (crop_pixels_inside width _ _ _ HW Hi Hm Hx).
  - exact (crop_pixels_inside height _ _ _ HH Hi Hm Hy).
Qed.

(** ** trim.ts: what the kept segments are *)

Lemma cursorWalk_nonempty (T : Q) :
  forall (cuts : list TrimRegion.t) (c : Q) (seg : Segment.t),
    In seg (cursorWalk c cuts T) -> Segment.startSec seg < Segment.endSec seg.
Proof.
  induction cuts as [| r rest IH]; intros c seg Hin; cbn [cursorWalk] in Hin.
  - destruct (Qltb c T) eqn:E; [| destruct Hin].
    destruct Hin as [<- | []]. apply Qltb_lt. exact E.
  - apply in_app_or in Hin. destruct Hin as [Hin | Hin].
    + destruct (Qltb c (TrimRegion.startMs r / 1000)) eqn:E; [| destruct Hin].
      destruct Hin as [<- | []]. apply Qltb_lt. exact E.
    + exact (IH _ _ Hin).
Qed.

(** No kept segment starts before a bound that the cursor and every later
    cut end respect. *)
Lemma cursorWalk_lower_bound (T B : Q) :
  forall (cuts : list TrimRegion.t) (c : Q),
    B <= c ->
    (forall r, In r cuts -> B <= TrimRegion.endMs r / 1000) ->
    forall seg, In seg (cursorWalk c cuts T) -> B <= Segment.startSec seg.
Proof.
  induction cuts as [| r rest IH]; intros c Hc Hends seg Hin;
    cbn [cursorWalk] in Hin.
  - destruct (Qltb c T); [| destruct Hin]. destruct Hin as [<- | []]. exact Hc.
  - apply in_app_or in Hin. destruct Hin as [Hin | Hin].
    + destruct (Qltb c (TrimRegion.startMs r / 1000)); [| destruct Hin].
      destruct Hin as [<- | []]. exact Hc.
    + apply (IH (TrimRegion.endMs r / 1000)); [| | exact Hin].
      * apply Hends. left. reflexivity.
      * intros r' Hr'. apply Hends. right. exact Hr'.
Qed.

Lemma cursorWalk_ordered (T : Q) :
  forall (cuts : list TrimRegion.t) (c : Q),
    StronglySorted (keyLe TrimRegion.startMs) cuts ->
    (forall r, In r cuts -> TrimRegion.startMs r <= TrimRegion.endMs r) ->
    StronglySorted segBefore (cursorWalk c cuts T).
Proof.
  induction cuts as [| r rest IH]; intros c Hsorted Hwf; cbn [cursorWalk].
  - destruct (Qltb c T); repeat constructor.
  - apply StronglySorted_inv in Hsorted. destruct Hsorted as [Hrest Hall].
    assert (IH' : StronglySorted segBefore
                    (cursorWalk (TrimRegion.endMs r / 1000) rest T)).
    { apply IH; [exact Hrest |]. intros r' Hr'. apply Hwf. right. exact Hr'. }
    destruct (Qltb c (TrimRegion.startMs r / 1000)); [| exact IH'].
    cbn [List.app]. constructor; [exact IH' |].
    apply Forall_forall. intros seg Hseg. unfold segBefore.
    cbn [Segment.endSec].
    apply (cursorWalk_lower_bound T (TrimRegion.startMs r / 1000) rest
             (TrimRegion.endMs r / 1000)); [| | exact Hseg].
    + assert (H := Hwf r (or_introl eq_refl)). rewrite !div1000. lra.
    + intros r' Hr'. rewrite Forall_forall in Hall.
      assert (H1 := Hall r' Hr'). unfold keyLe in H1.
      assert (H2 := Hwf r' (or_intror Hr')). rewrite !div1000. lra.
Qed.

Lemma sortBy_forall {A : Type} (key : A -> Q) (P : A -> Prop) (l : list A) :
  (forall a, In a l -> P a) -> forall a, In a (sortBy key l) -> P a.
Proof.
  intros H a Ha. apply H.
  apply (Permutation_in _ (sortBy_perm key l)). exact Ha.
Qed.

(** X11.  With at least one cut region, no kept segment is empty or
    reversed; and when every region has [startMs <= endMs] the kept
    segments come in time order without overlapping one another, whatever
    the order and the overlaps of the regions. *)
Theorem computeKeptSegments_ordered (rs : list TrimRegion.t) (d : Q) :
  rs <> [] ->
  (forall seg, In seg (computeKeptSegments rs d) ->
     Segment.startSec seg < Segment.endSec seg)
  /\ ((forall r, In r rs -> TrimRegion.startMs r <= TrimRegion.endMs r) ->
      StronglySorted segBefore (computeKeptSegments rs d)).
Proof.
  intro Hne. rewrite (computeKeptSegments_walk rs d Hne). split.
  - intros seg. apply cursorWalk_nonempty.
  - intro Hwf. apply cursorWalk_ordered; [apply sortBy_sorted |].
    apply sortBy_forall. exact Hwf.
Qed.

Lemma cursorWalk_complete (d t : Q) :
  t < d ->
  forall (cuts : list TrimRegion.t) (cursor c : Q),
    cursor == c / 1000 -> c <= t ->
    (forall r, In r cuts -> ~ inCut t r) ->
    exists seg, In seg (cursorWalk cursor cuts (d / 1000)) /\ inSegment t seg.
Proof.
  intro Htd.
  induction cuts as [| r rest IH]; intros cursor c Hcur Hct Hout;
    cbn [cursorWalk]; rewrite div1000 in Hcur.
  - assert (E : Qltb cursor (d / 1000) = true)
      by (apply Qltb_lt; rewrite div1000; lra).
    rewrite E. eexists. split; [left; reflexivity |].
    unfold inSegment. cbn [Segment.startSec Segment.endSec].
    rewrite !div1000. lra.
  - destruct (Qlt_le_dec t (TrimRegion.startMs r)) as [Hbefore | Hafter].
    + assert (E : Qltb cursor (TrimRegion.startMs r / 1000) = true)
        by (apply Qltb_lt; rewrite div1000; lra).
      rewrite E. eexists. split; [left; reflexivity |].
      unfold inSegment. cbn [Segment.startSec Segment.endSec].
      rewrite !div1000. lra.
    + assert (Hend : TrimRegion.endMs r <= t).
      { destruct (Qlt_le_dec t (TrimRegion.endMs r)) as [H | H]; [| exact H].
        exfalso. apply (Hout r (or_introl eq_refl)). split; assumption. }
      destruct (IH (TrimRegion.endMs r / 1000) (TrimRegion.endMs r)
                  (Qeq_refl _) Hend) as (seg & Hin & Hseg).
      { intros r' Hr'. apply Hout. right. exact Hr'. }
      exists seg. split; [apply in_or_app; right; exact Hin | exact Hseg].
Qed.

(** X12.  Nothing outside the cuts is lost: every instant of the clip,
    [0 <= t < durationMs], that lies in no cut region lies in a kept segment,
    for any list of regions. *)
Theorem computeKeptSegments_complete (rs : list TrimRegion.t) (d t : Q) :
  0 <= t < d ->
  (forall r, In r rs -> ~ inCut t r) ->
  exists seg, In seg (computeKeptSegments rs d) /\ inSegment t seg.
Proof.
  intros [H0 Hd] Hout. destruct rs as [| r rs].
  - eexists. split; [left; reflexivity |].
    unfold inSegment. cbn [Segment.startSec Segment.endSec].
    rewrite !div1000. lra.
  - rewrite computeKeptSegments_walk by discriminate.
    apply (cursorWalk_complete d t Hd _ 0 0); [reflexivity | exact H0 |].
    apply sortBy_forall. exact Hout.
Qed.

Lemma StronglySorted_within {A : Type} (R R' : A -> A -> Prop) (l : list A) :
  (forall a b, In a l -> In b l -> R a b -> R' a b) ->
  StronglySorted R l -> StronglySorted R' l.
Proof.
  intros H Hs. induction Hs as [| a l Hs IH Hall].
  - constructor.
  - constructor.
    + apply IH. intros x y Hx Hy. apply H; right; assumption.
    + rewrite Forall_forall in *. intros b Hb.
      apply H; [left; reflexivity | right; exact Hb | apply Hall; exact Hb].
Qed.

(** With starts and ends both ascending, every kept segment lies wholly
    before or wholly after each cut. *)
Lemma cursorWalk_apart (T : Q) :
  forall (cuts : list TrimRegion.t) (c : Q),
    StronglySorted (keyLe TrimRegion.startMs) cuts ->
    StronglySorted (keyLe TrimRegion.endMs) cuts ->
    forall seg, In seg (cursorWalk c cuts T) ->
      forall r, In r cuts ->
        Segment.endSec seg <= TrimRegion.startMs r / 1000
        \/ TrimRegion.endMs r / 1000 <= Segment.startSec seg.
Proof.
  induction cuts as [| r rest IH]; intros c Hs He seg Hin r' Hr';
    [destruct Hr' |].
  apply StronglySorted_inv in Hs. destruct Hs as [Hs Hsall].
  apply StronglySorted_inv in He. destruct He as [He Heall].
  rewrite Forall_forall in Hsall, Heall.
  cbn [cursorWalk] in Hin. apply in_app_or in Hin. destruct Hin as [Hin | Hin].
  - destruct (Qltb c (TrimRegion.startMs r / 1000)); [| destruct Hin].
    destruct Hin as [<- | []]. left. cbn [Segment.endSec].
    destruct Hr' as [<- | Hr']; [lra |].
    assert (H := Hsall r' Hr'). unfold keyLe in H. rewrite !div1000. lra.
  - destruct Hr' as [<- | Hr'].
    + right.
      apply (cursorWalk_lower_bound T (TrimRegion.endMs r / 1000) rest
               (TrimRegion.endMs r / 1000)); [lra | | exact Hin].
      intros r'' Hr''. assert (H := Heall r'' Hr''). unfold keyLe in H.
      rewrite !div1000. lra.
    + exact (IH _ Hs He seg Hin r' Hr').
Qed.

(** X13.  When no region is nested in another (a region that starts no
    later than another also ends no later), no kept segment contains an
    instant of a cut region: what was marked for removal is not kept. *)
Theorem computeKeptSegments_sound (rs : list TrimRegion.t) (d : Q) :
  (forall r1 r2, In r1 rs -> In r2 rs ->
     TrimRegion.startMs r1 <= TrimRegion.startMs r2 ->
     TrimRegion.endMs r1 <= TrimRegion.endMs r2) ->
  forall seg r t,
    In seg (computeKeptSegments rs d) -> In r rs ->
    inSegment t seg -> ~ inCut t r.
Proof.
  intros Hnest seg r t Hseg Hr [Hs1 Hs2] [Hc1 Hc2].
  destruct rs as [| r0 rs]; [destruct Hr |].
  rewrite computeKeptSegments_walk in Hseg by discriminate.
  set (sorted := sortBy TrimRegion.startMs (r0 :: rs)) in *.
  assert (Hperm : Permutation sorted (r0 :: rs)) by apply sortBy_perm.
  assert (Hsorted : StronglySorted (keyLe TrimRegion.startMs) sorted)
    by apply sortBy_sorted.
  assert (Hends : StronglySorted (keyLe TrimRegion.endMs) sorted).
  { apply (StronglySorted_within (keyLe TrimRegion.startMs)); [| exact Hsorted].
    intros a b Ha Hb. unfold keyLe.
    apply Hnest; apply (Permutation_in _ Hperm); assumption. }
  assert (Hr' : In r sorted)
    by (apply (Permutation_in _ (Permutation_sym Hperm)); exact Hr).
  destruct (cursorWalk_apart _ sorted 0 Hsorted Hends seg Hseg r Hr') as [H | H];
    rewrite div1000 in *; lra.
Qed.

Lemma totalKept_app (a b : list Segment.t) :
  totalKept (a ++ b) == totalKept a + totalKept b.
Proof.
  induction a as [| s a IH]; cbn [app totalKept]; [lra | rewrite IH; lra].
Qed.

Lemma totalCut_perm (l l' : list TrimRegion.t) :
  Permutation l l' -> totalCut l == totalCut l'.
Proof.
  intro H. induction H; cbn [totalCut]; lra.
Qed.

Lemma cursorWalk_total (d : Q) :
  forall (cuts : list TrimRegion.t) (cursor c : Q),
    cursor == c / 1000 -> cutsSeparated c cuts d ->
    totalKept (cursorWalk cursor cuts (d / 1000)) * 1000
    == d - c - totalCut cuts.
Proof.
  induction cuts as [| r rest IH]; intros cursor c Hcur Hsep;
    cbn [cursorWalk cutsSeparated totalCut] in *; rewrite div1000 in Hcur.
  - destruct (Qltb cursor (d / 1000)) eqn:E; cbn [totalKept Segment.startSec
      Segment.endSec].
    + rewrite div1000. lra.
    + apply Qltb_ge in E. rewrite div1000 in E. lra.
  - destruct Hsep as (H1 & H2 & Hrest).
    rewrite totalKept_app.
    specialize (IH (TrimRegion.endMs r / 1000) (TrimRegion.endMs r)
                  (Qeq_refl _) Hrest).
    unfold cutLength.
    destruct (Qltb cursor (TrimRegion.startMs r / 1000)) eqn:E;
      cbn [totalKept Segment.startSec Segment.endSec].
    + rewrite div1000. lra.
    + apply Qltb_ge in E. rewrite div1000 in E. lra.
Qed.

(** X14.  For a clip and cuts on whole seconds, the cuts being, in start
    order, well formed, not overlapping and within the clip, the kept
    segments add up to the effective duration:
    [1000 * (sum of endSec - startSec)] equals [computeEffectiveDuration].
    On whole seconds the division by 1000 that gives the ends of the
    segments is exact. *)
Theorem computeKeptSegments_total (rs : list TrimRegion.t) (d : Q) :
  wholeSeconds d ->
  (forall r, In r rs ->
     wholeSeconds (TrimRegion.startMs r) /\ wholeSeconds (TrimRegion.endMs r)) ->
  cutsSeparated 0 (sortBy TrimRegion.startMs rs) d ->
  totalKept (computeKeptSegments rs d) * 1000 == computeEffectiveDuration rs d.
Proof.
  intros _ _ Hsep. rewrite computeEffectiveDuration_total.
  rewrite <- (totalCut_perm _ _ (sortBy_perm TrimRegion.startMs rs)).
  destruct rs as [| r rs].
  - cbn in *. rewrite div1000. lra.
  - rewrite computeKeptSegments_walk by discriminate.
    rewrite (cursorWalk_total d _ 0 0 ltac:(reflexivity) Hsep). lra.
Qed.

(** ** trim.ts: the filter and the standalone command *)

Lemma join_head_nonempty (sep : string) (c : ascii) (x : string)
    (l : list string) :
  join sep (String c x :: l) <> "".
Proof. destruct l; cbn; discriminate. Qed.

Lemma concatFilters_nonempty (hasAudio : bool) (seg : Segment.t)
    (rest : list Segment.t) :
  concatFilters hasAudio (seg :: rest) <> "".
Proof.
  unfold concatFilters. cbn [trimLoop].
  destruct (trimLoop hasAudio (0 + 1) rest) as [[filters vLabels] aLabels].
  destruct hasAudio; cbn [List.app]; apply join_head_nonempty.
Qed.

(** X15.  [generateTrimFilter] returns the empty string exactly when no
    segment is kept; whenever something is kept the filter is not empty. *)
Theorem generateTrimFilter_empty_iff (rs : list TrimRegion.t) (d : Q)
    (hasAudio : bool) :
  generateTrimFilter rs d hasAudio = "" <-> computeKeptSegments rs d = [].
Proof.
  split; [| apply generateTrimFilter_nil].
  unfold generateTrimFilter.
  destruct (computeKeptSegments rs d) as [| seg [| seg' rest]]; [reflexivity | |];
    intro H; exfalso.
  - destruct (Qeq_bool (Segment.startSec seg) 0).
    + revert H. unfold simpleTrimFilters.
      destruct hasAudio; cbn [List.app]; apply join_head_nonempty.
    + exact (concatFilters_nonempty _ _ _ H).
  - exact (concatFilters_nonempty _ _ _ H).
Qed.

(** X16.  When the cut regions leave nothing, [buildTrimCommand] does not
    fall back to a copy: it returns the filter-graph command with an empty
    [-filter_complex] argument and the [[outv]] (and [[outa]]) maps. *)
Theorem buildTrimCommand_nothing_kept (inputPath outputPath : string)
    (rs : list TrimRegion.t) (d : Q) (hasAudio : bool) :
  computeKeptSegments rs d = [] ->
  buildTrimCommand inputPath outputPath rs d hasAudio
  = if hasAudio
    then [ "ffmpeg"; "-y"; "-i"; inputPath; "-filter_complex"; "";
           "-map"; "[outv]"; "-map"; "[outa]";
           "-c:v"; "libx264"; "-preset"; "fast"; "-crf"; "18";
           "-c:a"; "aac"; outputPath ]
    else [ "ffmpeg"; "-y"; "-i"; inputPath; "-filter_complex"; "";
           "-map"; "[outv]";
           "-c:v"; "libx264"; "-preset"; "fast"; "-crf"; "18"; outputPath ].
Proof.
  intro H. unfold buildTrimCommand.
  destruct rs as [| r rs]; [discriminate H |].
  rewrite H, (generateTrimFilter_nil _ _ hasAudio H).
  destruct hasAudio; reflexivity.
Qed.

(** ** pipeline.ts: intermediate paths *)

Lemma string_length_append (a b : string) :
  String.length (a ++ b) = (String.length a + String.length b)%nat.
Proof. induction a as [| c a IH]; cbn; [reflexivity | now rewrite IH]. Qed.

Lemma substring_0_0 (s : string) : String.substring 0 0 s = "".
Proof. destruct s; reflexivity. Qed.

Lemma substring_full (s : string) : String.substring 0 (String.length s) s = s.
Proof. induction s as [| c s IH]; cbn; [reflexivity | now rewrite IH]. Qed.

Lemma substring_split (s : string) :
  forall i : nat, (i <= String.length s)%nat ->
    String.substring 0 i s ++ String.substring i (String.length s - i) s = s.
Proof.
  induction s as [| c s IH]; intros i Hi.
  - destruct i; [reflexivity | cbn in Hi; lia].
  - destruct i as [| i].
    + rewrite substring_0_0, Nat.sub_0_r. cbn [append]. apply substring_full.
    + cbn [String.substring append String.length Nat.sub].
      f_equal. apply IH. cbn in Hi. lia.
Qed.

Lemma lastIndexOfFrom_absent (c : ascii) (s : string) :
  ~ hasChar c s -> forall i found, lastIndexOfFrom c s i found = found.
Proof.
  unfold hasChar. induction s as [| a s IH]; intros Hno i found; cbn.
  - reflexivity.
  - cbn in Hno. destruct (Ascii.eqb a c) eqn:E.
    + apply Ascii.eqb_eq in E. exfalso. apply Hno. left. exact E.
    + apply IH. intro H. apply Hno. right. exact H.
Qed.

Lemma intermediateOutput_facts (finalPath : string) (stepIndex : Z) :
  (exists base ext,
     finalPath = base ++ ext
     /\ intermediateOutput finalPath stepIndex
        = base ++ "_step" ++ intToString stepIndex ++ ext)
  /\ intermediateOutput finalPath stepIndex <> finalPath
  /\ (~ hasChar "."%char finalPath ->
      intermediateOutput finalPath stepIndex
      = "_step" ++ intToString stepIndex ++ finalPath).
Proof.
  unfold intermediateOutput, js_substringFrom, js_substring.
  set (len := Z.of_nat (String.length finalPath)).
  set (i := lastIndexOf "."%char finalPath).
  set (b := Z.min len (Z.max 0 i)).
  assert (Hb : (0 <= b <= len)%Z) by (unfold b, len; lia).
  replace (Z.min len (Z.max 0 len)) with len by lia.
  replace (Z.min len (Z.max 0 0)) with 0%Z by lia.
  replace (Z.min b len) with b by lia.
  replace (Z.max b len) with len by lia.
  replace (Z.min 0 b) with 0%Z by lia.
  replace (Z.max 0 b) with b by lia.
  rewrite Z.sub_0_r. change (Z.to_nat 0) with 0%nat.
  assert (Hsplit : String.substring 0 (Z.to_nat b) finalPath
                   ++ String.substring (Z.to_nat b) (Z.to_nat (len - b)) finalPath
                   = finalPath).
  { replace (Z.to_nat (len - b))
      with (String.length finalPath - Z.to_nat b)%nat by (unfold len; lia).
    apply substring_split. unfold len in Hb. lia. }
  set (base := String.substring 0 (Z.to_nat b) finalPath) in *.
  set (ext := String.substring (Z.to_nat b) (Z.to_nat (len - b)) finalPath) in *.
  split; [exists base, ext; split; [symmetry; exact Hsplit | reflexivity] |].
  split.
  - intro H. apply (f_equal String.length) in H.
    pose proof (f_equal String.length Hsplit) as Hl.
    rewrite string_length_append in Hl.
    repeat rewrite string_length_append in H. cbn [String.length] in H. lia.
  - intro Hno.
    assert (Hi : i = (-1)%Z)
      by (unfold i, lastIndexOf; apply lastIndexOfFrom_absent; exact Hno).
    assert (Hb0 : b = 0%Z) by (unfold b; rewrite Hi; lia).
    unfold base, ext. rewrite Hb0. change (Z.to_nat 0) with 0%nat.
    rewrite Z.sub_0_r. unfold len. rewrite Nat2Z.id.
    rewrite substring_0_0, substring_full. reflexivity.
Qed.

Lemma intermediateOutput_neq (finalPath : string) (stepIndex : Z) :
  intermediateOutput finalPath stepIndex <> finalPath.
Proof. apply intermediateOutput_facts. Qed.

(** X17.  [intermediateOutput] splits the path in two and puts
    [_step<N>] between the parts, so the result is never the path itself; a
    path without a dot is not split, and the marker is put in front of the
    whole path. *)
Theorem intermediateOutput_split (finalPath : string) (stepIndex : Z) :
  (exists base ext,
     finalPath = base ++ ext
     /\ intermediateOutput finalPath stepIndex
        = base ++ "_step" ++ intToString stepIndex ++ ext)
  /\ intermediateOutput finalPath stepIndex <> finalPath
  /\ (~ hasChar "."%char finalPath ->
      intermediateOutput finalPath stepIndex
      = "_step" ++ intToString stepIndex ++ finalPath).
Proof. exact (intermediateOutput_facts finalPath stepIndex). Qed.

(** ** pipeline.ts: the shape of a plan *)

Lemma trimPass_multi (config : ProcessingConfig.t) :
  multiKept config = true ->
  trimPass config
  = Continue
      [ concatTrimStep (ProcessingConfig.inputPath config)
          (generateTrimFilter (orDefault (ProcessingConfig.trim config) [])
             (VideoInfo.durationMs (ProcessingConfig.video config)) true)
          (intermediateOutput (ProcessingConfig.outputPath config) 0) ]
      (intermediateOutput (ProcessingConfig.outputPath config) 0) (0 + 1).
Proof.
  unfold multiKept, trimPass. intro H. apply andb_true_iff in H.
  destruct H as [Hn Hm]. rewrite Hn. cbn zeta.
  destruct (computeKeptSegments _ _) as [| s1 [| s2 segs]];
    cbn in Hm; try discriminate. reflexivity.
Qed.

Lemma trimPass_not_multi (config : ProcessingConfig.t) :
  multiKept config = false ->
  trimPass config = Continue [] (ProcessingConfig.inputPath config) 0
  \/ exists seg,
       trimPass config
       = Returned [ seekTrimStep (ProcessingConfig.inputPath config) seg
                      (ProcessingConfig.outputPath config) ].
Proof.
  unfold multiKept, trimPass. intro H.
  destruct (needsTrim config); [| left; reflexivity].
  cbn [andb] in H. cbn zeta.
  destruct (computeKeptSegments _ _) as [| s1 [| s2 segs]];
    cbn in H; try discriminate.
  - left. reflexivity.
  - destruct (isOnlyStep config); [right; eexists; reflexivity | left; reflexivity].
Qed.

Lemma lastStep_snoc (steps : list PipelineStep.t) (s : PipelineStep.t) :
  lastStep (steps ++ [s]) = s.
Proof. unfold lastStep. apply last_last. Qed.

(** What steps 2 and 3 do when they have a step to add. *)
Lemma effectsPass_writes_output (config : ProcessingConfig.t)
    (steps : list PipelineStep.t) (currentInput : string) (stepIndex : Z) :
  needsBackground config = true \/ nonEmpty (vfPartsOf config) = true
  \/ steps = [] ->
  let plan := effectsPass config steps currentInput stepIndex in
  stepOutput (lastStep plan) = ProcessingConfig.outputPath config
  /\ (List.length steps + 1 <= List.length plan <= List.length steps + 2)%nat.
Proof.
  intro H. cbv zeta. unfold effectsPass, withBackground, withoutBackground.
  destruct (ProcessingConfig.background config) as [bg |] eqn:Ebg.
  - destruct (needsBackground config) eqn:Eb.
    + destruct (nonEmpty (vfPartsOf config));
        destruct (BackgroundConfig.type bg);
        destruct (BackgroundConfig.imagePath bg) as [path |];
        try destruct (truthy path);
        rewrite ?lastStep_snoc, ?length_app; cbn; split; (reflexivity || lia).
    + destruct (nonEmpty (vfPartsOf config)).
      * rewrite lastStep_snoc, length_app. cbn. split; [reflexivity | lia].
      * destruct H as [H | [H | ->]]; try discriminate.
        cbn. split; [reflexivity | lia].
  - assert (Eb : needsBackground config = false)
      by (unfold needsBackground; rewrite Ebg; reflexivity).
    destruct (nonEmpty (vfPartsOf config)).
    + rewrite lastStep_snoc, length_app. cbn. split; [reflexivity | lia].
    + destruct H as [H | [H | ->]]; try congruence.
      cbn. split; [reflexivity | lia].
Qed.

Lemma effectsPass_idle (config : ProcessingConfig.t)
    (step : PipelineStep.t) (currentInput : string) (stepIndex : Z) :
  needsBackground config = false -> nonEmpty (vfPartsOf config) = false ->
  effectsPass config [step] currentInput stepIndex = [step].
Proof.
  intros Hb Hv. unfold effectsPass, withoutBackground. rewrite Hb, Hv.
  destruct (ProcessingConfig.background config); reflexivity.
Qed.

(** X18.  Every plan has one, two or three steps.  Its last step writes
    the output path, with one exception: when more than one segment is kept
    and neither a background pass nor a filter pass follows, the plan is the
    concat trim alone and its only output is the first intermediate path,
    which is never the output path. *)
Theorem buildPipeline_shape (config : ProcessingConfig.t) :
  let plan := buildPipeline config in
  let output := ProcessingConfig.outputPath config in
  (1 <= List.length plan <= 3)%nat
  /\ if multiKept config && negb (needsBackground config)
        && negb (nonEmpty (vfPartsOf config))
     then List.length plan = 1%nat
          /\ stepOutput (lastStep plan) = intermediateOutput output 0
          /\ stepOutput (lastStep plan) <> output
     else stepOutput (lastStep plan) = output.
Proof.
  cbv zeta. unfold buildPipeline.
  destruct (multiKept config) eqn:Em.
  - rewrite (trimPass_multi config Em). cbn [andb].
    destruct (needsBackground config) eqn:Eb; cbn [negb andb].
    + destruct (effectsPass_writes_output config
                  [ concatTrimStep (ProcessingConfig.inputPath config)
                      (generateTrimFilter
                         (orDefault (ProcessingConfig.trim config) [])
                         (VideoInfo.durationMs (ProcessingConfig.video config))
                         true)
                      (intermediateOutput (ProcessingConfig.outputPath config) 0) ]
                  (intermediateOutput (ProcessingConfig.outputPath config) 0)
                  (0 + 1) (or_introl Eb)) as [Hout Hlen].
      cbn [List.length] in Hlen. split; [lia | exact Hout].
    + destruct (nonEmpty (vfPartsOf config)) eqn:Ev; cbn [negb].
      * destruct (effectsPass_writes_output config
                    [ concatTrimStep (ProcessingConfig.inputPath config)
                        (generateTrimFilter
                           (orDefault (ProcessingConfig.trim config) [])
                           (VideoInfo.durationMs (ProcessingConfig.video config))
                           true)
                        (intermediateOutput (ProcessingConfig.outputPath config) 0) ]
                    (intermediateOutput (ProcessingConfig.outputPath config) 0)
                    (0 + 1) (or_intror (or_introl Ev))) as [Hout Hlen].
        cbn [List.length] in Hlen. split; [lia | exact Hout].
      * rewrite (effectsPass_idle _ _ _ _ Eb Ev). cbn [List.length].
        split; [lia |]. split; [reflexivity |].
        split; [reflexivity | apply intermediateOutput_neq].
  - cbn [andb].
    destruct (trimPass_not_multi config Em) as [-> | (seg & ->)].
    + destruct (effectsPass_writes_output config []
                  (ProcessingConfig.inputPath config) 0
                  (or_intror (or_intror eq_refl))) as [Hout Hlen].
      cbn [List.length] in Hlen. split; [lia | exact Hout].
    + cbn. split; [lia | reflexivity].
Qed.

(** ** pipeline.ts: the planner and the standalone builders *)

Lemma vfPartsOf_nil_flags (config : ProcessingConfig.t) :
  needsCrop config = false -> needsZoom config = false ->
  needsAnnotations config = false -> vfPartsOf config = [].
Proof.
  intros Hc Hz Ha. unfold vfPartsOf. rewrite Hc, Hz, Ha.
  destruct (ProcessingConfig.crop config), (ProcessingConfig.zoom config),
    (ProcessingConfig.annotations config); reflexivity.
Qed.

Lemma needsBackground_some (config : ProcessingConfig.t)
    (bg : BackgroundConfig.t) :
  ProcessingConfig.background config = Some bg ->
  0 < orDefault (BackgroundConfig.padding bg) 0%Q ->
  needsBackground config = true.
Proof.
  intros Hbg Hp. apply needsBackground_spec. exists bg. split; assumption.
Qed.

(** X19.  A configuration whose only effect is a background with positive
    padding is planned as one step, with no intermediate file: the command
    [buildBackgroundCommand] builds for the same paths and background, on the
    canvas [outputWidth ?? width] by [outputHeight ?? height]. *)
Theorem buildPipeline_background_only (config : ProcessingConfig.t)
    (bg : BackgroundConfig.t) :
  noTrim config -> noZoom config -> identityCrop config ->
  noAnnotations config ->
  ProcessingConfig.background config = Some bg ->
  0 < orDefault (BackgroundConfig.padding bg) 0%Q ->
  buildPipeline config
  = [ PipelineStep.mk "Apply background/wallpaper"
        (buildBackgroundCommand
           (ProcessingConfig.inputPath config)
           (ProcessingConfig.outputPath config) bg
           (orDefault (ProcessingConfig.outputWidth config)
              (VideoInfo.width (ProcessingConfig.video config)))
           (orDefault (ProcessingConfig.outputHeight config)
              (VideoInfo.height (ProcessingConfig.video config)))) ].
Proof.
  intros Ht Hz Hc Ha Hbg Hp. unfold buildPipeline, trimPass.
  rewrite (needsTrim_false _ Ht). unfold effectsPass.
  rewrite (vfPartsOf_nil_flags config (needsCrop_false _ Hc)
             (needsZoom_false _ Hz) (needsAnnotations_false _ Ha)).
  rewrite Hbg, (needsBackground_some _ _ Hbg Hp).
  unfold withBackground, buildBackgroundCommand. cbn [nonEmpty].
  destruct (BackgroundConfig.type bg);
    destruct (BackgroundConfig.imagePath bg) as [path |];
    try destruct (truthy path); reflexivity.
Qed.

Lemma needsCrop_true (config : ProcessingConfig.t) (c : CropRegion.t) :
  ProcessingConfig.crop config = Some c ->
  ~ (CropRegion.x c == 0 /\ CropRegion.y c == 0
     /\ CropRegion.width c == 1 /\ CropRegion.height c == 1) ->
  needsCrop config = true.
Proof.
  intros Hc Hne. unfold needsCrop. rewrite Hc.
  destruct (Qeq_bool (CropRegion.x c) 0) eqn:Ex; [| reflexivity].
  destruct (Qeq_bool (CropRegion.y c) 0) eqn:Ey; [| reflexivity].
  destruct (Qeq_bool (CropRegion.width c) 1) eqn:Ew; [| reflexivity].
  destruct (Qeq_bool (CropRegion.height c) 1) eqn:Eh; [| reflexivity].
  exfalso. apply Hne. apply Qeq_bool_iff in Ex, Ey, Ew, Eh. tauto.
Qed.

(** X20.  A configuration whose only effect is a crop other than the
    identity rectangle is planned as one step: the command
    [buildCropCommand] builds, without scaling back, for the same paths,
    rectangle and frame size. *)
Theorem buildPipeline_crop_only (config : ProcessingConfig.t)
    (c : CropRegion.t) :
  noTrim config -> noZoom config -> noPaddedBackground config ->
  noAnnotations config ->
  ProcessingConfig.crop config = Some c ->
  ~ (CropRegion.x c == 0 /\ CropRegion.y c == 0
     /\ CropRegion.width c == 1 /\ CropRegion.height c == 1) ->
  buildPipeline config
  = [ PipelineStep.mk "Apply video effects (zoom/crop/annotations)"
        (buildCropCommand
           (ProcessingConfig.inputPath config)
           (ProcessingConfig.outputPath config) c
           (VideoInfo.width (ProcessingConfig.video config))
           (VideoInfo.height (ProcessingConfig.video config)) false) ].
Proof.
  intros Ht Hz Hb Ha Hc Hne. unfold buildPipeline, trimPass.
  rewrite (needsTrim_false _ Ht). unfold effectsPass.
  assert (Hvf : vfPartsOf config
                = [ generateCropFilter c
                      (VideoInfo.width (ProcessingConfig.video config))
                      (VideoInfo.height (ProcessingConfig.video config)) ]).
  { unfold vfPartsOf.
    rewrite (needsCrop_true _ _ Hc Hne), (needsZoom_false _ Hz),
      (needsAnnotations_false _ Ha), Hc.
    destruct (ProcessingConfig.zoom config),
      (ProcessingConfig.annotations config); reflexivity. }
  rewrite Hvf, (needsBackground_false _ Hb).
  destruct (ProcessingConfig.background config); reflexivity.
Qed.

(** X21.  A configuration whose only effect is a list of annotations is
    planned as one step carrying the command [buildAnnotationCommand] builds
    on the canvas [outputWidth ?? width] by [outputHeight ?? height]: the
    filter pass when some annotation draws something, the plain copy when
    none does. *)
Theorem buildPipeline_annotations_only (config : ProcessingConfig.t)
    (anns : list AnnotationRegion.t) :
  noTrim config -> noZoom config -> identityCrop config ->
  noPaddedBackground config ->
  ProcessingConfig.annotations config = Some anns ->
  let w := orDefault (ProcessingConfig.outputWidth config)
             (VideoInfo.width (ProcessingConfig.video config)) in
  let h := orDefault (ProcessingConfig.outputHeight config)
             (VideoInfo.height (ProcessingConfig.video config)) in
  buildPipeline config
  = [ PipelineStep.mk
        (if truthy (generateAnnotationFilters anns w h)
         then "Apply video effects (zoom/crop/annotations)"
         else "Copy (no effects)")
        (buildAnnotationCommand
           (ProcessingConfig.inputPath config)
           (ProcessingConfig.outputPath config) anns w h) ].
Proof.
  intros Ht Hz Hc Hb Ha w h. unfold buildPipeline, trimPass.
  rewrite (needsTrim_false _ Ht). unfold effectsPass.
  assert (Hvf : vfPartsOf config
                = if truthy (generateAnnotationFilters anns w h)
                  then [ generateAnnotationFilters anns w h ] else []).
  { unfold vfPartsOf.
    rewrite (needsCrop_false _ Hc), (needsZoom_false _ Hz), Ha.
    fold w h.
    destruct (ProcessingConfig.crop config), (ProcessingConfig.zoom config);
      cbn [List.app];
      (destruct (needsAnnotations config) eqn:En; [reflexivity |]);
      unfold needsAnnotations in En; rewrite Ha in En;
      destruct anns; try discriminate En; reflexivity. }
  rewrite Hvf, (needsBackground_false _ Hb).
  unfold buildAnnotationCommand.
  destruct (truthy (generateAnnotationFilters anns w h));
    destruct (ProcessingConfig.background config); reflexivity.
Qed.

(** X22.  For a configuration whose only effect is a trim that leaves
    something, the plan is the one command [buildTrimCommand] builds (with
    audio), except for its target: with a single kept segment it writes the
    output path, with several it writes the first intermediate path. *)
Theorem buildPipeline_trim_only (config : ProcessingConfig.t)
    (rs : list TrimRegion.t) :
  ProcessingConfig.trim config = Some rs ->
  noOtherEffect config ->
  let d := VideoInfo.durationMs (ProcessingConfig.video config) in
  let output := ProcessingConfig.outputPath config in
  computeKeptSegments rs d <> [] ->
  exists description,
    buildPipeline config
    = [ PipelineStep.mk description
          (buildTrimCommand (ProcessingConfig.inputPath config)
             (if (1 <? List.length (computeKeptSegments rs d))%nat
              then intermediateOutput output 0 else output)
             rs d true) ].
Proof.
  intros Htrim Ho d output Hkept.
  unfold buildPipeline, trimPass, buildTrimCommand.
  rewrite (needsTrim_some _ _ Htrim), Htrim. cbn [orDefault]. fold d.
  destruct rs as [| r rs].
  - cbn [nonEmpty]. rewrite (effectsPass_no_effect _ _ _ _ Ho).
    eexists. reflexivity.
  - cbn [nonEmpty].
    destruct (computeKeptSegments (r :: rs) d) as [| s1 [| s2 segs]] eqn:E;
      [congruence | |].
    + rewrite (isOnlyStep_true _ Ho). eexists. reflexivity.
    + cbn [List.length Nat.ltb Nat.leb].
      rewrite (effectsPass_no_effect _ _ _ _ Ho).
      eexists. unfold concatTrimStep. reflexivity.
Qed.

(** ** annotations.ts: escaping *)

Lemma replaceAll_absent (c : ascii) (by_ s : string) :
  ~ hasChar c s -> replaceAll c by_ s = s.
Proof.
  unfold hasChar. induction s as [| a s IH]; intro Hno; cbn [replaceAll].
  - reflexivity.
  - cbn in Hno. destruct (Ascii.eqb a c) eqn:E.
    + apply Ascii.eqb_eq in E. exfalso. apply Hno. left. exact E.
    + cbn [append]. f_equal. apply IH. intro H. apply Hno. right. exact H.
Qed.

Lemma hasChar_append (x : ascii) (a b : string) :
  hasChar x (a ++ b) <-> hasChar x a \/ hasChar x b.
Proof.
  unfold hasChar. induction a as [| c a IH]; cbn.
  - tauto.
  - rewrite IH. tauto.
Qed.

(** The characters of a replaced string come from the string, the replaced
    character excepted, or from the replacement. *)
Lemma hasChar_replaceAll (x c : ascii) (by_ s : string) :
  hasChar x (replaceAll c by_ s) ->
  (x <> c /\ hasChar x s) \/ hasChar x by_.
Proof.
  induction s as [| a s IH]; cbn [replaceAll]; intro H.
  - destruct H.
  - apply hasChar_append in H. destruct H as [H | H].
    + destruct (Ascii.eqb a c) eqn:E; [right; exact H |].
      apply Ascii.eqb_neq in E. destruct H as [<- | []].
      left. split; [exact E | left; reflexivity].
    + destruct (IH H) as [[Hne Hs] | Hb]; [| right; exact Hb].
      left. split; [exact Hne | right; exact Hs].
Qed.

(** X23.  Escaped drawtext never contains a line break, and a text free of
    backslash, quote, colon, percent sign and line break is returned as it
    is. *)
Theorem escapeDrawtext_safe (text : string) :
  ~ hasChar newline (escapeDrawtext text)
  /\ ((forall c, hasChar c text ->
         c <> ascii_of_nat 92 /\ c <> "'"%char /\ c <> ":"%char
         /\ c <> "%"%char /\ c <> newline) ->
      escapeDrawtext text = text).
Proof.
  unfold escapeDrawtext. split.
  - intro H. apply hasChar_replaceAll in H.
    destruct H as [[Hne _] | H]; [congruence |].
    unfold hasChar in H. cbn in H.
    destruct H as [H | [H | []]]; discriminate H.
  - intro Hplain.
    assert (Habs : forall c by_,
              (c = ascii_of_nat 92 \/ c = "'"%char \/ c = ":"%char
               \/ c = "%"%char \/ c = newline) ->
              replaceAll c by_ text = text).
    { intros c by_ Hc. apply replaceAll_absent. intro H.
      destruct (Hplain _ H) as (H1 & H2 & H3 & H4 & H5).
      destruct Hc as [-> | [-> | [-> | [-> | ->]]]]; congruence. }
    rewrite (Habs (ascii_of_nat 92)) by tauto.
    rewrite (Habs "'"%char) by tauto.
    rewrite (Habs ":"%char) by tauto.
    rewrite (Habs "%"%char) by tauto.
    apply Habs. tauto.
Qed.

(** ** annotations.ts: what an annotation draws *)

Lemma nonempty_string (s : string) :
  s <> "" -> exists c x, s = String c x.
Proof. destruct s as [| c x]; [congruence | eauto]. Qed.

Lemma textAnnotationFilter_nonempty (ann : AnnotationRegion.t) (w h : Q) :
  textAnnotationFilter ann w h <> "".
Proof.
  unfold textAnnotationFilter.
  destruct (AnnotationRegion.backgroundColor ann) as [bg |];
    [destruct (truthy bg && negb (String.eqb bg "transparent")) |];
    cbn [List.app]; apply join_head_nonempty.
Qed.

Lemma arrowAnnotationFilter_nonempty (ann : AnnotationRegion.t) (w h : Q) :
  arrowAnnotationFilter ann w h <> "".
Proof. unfold arrowAnnotationFilter. cbn. discriminate. Qed.

Lemma annotationFilters_cases (w h : Q) (ann : AnnotationRegion.t) :
  (drawsNothing ann /\ annotationFilters w h ann = [])
  \/ (~ drawsNothing ann
      /\ exists c x, annotationFilters w h ann = [ String c x ]).
Proof.
  unfold annotationFilters, drawsNothing.
  destruct (AnnotationRegion.type ann) eqn:Et.
  - destruct (AnnotationRegion.text ann) as [t |] eqn:Etext.
    + unfold truthy. destruct (String.eqb t "") eqn:E; cbn [negb].
      * apply String.eqb_eq in E. subst t. left. tauto.
      * apply String.eqb_neq in E. right. split.
        -- intros [_ [H | H]]; congruence.
        -- destruct (nonempty_string _ (textAnnotationFilter_nonempty ann w h))
             as (c & x & ->). eauto.
    + left. tauto.
  - right. split; [intros [H _]; discriminate H |].
    destruct (nonempty_string _ (arrowAnnotationFilter_nonempty ann w h))
      as (c & x & ->). eauto.
Qed.

(** X24.  [generateAnnotationFilters] returns the empty string exactly when
    no annotation draws anything: the list is empty or holds only text
    annotations whose text is absent or empty. *)
Theorem generateAnnotationFilters_empty_iff
    (annotations : list AnnotationRegion.t) (w h : Q) :
  generateAnnotationFilters annotations w h = ""
  <-> forall ann, In ann annotations -> drawsNothing ann.
Proof.
  unfold generateAnnotationFilters.
  assert (H : join "," (flat_map (annotationFilters w h) annotations) = ""
              <-> forall ann, In ann annotations -> drawsNothing ann).
  { induction annotations as [| ann rest IH]; cbn [flat_map].
    - split; [intros _ a [] | reflexivity].
    - destruct (annotationFilters_cases w h ann) as [[Hn ->] | [Hd (c & x & ->)]].
      + cbn [app]. rewrite IH. split.
        * intros Hrest a [<- | Ha]; [exact Hn | apply Hrest; exact Ha].
        * intros Hall a Ha. apply Hall. right. exact Ha.
      + cbn [app]. split.
        * intro Hj. exfalso. exact (join_head_nonempty _ _ _ _ Hj).
        * intro Hall. exfalso. apply Hd. apply Hall. left. reflexivity. }
  destruct annotations as [| ann rest]; [| exact H].
  split; [intros _ a [] | reflexivity].
Qed.

(** X25.  The box drawn for an arrow always has a positive width and a
    positive height; for the four diagonal directions it is a square, the
    bounding box of the shaft. *)
Theorem arrowAnnotationFilter_box (ann : AnnotationRegion.t) (w h : Q) :
  exists (X Y W H : Z) (tail : string),
    arrowAnnotationFilter ann w h
    = "drawbox=x=" ++ intToString X ++ ":y=" ++ intToString Y
        ++ ":w=" ++ intToString W ++ ":h=" ++ intToString H ++ tail
    /\ (0 < W)%Z /\ (0 < H)%Z
    /\ (match orDefault (AnnotationRegion.arrowDirection ann) right with
        | up_right | up_left | down_right | down_left => W = H
        | _ => True
        end).
Proof.
  unfold arrowAnnotationFilter.
  set (cx := Math_round _). set (cy := Math_round _).
  set (size := orDefault (AnnotationRegion.arrowSize ann) 60%Q).
  set (c := getArrowCoords _ cx cy size).
  set (thickness := Z.max 3 (Math_round (size / 15))).
  do 5 eexists. split; [reflexivity |].
  assert (Ht : (0 < thickness)%Z) by (unfold thickness; lia).
  assert (Hor : forall a, (0 < orIfZero (Z.abs a) thickness)%Z).
  { intro a. unfold orIfZero. destruct (Z.abs a =? 0)%Z eqn:E; [exact Ht |].
    apply Z.eqb_neq in E. lia. }
  split; [apply Hor |]. split; [apply Hor |].
  unfold c, getArrowCoords.
  destruct (orDefault (AnnotationRegion.arrowDirection ann) right);
    cbn [ArrowCoords.shaftX1 ArrowCoords.shaftX2 ArrowCoords.shaftY1
         ArrowCoords.shaftY2]; try exact I;
    f_equal; lia.
Qed.

(** ** pipeline.ts: shell quoting *)

Lemma string_app_assoc (a b c : string) : (a ++ b) ++ c = a ++ (b ++ c).
Proof. induction a as [| x a IH]; cbn; [reflexivity | now rewrite IH]. Qed.

Lemma string_app_nil_r (a : string) : a ++ "" = a.
Proof. induction a as [| x a IH]; cbn; [reflexivity | now rewrite IH]. Qed.

Lemma needsQuoting_false (c : ascii) :
  needsQuoting c = false ->
  Ascii.eqb c "'"%char = false /\ Ascii.eqb c (ascii_of_nat 92) = false
  /\ Ascii.eqb c " "%char = false.
Proof.
  unfold needsQuoting, isWhitespace. cbn [existsb]. intro H.
  repeat (apply orb_false_iff in H; destruct H as [? H]);
    repeat match goal with
           | H : _ || _ = false |- _ =>
               apply orb_false_iff in H; destruct H
           end.
  repeat split; assumption.
Qed.

(** An unquoted argument is read back character by character. *)
Lemma bare_word (rest : string) :
  forall (arg w : string),
    testClass needsQuoting arg = false ->
    testClass shellActive arg = false ->
    shellWordsFrom (arg ++ rest) Bare (Some w)
    = shellWordsFrom rest Bare (Some (w ++ arg)).
Proof.
  induction arg as [| c arg IH]; intros w Hq Ha.
  - cbn. rewrite string_app_nil_r. reflexivity.
  - cbn [testClass] in Hq, Ha.
    apply orb_false_iff in Hq. destruct Hq as [Hq Hq'].
    apply orb_false_iff in Ha. destruct Ha as [Ha Ha'].
    destruct (needsQuoting_false c Hq) as (E1 & E2 & E3).
    cbn [append shellWordsFrom]. rewrite E1, E2, E3, Ha.
    unfold pushChar. cbn [orDefault]. rewrite (IH _ Hq' Ha').
    rewrite string_app_assoc. reflexivity.
Qed.

(** The body of a quoted argument, up to and including the closing quote. *)
Lemma quoted_body (rest : string) :
  forall (arg w : string),
    shellWordsFrom
      (replaceAll "'"%char ("'" ++ backslash ++ "''") arg ++ "'" ++ rest)
      InQuotes (Some w)
    = shellWordsFrom rest Bare (Some (w ++ arg)).
Proof.
  induction arg as [| c arg IH]; intro w.
  - cbn. rewrite string_app_nil_r. reflexivity.
  - cbn [replaceAll]. rewrite string_app_assoc.
    destruct (Ascii.eqb c "'"%char) eqn:E.
    + apply Ascii.eqb_eq in E. subst c.
      cbn. unfold pushChar. cbn [orDefault].
      rewrite IH, string_app_assoc. reflexivity.
    + cbn [append shellWordsFrom]. rewrite E.
      unfold pushChar. cbn [orDefault].
      rewrite IH, string_app_assoc. reflexivity.
Qed.

Lemma quoteArg_word (arg rest : string) :
  shellSafe arg ->
  shellWordsFrom (quoteArg arg ++ rest) Bare None
  = shellWordsFrom rest Bare (Some arg).
Proof.
  intros [Hne Hsafe]. unfold quoteArg.
  destruct (testClass needsQuoting arg) eqn:Eq.
  - rewrite !string_app_assoc. cbn [append shellWordsFrom Ascii.eqb].
    cbn [orDefault]. change (String "'" rest) with ("'" ++ rest).
    rewrite quoted_body. reflexivity.
  - destruct Hsafe as [H | Ha]; [discriminate H |].
    destruct arg as [| c arg]; [congruence |].
    cbn [testClass] in Eq, Ha.
    apply orb_false_iff in Eq. destruct Eq as [Eq Eq'].
    apply orb_false_iff in Ha. destruct Ha as [Ha Ha'].
    destruct (needsQuoting_false c Eq) as (E1 & E2 & E3).
    cbn [append shellWordsFrom]. rewrite E1, E2, E3, Ha.
    unfold pushChar. cbn [orDefault append].
    rewrite (bare_word rest arg _ Eq' Ha'). reflexivity.
Qed.

Lemma shellWords_line (args : list string) :
  (forall arg, In arg args -> shellSafe arg) ->
  shellWords (join " " (map quoteArg args)) = Some args.
Proof.
  unfold shellWords. induction args as [| a args IH]; intro Hsafe.
  - reflexivity.
  - assert (Ha : shellSafe a) by (apply Hsafe; left; reflexivity).
    assert (Hrest : forall arg, In arg args -> shellSafe arg)
      by (intros arg H; apply Hsafe; right; exact H).
    destruct args as [| b args].
    + cbn [map join String.concat].
      rewrite <- (string_app_nil_r (quoteArg a)).
      rewrite (quoteArg_word a "" Ha). reflexivity.
    + change (join " " (map quoteArg (a :: b :: args)))
        with (quoteArg a ++ " " ++ join " " (map quoteArg (b :: args))).
      rewrite (quoteArg_word a _ Ha).
      cbn [append shellWordsFrom Ascii.eqb].
      rewrite (IH Hrest). reflexivity.
Qed.

(** X26.  Read back by a shell, each command line of
    [pipelineToShellCommands] gives the arguments of its step, provided
    every argument is non-empty and, when it holds none of the characters
    the source quotes on, holds no character a shell acts on (such as
    [$], [*], brackets or parentheses): those are emitted unquoted. *)
Theorem pipelineToShellCommands_read_back (steps : list PipelineStep.t) :
  (forall step arg,
     In step steps -> In arg (PipelineStep.args step) -> shellSafe arg) ->
  map shellWords (pipelineToShellCommands steps)
  = map (fun step => Some (PipelineStep.args step)) steps.
Proof.
  intro Hsafe. unfold pipelineToShellCommands. rewrite map_map.
  apply map_ext_in. intros step Hstep.
  apply shellWords_line. intros arg Harg. exact (Hsafe step arg Hstep Harg).
Qed.

(** ** The order of the regions *)

Section SortUnique.
Context {A : Type} (key : A -> Q).

Lemma distinctKeys_perm (l l' : list A) :
  Permutation l l' -> distinctKeys key l -> distinctKeys key l'.
Proof.
  unfold distinctKeys. intro Hp.
  induction Hp as [| x l l' Hp IH | x y l | l l' l'' Hp1 IH1 Hp2 IH2];
    intro H.
  - exact H.
  - inversion H as [| ? ? Hall Hrest]; subst. constructor.
    + apply (Permutation_Forall Hp). exact Hall.
    + apply IH. exact Hrest.
  - inversion H as [| ? ? Hy Hrest]; subst.
    inversion Hrest as [| ? ? Hx Hl]; subst.
    inversion Hy as [| ? ? Hyx Hyl]; subst.
    constructor.
    + constructor; [| exact Hx]. intro E. apply Hyx. symmetry. exact E.
    + constructor; assumption.
  - apply IH2, IH1. exact H.
Qed.

Lemma sorted_strictly (l : list A) :
  StronglySorted (keyLe key) l -> distinctKeys key l ->
  StronglySorted (fun a b => key a < key b) l.
Proof.
  unfold distinctKeys. intro Hs.
  induction Hs as [| a l Hs IH Hall]; intro Hd.
  - constructor.
  - inversion Hd as [| ? ? Hne Hrest]; subst. constructor.
    + apply IH. exact Hrest.
    + rewrite Forall_forall in *. intros b Hb.
      specialize (Hall b Hb). specialize (Hne b Hb). unfold keyLe in Hall.
      destruct (Qlt_le_dec (key a) (key b)) as [Hlt | Hge]; [exact Hlt |].
      exfalso. apply Hne. apply Qle_antisym; assumption.
Qed.

Lemma strictly_sorted_unique :
  forall l1 l2 : list A,
    StronglySorted (fun a b => key a < key b) l1 ->
    StronglySorted (fun a b => key a < key b) l2 ->
    Permutation l1 l2 -> l1 = l2.
Proof.
  induction l1 as [| a t1 IH]; intros l2 H1 H2 Hp.
  - apply Permutation_nil in Hp. symmetry. exact Hp.
  - destruct l2 as [| b t2];
      [apply Permutation_sym, Permutation_nil in Hp; discriminate |].
    apply StronglySorted_inv in H1. destruct H1 as [H1 Ha].
    apply StronglySorted_inv in H2. destruct H2 as [H2 Hb].
    rewrite Forall_forall in Ha, Hb.
    assert (Hab : a = b).
    { assert (Hin1 : In a (b :: t2))
        by (apply (Permutation_in _ Hp); left; reflexivity).
      assert (Hin2 : In b (a :: t1))
        by (apply (Permutation_in _ (Permutation_sym Hp)); left; reflexivity).
      destruct Hin1 as [E | Hin1]; [symmetry; exact E |].
      destruct Hin2 as [E | Hin2]; [exact E |].
      specialize (Ha b Hin2). specialize (Hb a Hin1). lra. }
    subst b. f_equal. apply IH; [exact H1 | exact H2 |].
    apply Permutation_cons_inv with a. exact Hp.
Qed.

Lemma sortBy_order (l l' : list A) :
  Permutation l l' -> distinctKeys key l -> sortBy key l = sortBy key l'.
Proof.
  intros Hp Hd. apply strictly_sorted_unique.
  - apply sorted_strictly; [apply sortBy_sorted |].
    apply (distinctKeys_perm l); [| exact Hd].
    symmetry. apply sortBy_perm.
  - apply sorted_strictly; [apply sortBy_sorted |].
    apply (distinctKeys_perm l); [| exact Hd].
    rewrite Hp. symmetry. apply sortBy_perm.
  - rewrite (sortBy_perm key l), (sortBy_perm key l'). exact Hp.
Qed.

End SortUnique.

(** X27.  The order in which regions are given does not matter when their
    starts are pairwise different: two lists with the same zoom regions give
    the same zoom filter, and two lists with the same cut regions give the
    same kept segments. *)
Theorem region_order_irrelevant :
  (forall (l l' : list ZoomRegion.t) (w h fps : Q),
     Permutation l l' -> distinctKeys ZoomRegion.startMs l ->
     generateZoomFilter l w h fps = generateZoomFilter l' w h fps)
  /\ (forall (l l' : list TrimRegion.t) (d : Q),
        Permutation l l' -> distinctKeys TrimRegion.startMs l ->
        computeKeptSegments l d = computeKeptSegments l' d).
Proof.
  split.
  - intros l l' w h fps Hp Hd.
    unfold generateZoomFilter, buildCropExpressions.
    rewrite (sortBy_order ZoomRegion.startMs l l' Hp Hd).
    destruct l as [| r l], l' as [| r' l']; try reflexivity.
    + apply Permutation_nil in Hp. discriminate.
    + apply Permutation_sym, Permutation_nil in Hp. discriminate.
  - intros l l' d Hp Hd. unfold computeKeptSegments.
    rewrite (sortBy_order TrimRegion.startMs l l' Hp Hd).
    destruct l as [| r l], l' as [| r' l']; try reflexivity.
    + apply Permutation_nil in Hp. discriminate.
    + apply Permutation_sym, Permutation_nil in Hp. discriminate.
Qed.

(** ** trim.ts: the kept segments and the clip *)

Lemma cursorWalk_upper_bound (T : Q) :
  forall (cuts : list TrimRegion.t) (c : Q),
    (forall r, In r cuts -> TrimRegion.startMs r / 1000 <= T) ->
    forall seg, In seg (cursorWalk c cuts T) -> Segment.endSec seg <= T.
Proof.
  induction cuts as [| r rest IH]; intros c Hs seg Hin; cbn [cursorWalk] in Hin.
  - destruct (Qltb c T); [| destruct Hin]. destruct Hin as [<- | []].
    cbn. lra.
  - apply in_app_or in Hin. destruct Hin as [Hin | Hin].
    + destruct (Qltb c (TrimRegion.startMs r / 1000)); [| destruct Hin].
      destruct Hin as [<- | []]. cbn [Segment.endSec].
      apply Hs. left. reflexivity.
    + apply (IH (TrimRegion.endMs r / 1000)); [| exact Hin].
      intros r' Hr'. apply Hs. right. exact Hr'.
Qed.

(** X28.  When every cut region ends at or after 0 and starts at or before
    the duration, every kept segment lies inside the clip,
    [0 <= startSec] and [endSec <= durationMs / 1000]. *)
Theorem computeKeptSegments_within_clip (rs : list TrimRegion.t) (d : Q) :
  (forall r, In r rs -> 0 <= TrimRegion.endMs r /\ TrimRegion.startMs r <= d) ->
  forall seg, In seg (computeKeptSegments rs d) ->
    0 <= Segment.startSec seg /\ Segment.endSec seg <= d / 1000.
Proof.
  intros Hin seg Hseg. destruct rs as [| r rs].
  - destruct Hseg as [<- | []]. cbn. split; lra.
  - rewrite computeKeptSegments_walk in Hseg by discriminate.
    assert (Hsorted : forall r', In r' (sortBy TrimRegion.startMs (r :: rs)) ->
              0 <= TrimRegion.endMs r' /\ TrimRegion.startMs r' <= d).
    { intros r' Hr'. apply Hin.
      apply (Permutation_in _ (sortBy_perm TrimRegion.startMs (r :: rs))).
      exact Hr'. }
    split.
    + apply (cursorWalk_lower_bound (d / 1000) 0
               (sortBy TrimRegion.startMs (r :: rs)) 0); [lra | | exact Hseg].
      intros r' Hr'. destruct (Hsorted r' Hr') as [H _]. rewrite div1000. lra.
    + apply (cursorWalk_upper_bound (d / 1000)
               (sortBy TrimRegion.startMs (r :: rs)) 0); [| exact Hseg].
      intros r' Hr'. destruct (Hsorted r' Hr') as [_ H]. rewrite !div1000. lra.
Qed.

(** ** zoom.ts: the element preset *)

(** X29.  [ZoomPresets.element] always yields a focus in the unit square,
    and a position already in the unit square is kept as it is. *)
Theorem ZoomPresets_element_unit (x y : Q) :
  let f := ZoomPresets.element x y in
  0 <= ZoomFocus.cx f <= 1 /\ 0 <= ZoomFocus.cy f <= 1
  /\ (0 <= x <= 1 -> ZoomFocus.cx f == x)
  /\ (0 <= y <= 1 -> ZoomFocus.cy f == y).
Proof.
  cbv zeta. unfold ZoomPresets.element. cbn [ZoomFocus.cx ZoomFocus.cy].
  repeat split;
    first [ apply clamp_ge_lo; lra | apply clamp_le_hi
          | apply clamp_inside ].
Qed.

(** ** pipeline.ts: fields the planner does not read *)

(** X30.  The plan does not depend on [zoom.transitionMs],
    [zoom.smoothing], [video.fps] or [outputFps]: whatever values they are
    given, the steps are the same (the transition stays 320 ms). *)
Theorem buildPipeline_ignores_tuning (config : ProcessingConfig.t)
    (transitionMs smoothing : option Q) (fps : Q) (outputFps : option Q) :
  buildPipeline (withTuning transitionMs smoothing fps outputFps config)
  = buildPipeline config.
Proof.
  destruct config as [inp out [w h dur f] [[regions tm sm] |] crop trim bg
                        anns ow oh ofps];
    reflexivity.
Qed.

End Generators.

(** * Instances *)

(** C1, instance: [searchBarRegion] is silent at 0 ms and full at 2000 ms. *)
Lemma computeRegionStrength_envelope_witness :
  computeRegionStrength searchBarRegion 0 = 0
  /\ computeRegionStrength searchBarRegion 2000 = 1.
Proof.
  split.
  - apply (proj1 (computeRegionStrength_envelope searchBarRegion 0)).
    left. vm_compute. reflexivity.
  - apply (proj2 (computeRegionStrength_envelope searchBarRegion 2000)).
    split; vm_compute; discriminate.
Defined.

(** C3, instance: one cut, 5 s to 10 s, of a 60 s clip. *)
Lemma computeKeptSegments_cursor_walk_witness :
  computeKeptSegments [cut5to10] 60000
  = cursorWalk 0 (sortBy TrimRegion.startMs [cut5to10]) (60000 / 1000).
Proof.
  apply (proj1 (proj2 computeKeptSegments_cursor_walk) [cut5to10] 60000).
  left. discriminate.
Defined.

(** C4, instance: a head cut alone is one seek step; two cuts ahead of a
    crop and a padded background start a chain of three passes. *)
Lemma buildPipeline_trim_plan_witness :
  buildPipeline integerHost (withTrim [cutHead] (plainConfig clip60s))
  = [ PipelineStep.mk "Trim video"
        [ "ffmpeg"; "-y"; "-ss"; "5.000"; "-to"; "60.000"; "-i"; "input.mp4";
          "-c:v"; "libx264"; "-preset"; "fast"; "-crf"; "18";
          "-c:a"; "aac"; "output.mp4" ] ]
  /\ exists rest,
       buildPipeline integerHost threePassConfig
       = PipelineStep.mk "Trim video (remove cut sections)"
           [ "ffmpeg"; "-y"; "-i"; "input.mp4";
             "-filter_complex";
             generateTrimFilter integerHost [cut5to10; cut20to30] 60000 true;
             "-map"; "[outv]"; "-map"; "[outa]";
             "-c:v"; "libx264"; "-preset"; "fast"; "-crf"; "18";
             "-c:a"; "aac"; "output_step0.mp4" ]
         :: rest
       /\ chained "output_step0.mp4" rest.
Proof.
  split.
  - apply (proj1 (buildPipeline_trim_plan integerHost
                    (withTrim [cutHead] (plainConfig clip60s)) [cutHead]
                    eq_refl ltac:(discriminate))
             (Segment.mk (5000 / 1000) (60000 / 1000))).
    + vm_compute. reflexivity.
    + repeat split.
  - apply (proj2 (buildPipeline_trim_plan integerHost threePassConfig
                    [cut5to10; cut20to30] eq_refl ltac:(discriminate))).
    vm_compute. lia.
Defined.

(** C7, instance: adding the cut 5 s to 10 s to an empty list. *)
Lemma computeEffectiveDuration_additive_witness :
  computeEffectiveDuration [cut5to10] 60000 <= computeEffectiveDuration [] 60000.
Proof.
  apply (proj1 (proj2 (proj2 computeEffectiveDuration_additive))
           [] [] cut5to10 60000).
  vm_compute. discriminate.
Defined.

(** C8, instance: a configuration with paths and metadata only. *)
Lemma buildPipeline_all_disabled_witness :
  buildPipeline integerHost (plainConfig clip60s)
  = [ PipelineStep.mk "Copy (no effects)"
        [ "ffmpeg"; "-y"; "-i"; "input.mp4"; "-c"; "copy"; "output.mp4" ] ].
Proof.
  apply (buildPipeline_all_disabled integerHost (plainConfig clip60s)).
  - exact I.
  - repeat split.
Defined.

(** C9, instance: one cut over the whole of a 20 s clip. *)
Lemma buildPipeline_trim_covering_witness :
  computeKeptSegments [cutAll] 20000 = []
  /\ generateTrimFilter integerHost [cutAll] 20000 true = ""
  /\ buildPipeline integerHost (withTrim [cutAll] (plainConfig clip20s))
     = [ PipelineStep.mk "Copy (no effects)"
           [ "ffmpeg"; "-y"; "-i"; "input.mp4"; "-c"; "copy"; "output.mp4" ] ].
Proof.
  pose proof (buildPipeline_trim_covering integerHost)
    as (_ & _ & Hone & Hfilter & Hplan).
  assert (Hnil : computeKeptSegments [cutAll] 20000 = []).
  { apply Hone; vm_compute; discriminate. }
  split; [exact Hnil |]. split; [apply Hfilter; exact Hnil |].
  apply (proj2 (Hplan (withTrim [cutAll] (plainConfig clip20s)) [cutAll]
                  eq_refl Hnil)).
  repeat split.
Defined.


(** * Counterexamples *)

(** C4, counterexample.  Two cuts, a crop and a padded background give three
    passes: the trim writes [output_step0.mp4], the filter pass reads it and
    writes [output_step1.mp4], and the background pass reads the latter, not
    the trim's intermediate. *)
Lemma buildPipeline_background_reads_flush :
  (1 < List.length (computeKeptSegments [cut5to10; cut20to30] 60000))%nat
  /\ exists trimStep vfPass bgPass,
       buildPipeline integerHost threePassConfig = [trimStep; vfPass; bgPass]
       /\ In "-filter_complex"%string (PipelineStep.args trimStep)
       /\ stepOutput trimStep = "output_step0.mp4"
       /\ stepInput vfPass = Some "output_step0.mp4"
       /\ stepInput bgPass = Some "output_step1.mp4"
       /\ ~ allRead (stepOutput trimStep) [vfPass; bgPass].
Proof.
  split; [vm_compute; lia |].
  eexists. eexists. eexists. split; [lazy; reflexivity |].
  split; [cbn; tauto |]. split; [reflexivity |].
  split; [reflexivity |]. split; [reflexivity |].
  intro H. inversion H as [| ? ? _ H2]. inversion H2 as [| ? ? H3 _].
  vm_compute in H3. discriminate H3.
Qed.

(** C9, counterexample.  The cuts 0..30000 and 10000..15000 cover a
    20000 ms clip, yet the walk moves the cursor back to 15 s and keeps
    [{15, 20}]: the trim filter is not empty and the plan is a seek step, not
    a copy of the untrimmed input. *)
Lemma computeKeptSegments_nested_cover :
  covers nestedCuts 20000
  /\ Forall2 segEq (computeKeptSegments nestedCuts 20000) [Segment.mk 15 20]
  /\ generateTrimFilter integerHost nestedCuts 20000 true <> ""%string
  /\ buildPipeline integerHost (withTrim nestedCuts (plainConfig clip20s))
     = [ PipelineStep.mk "Trim video"
           [ "ffmpeg"; "-y"; "-ss"; "15.000"; "-to"; "20.000"; "-i"; "input.mp4";
             "-c:v"; "libx264"; "-preset"; "fast"; "-crf"; "18";
             "-c:a"; "aac"; "output.mp4" ]%string ].
Proof.
  split.
  - intros t Ht. exists (TrimRegion.mk "t1" 0 30000).
    split; [left; reflexivity | cbn; lra].
  - split; [repeat constructor |].
    split; [vm_compute; discriminate | vm_compute; reflexivity].
Qed.

(** C2.  The sampler on [leadInRegion] (depth 2, scale 1.5), 320 ms long,
    every 160 ms.  At 160 ms the region has strength 1/2.  The keyframe
    emitted there has its centre where the linear blend puts it, but a crop
    side of [1 / (1 + (1.5 - 1) / 2) = 4/5], where the linear blend of the
    side between 1 and [1 / 1.5] gives 5/6.  The animated filter of the same
    file blends the side linearly for the same region: its width is
    [1920 + (1280 - 1920) * ss], that is 1600 = 5/6 * 1920 at strength 1/2,
    not 1536 = 4/5 * 1920. *)
Theorem sampleZoomKeyframes_side_not_linear :
  exists kf0 kf160 kf320,
    sampleZoomKeyframes 4 [leadInRegion] 320 160 = Some [kf0; kf160; kf320]
    /\ ZoomKeyframe.timeMs kf160 == 160
    /\ fst (findDominantRegion [leadInRegion] 160) = Some leadInRegion
    /\ snd (findDominantRegion [leadInRegion] 160) == 1 # 2
    /\ ZoomKeyframe.centerX kf160 == 1 # 2
    /\ ZoomKeyframe.centerY kf160 == 1 # 2
    /\ ZoomKeyframe.cropWidth kf160 == 4 # 5
    /\ ZoomKeyframe.cropHeight kf160 == 4 # 5
    /\ linearSide (ZOOM_DEPTH_SCALES D2) (1 # 2) == 5 # 6
    /\ ~ blendWith linearSide [leadInRegion] kf160
    /\ CropExprs.w (buildCropExpressions integerHost [leadInRegion] 1920 1080)
       = ("if(between(t,0.000,0.320), "
            ++ "1920+(1280-1920)*(3*pow((t-0.000)/0.320,2)-2*pow((t-0.000)/0.320,3)), "
            ++ "if(between(t,0.320,1.000), 1280, "
            ++ "if(between(t,1.000,1.320), "
            ++ "1920+(1280-1920)*(3*pow((1.320-t)/0.320,2)-2*pow((1.320-t)/0.320,3)), "
            ++ "1920)))")%string.
Proof.
  eexists. eexists. eexists. split; [lazy; reflexivity |].
  repeat (split; [reflexivity |]).
  split.
  - intro H. vm_compute in H. destruct H as [H _]. discriminate H.
  - vm_compute. reflexivity.
Qed.

(** * Further instances *)

(** X1, instance: a number below ordered bounds, NaN between ordered
    bounds, a number already inside, and a number with the bounds out of
    order. *)
Lemma clamp_bounds_witness :
  0 <= clampNumber (Some (-3)) 0 1 <= 1
  /\ 0 <= clampNumber None 0 1 <= 1
  /\ clampNumber (Some (1 # 2)) 0 1 == 1 # 2
  /\ clampNumber (Some 7) 1 0 == 0.
Proof.
  split; [| split; [| split]].
  - apply (proj1 (clamp_bounds (Some (-3)) 0 1)). vm_compute. discriminate.
  - apply (proj1 (clamp_bounds None 0 1)). vm_compute. discriminate.
  - apply (proj1 (proj2 (proj1 (proj2 (clamp_bounds (Some (1 # 2)) 0 1))
                           (1 # 2) eq_refl))).
    split; vm_compute; discriminate.
  - apply (proj2 (proj2 (proj1 (proj2 (clamp_bounds (Some 7) 1 0)) 7 eq_refl))).
    vm_compute. reflexivity.
Defined.

(** X2, instance: below 0, above 1 and half-way. *)
Lemma smoothStep_unit_witness :
  smoothStep (-2) == 0 /\ smoothStep 3 == 1
  /\ smoothStep (1 # 2) == (1 # 2) * (1 # 2) * (3 - 2 * (1 # 2)).
Proof.
  split; [| split].
  - apply (proj1 (proj2 (smoothStep_unit (-2)))). vm_compute. discriminate.
  - apply (proj1 (proj2 (proj2 (smoothStep_unit 3)))). vm_compute. discriminate.
  - apply (proj2 (proj2 (proj2 (smoothStep_unit (1 # 2))))).
    split; vm_compute; discriminate.
Defined.

(** X3, instance: 900 ms is inside the envelope of [searchBarRegion]. *)
Lemma computeRegionStrength_range_witness :
  0 < computeRegionStrength searchBarRegion 900.
Proof.
  apply (proj2 (proj2 (computeRegionStrength_range searchBarRegion 900))).
  split; vm_compute; reflexivity.
Defined.

(** X4, instance: half-way through the lead-in and the lead-out of
    [searchBarRegion]. *)
Lemma computeRegionStrength_ease_witness :
  computeRegionStrength searchBarRegion 840
  == ((840 - (1000 - 320)) / 320) * ((840 - (1000 - 320)) / 320)
     * (3 - 2 * ((840 - (1000 - 320)) / 320))
  /\ computeRegionStrength searchBarRegion 3160
     == ((3000 + 320 - 3160) / 320) * ((3000 + 320 - 3160) / 320)
        * (3 - 2 * ((3000 + 320 - 3160) / 320)).
Proof.
  split.
  - apply (proj1 (computeRegionStrength_ease searchBarRegion 840)).
    + split; vm_compute; discriminate.
    + vm_compute. discriminate.
  - apply (proj2 (computeRegionStrength_ease searchBarRegion 3160)).
    + split; vm_compute; discriminate.
    + vm_compute. discriminate.
Defined.

(** X7, instance: an interval of 0 ms. *)
Lemma sampleZoomKeyframes_never_returns_witness :
  sampleZoomKeyframes 50 [leadInRegion] 320 0 = None.
Proof.
  apply (sampleZoomKeyframes_never_returns 50 [leadInRegion] 320 0);
    vm_compute; discriminate.
Defined.

(** X8, instance: 320 ms sampled every 160 ms gives three keyframes. *)
Lemma sampleZoomKeyframes_ticks_witness :
  exists kfs,
    sampleZoomKeyframes (sampleFuel 320 160) [leadInRegion] 320 160 = Some kfs
    /\ nth_error kfs 1 = Some (keyframeAt [leadInRegion] (tickAt 160 1))
    /\ List.length kfs = Z.to_nat (320 / 160 + 1).
Proof.
  destruct (sampleZoomKeyframes_ticks [leadInRegion] 320 160 eq_refl)
    as (kfs & Hk & Hnth & _ & Hwhole).
  exists kfs. split; [exact Hk | split].
  - exact (Hnth 1%nat).
  - apply (proj1 (Hwhole 320%Z 160%Z ltac:(reflexivity) ltac:(reflexivity))).
Defined.

(** X10, instance: the search-bar preset at depth 3 on 1920x1080. *)
Lemma generateStaticZoomFilter_inside_witness :
  exists w h x y : Z,
    generateStaticZoomFilter integerHost ZoomPresets.searchBar D3
      (inject_Z 1920) (inject_Z 1080)
    = "crop=" ++ intToString integerHost w ++ ":" ++ intToString integerHost h
        ++ ":" ++ intToString integerHost x ++ ":" ++ intToString integerHost y
        ++ ",scale=" ++ intToString integerHost 1920 ++ ":"
        ++ intToString integerHost 1080 ++ ":flags=lanczos"
    /\ (0 <= w /\ 0 <= x /\ x + w <= 1920)%Z
    /\ (0 <= h /\ 0 <= y /\ y + h <= 1080)%Z.
Proof.
  apply (generateStaticZoomFilter_inside integerHost ZoomPresets.searchBar D3
           1920 1080); lia.
Defined.

(** X11, instance: two cuts given out of order. *)
Lemma computeKeptSegments_ordered_witness :
  (forall seg, In seg (computeKeptSegments [cut20to30; cut5to10] 60000) ->
     Segment.startSec seg < Segment.endSec seg)
  /\ StronglySorted segBefore (computeKeptSegments [cut20to30; cut5to10] 60000).
Proof.
  pose proof (computeKeptSegments_ordered [cut20to30; cut5to10] 60000
                ltac:(discriminate)) as [H1 H2].
  split; [exact H1 |]. apply H2.
  intros r [<- | [<- | []]]; vm_compute; discriminate.
Defined.

(** X12, instance: 15 s lies between the two cuts. *)
Lemma computeKeptSegments_complete_witness :
  exists seg,
    In seg (computeKeptSegments [cut20to30; cut5to10] 60000)
    /\ inSegment 15000 seg.
Proof.
  apply (computeKeptSegments_complete [cut20to30; cut5to10] 60000 15000).
  - split; vm_compute; [discriminate | reflexivity].
  - intros r [<- | [<- | []]] [H1 H2].
    + vm_compute in H1. apply H1. reflexivity.
    + vm_compute in H2. discriminate H2.
Defined.

(** X13, instance: the two cuts are not nested. *)
Lemma computeKeptSegments_sound_witness :
  ~ inCut 15000 cut20to30 /\ ~ inCut 15000 cut5to10.
Proof.
  assert (Hflat : forall r1 r2,
            In r1 [cut20to30; cut5to10] -> In r2 [cut20to30; cut5to10] ->
            TrimRegion.startMs r1 <= TrimRegion.startMs r2 ->
            TrimRegion.endMs r1 <= TrimRegion.endMs r2).
  { intros r1 r2 [<- | [<- | []]] [<- | [<- | []]] H;
      vm_compute in H |- *; first [discriminate | apply H; reflexivity]. }
  assert (Hseg : In (Segment.mk (10000 / 1000) (20000 / 1000))
                   (computeKeptSegments [cut20to30; cut5to10] 60000)).
  { vm_compute. right. left. reflexivity. }
  assert (Ht : inSegment 15000 (Segment.mk (10000 / 1000) (20000 / 1000))).
  { split; vm_compute; [discriminate | reflexivity]. }
  split.
  - apply (computeKeptSegments_sound [cut20to30; cut5to10] 60000 Hflat
             (Segment.mk (10000 / 1000) (20000 / 1000)) cut20to30 15000 Hseg); [left; reflexivity | exact Ht].
  - apply (computeKeptSegments_sound [cut20to30; cut5to10] 60000 Hflat
             (Segment.mk (10000 / 1000) (20000 / 1000)) cut5to10 15000 Hseg);
      [right; left; reflexivity | exact Ht].
Defined.

(** X14, instance: 60 s less the two cuts is 45 s. *)
Lemma computeKeptSegments_total_witness :
  totalKept (computeKeptSegments [cut20to30; cut5to10] 60000) * 1000
  == computeEffectiveDuration [cut20to30; cut5to10] 60000.
Proof.
  apply (computeKeptSegments_total [cut20to30; cut5to10] 60000).
  - exists 60%Z. reflexivity.
  - intros r [<- | [<- | []]]; split;
      [exists 20%Z | exists 30%Z | exists 5%Z | exists 10%Z]; reflexivity.
  - vm_compute. repeat split; discriminate.
Defined.

(** X15, instance: a cut over the whole clip. *)
Lemma generateTrimFilter_empty_iff_witness :
  generateTrimFilter integerHost [cutAll] 20000 true = "".
Proof.
  apply (proj2 (generateTrimFilter_empty_iff integerHost [cutAll] 20000 true)).
  vm_compute. reflexivity.
Defined.

(** X16, instance: a cut over the whole clip. *)
Lemma buildTrimCommand_nothing_kept_witness :
  buildTrimCommand integerHost "input.mp4" "output.mp4" [cutAll] 20000 true
  = [ "ffmpeg"; "-y"; "-i"; "input.mp4"; "-filter_complex"; "";
      "-map"; "[outv]"; "-map"; "[outa]";
      "-c:v"; "libx264"; "-preset"; "fast"; "-crf"; "18";
      "-c:a"; "aac"; "output.mp4" ].
Proof.
  apply (buildTrimCommand_nothing_kept integerHost "input.mp4" "output.mp4"
           [cutAll] 20000 true).
  vm_compute. reflexivity.
Defined.

(** X17, instance: a path without a dot. *)
Lemma intermediateOutput_split_witness :
  intermediateOutput integerHost "noext" 0
  = "_step" ++ intToString integerHost 0 ++ "noext".
Proof.
  apply (proj2 (proj2 (intermediateOutput_split integerHost "noext" 0))).
  unfold hasChar. cbn. intuition discriminate.
Defined.

(** X19, instance: a padded blur alone. *)
Lemma buildPipeline_background_only_witness :
  buildPipeline integerHost backgroundOnlyConfig
  = [ PipelineStep.mk "Apply background/wallpaper"
        (buildBackgroundCommand integerHost "input.mp4" "output.mp4"
           paddedBlur 1920 1080) ].
Proof.
  apply (buildPipeline_background_only integerHost backgroundOnlyConfig
           paddedBlur); try exact I.
  - reflexivity.
  - vm_compute. reflexivity.
Defined.

(** X20, instance: the browser-chrome crop alone. *)
Lemma buildPipeline_crop_only_witness :
  buildPipeline integerHost cropOnlyConfig
  = [ PipelineStep.mk "Apply video effects (zoom/crop/annotations)"
        (buildCropCommand integerHost "input.mp4" "output.mp4"
           browserChromeCrop 1920 1080 false) ].
Proof.
  apply (buildPipeline_crop_only integerHost cropOnlyConfig browserChromeCrop);
    try exact I.
  - reflexivity.
  - intros (_ & H & _). vm_compute in H. discriminate H.
Defined.

(** X21, instance: one text annotation alone. *)
Lemma buildPipeline_annotations_only_witness :
  buildPipeline integerHost annotationsOnlyConfig
  = [ PipelineStep.mk
        (if truthy (generateAnnotationFilters integerHost [helloText] 1920 1080)
         then "Apply video effects (zoom/crop/annotations)"
         else "Copy (no effects)")
        (buildAnnotationCommand integerHost "input.mp4" "output.mp4"
           [helloText] 1920 1080) ].
Proof.
  apply (buildPipeline_annotations_only integerHost annotationsOnlyConfig
           [helloText]); try exact I.
  reflexivity.
Defined.

(** X22, instance: two cuts alone; the command aims at the intermediate
    path. *)
Lemma buildPipeline_trim_only_witness :
  exists description,
    buildPipeline integerHost
      (withTrim [cut5to10; cut20to30] (plainConfig clip60s))
    = [ PipelineStep.mk description
          (buildTrimCommand integerHost "input.mp4"
             (if (1 <? List.length
                         (computeKeptSegments [cut5to10; cut20to30] 60000))%nat
              then intermediateOutput integerHost "output.mp4" 0
              else "output.mp4")
             [cut5to10; cut20to30] 60000 true) ].
Proof.
  apply (buildPipeline_trim_only integerHost
           (withTrim [cut5to10; cut20to30] (plainConfig clip60s))
           [cut5to10; cut20to30] eq_refl).
  - repeat split.
  - vm_compute. discriminate.
Defined.

(** X23, instance: a plain word. *)
Lemma escapeDrawtext_safe_witness : escapeDrawtext "Hello" = "Hello".
Proof.
  apply (proj2 (escapeDrawtext_safe "Hello")).
  unfold hasChar. cbn. intros c H.
  repeat (destruct H as [<- | H]; [repeat split; discriminate |]).
  destruct H.
Defined.

(** X24, instance: a text annotation with empty text. *)
Lemma generateAnnotationFilters_empty_iff_witness :
  generateAnnotationFilters integerHost [emptyText] 1920 1080 = "".
Proof.
  apply (proj2 (generateAnnotationFilters_empty_iff integerHost [emptyText]
                  1920 1080)).
  intros ann [<- | []]. split; [reflexivity | right; reflexivity].
Defined.

(** X26, instance: the plan of a padded blur, whose filter argument is
    quoted. *)
Lemma pipelineToShellCommands_read_back_witness :
  map shellWords
    (pipelineToShellCommands (buildPipeline integerHost backgroundOnlyConfig))
  = map (fun step => Some (PipelineStep.args step))
      (buildPipeline integerHost backgroundOnlyConfig).
Proof.
  apply (pipelineToShellCommands_read_back
           (buildPipeline integerHost backgroundOnlyConfig)).
  intros step arg Hstep Harg.
  vm_compute in Hstep. destruct Hstep as [<- | []].
  cbn [PipelineStep.args] in Harg.
  repeat (destruct Harg as [<- | Harg];
          [split; [discriminate
                  | vm_compute; first [left; reflexivity | right; reflexivity]]
          |]).
  destruct Harg.
Defined.

(** X27, instance: the two cuts in either order. *)
Lemma region_order_irrelevant_witness :
  computeKeptSegments [cut20to30; cut5to10] 60000
  = computeKeptSegments [cut5to10; cut20to30] 60000.
Proof.
  apply (proj2 (region_order_irrelevant integerHost)
           [cut20to30; cut5to10] [cut5to10; cut20to30] 60000).
  - apply perm_swap.
  - unfold distinctKeys. repeat constructor.
    intro H. vm_compute in H. discriminate H.
Defined.

(** X28, instance: one cut inside the clip. *)
Lemma computeKeptSegments_within_clip_witness :
  0 <= Segment.startSec (Segment.mk (10000 / 1000) (60000 / 1000))
  /\ Segment.endSec (Segment.mk (10000 / 1000) (60000 / 1000)) <= 60000 / 1000.
Proof.
  apply (computeKeptSegments_within_clip [cut5to10] 60000).
  - intros r [<- | []]. split; vm_compute; discriminate.
  - vm_compute. right. left. reflexivity.
Defined.

(** X29, instance. *)
Lemma ZoomPresets_element_unit_witness :
  ZoomFocus.cx (ZoomPresets.element (1 # 2) 3) == 1 # 2.
Proof.
  apply (proj1 (proj2 (proj2 (ZoomPresets_element_unit (1 # 2) 3)))).
  split; vm_compute; discriminate.
Defined.

(** X6, instance: one region, 160 ms into its lead-in. *)
Lemma findDominantRegion_first_maximum_witness :
  computeRegionStrength leadInRegion 160
  <= snd (findDominantRegion [leadInRegion] 160).
Proof.
  apply (proj1 (findDominantRegion_first_maximum [leadInRegion] 160)).
  left. reflexivity.
Defined.
